(** * Semiring algebra layer of torch_struct (semirings.py)

    A shallow embedding of [src/model/torch_struct/semirings/semirings.py].

    - Tensors are a shape together with an indexing function; the torch
      primitives the file calls ([unsqueeze], [logsumexp], [topk], [view],
      ...) are modelled after their documented behaviour, including the
      errors they raise.
    - Tensor elements are taken from a [Scalar] type: [Z] gives runnable
      examples (integer tensors), [R] carries [exp] and [ln] for the
      log-domain and expectation semirings.  Floating-point rounding and
      NaN are outside the model: scalar arithmetic is exact.
    - Python exceptions are the [Raise] branch of [result]; in-place
      methods return the new contents of the buffer they mutate.
    - Embedded: every method of every class, with [matmul] on dense
      tensors (the banded-matrix backend is an external library). *)

From Stdlib Require Import List ZArith Reals Lia Lra Bool Permutation Sorted.
From Stdlib Require Import Morphisms.
Import ListNotations.

Set Implicit Arguments.

(** ** Exceptions and results *)

Inductive exn : Type :=
  | AssertionError
  | IndexError
  | RuntimeError
  | AttributeError
  | TypeError.

Inductive result (T : Type) : Type :=
  | Ok (v : T)
  | Raise (e : exn).

Arguments Ok {T} v.
Arguments Raise {T} e.

Definition bind {T U : Type} (r : result T) (f : T -> result U) : result U :=
  match r with
  | Ok v => f v
  | Raise e => Raise e
  end.

Notation "x <- e ;; k" := (bind e (fun x => k))
  (at level 61, e at next level, right associativity).
Notation "e ;;; k" := (bind e (fun _ => k))
  (at level 61, right associativity).

(** Python's [assert c]. *)
Definition assert (c : bool) : result unit :=
  if c then Ok tt else Raise AssertionError.

(** ** Scalars *)

Class Scalar (A : Type) : Type := {
  s_zero : A;
  s_one : A;
  NEGINF : A;                 (* NEGINF = -1e12 *)
  s_add : A -> A -> A;
  s_sub : A -> A -> A;
  s_mul : A -> A -> A;
  s_leb : A -> A -> bool
}.

(** The order laws the top-k and max arguments rely on. *)
Class ScalarOrder (A : Type) {SA : Scalar A} : Prop := {
  s_leb_total : forall a b : A, s_leb a b = true \/ s_leb b a = true;
  s_leb_trans : forall a b c : A,
      s_leb a b = true -> s_leb b c = true -> s_leb a c = true;
  s_leb_antisym : forall a b : A,
      s_leb a b = true -> s_leb b a = true -> a = b
}.

Arguments ScalarOrder A {SA}.

(** The identities of exact arithmetic. *)
Class ScalarLaws (A : Type) {SA : Scalar A} : Prop := {
  s_add_0_l : forall a : A, s_add s_zero a = a;
  s_add_0_r : forall a : A, s_add a s_zero = a;
  s_mul_1_l : forall a : A, s_mul s_one a = a
}.

Arguments ScalarLaws A {SA}.

(** Scalars with a division. *)
Class Division (A : Type) : Type := {
  s_div : A -> A -> A
}.

(** The laws of an ordered commutative ring that the composition
    properties rely on. *)
Class ScalarRing (A : Type) {SA : Scalar A} : Prop := {
  s_add_assoc : forall a b c : A, s_add a (s_add b c) = s_add (s_add a b) c;
  s_add_comm : forall a b : A, s_add a b = s_add b a;
  s_mul_assoc : forall a b c : A, s_mul a (s_mul b c) = s_mul (s_mul a b) c;
  s_mul_1_r : forall a : A, s_mul a s_one = a;
  s_mul_add_distr_l : forall a b c : A,
      s_mul a (s_add b c) = s_add (s_mul a b) (s_mul a c);
  s_add_mono_l : forall a b c : A,
      s_leb b c = true -> s_leb (s_add a b) (s_add a c) = true
}.

Arguments ScalarRing A {SA}.

(** Scalars with [exp] and [log]. *)
Class Transcendental (A : Type) : Type := {
  s_exp : A -> A;
  s_log : A -> A
}.

(** The laws of subtraction, multiplication and [exp] at 0 and 1 that the
    statistics of the expectation semirings rely on. *)
Class ScalarExp (A : Type) {SA : Scalar A} {TA : Transcendental A}
  : Prop := {
  s_sub_diag : forall a : A, s_sub a a = s_zero;
  s_sub_0_r : forall a : A, s_sub a s_zero = a;
  s_mul_0_r : forall a : A, s_mul a s_zero = s_zero;
  s_mul_unit_r : forall a : A, s_mul a s_one = a;
  s_exp_0 : s_exp s_zero = s_one
}.

Arguments ScalarExp A {SA TA}.

#[export] Instance Z_Scalar : Scalar Z := {|
  s_zero := 0%Z;
  s_one := 1%Z;
  NEGINF := (-1000000000000)%Z;
  s_add := Z.add;
  s_sub := Z.sub;
  s_mul := Z.mul;
  s_leb := Z.leb
|}.

Definition Rleb (a b : R) : bool := if Rle_dec a b then true else false.

#[export] Instance R_Scalar : Scalar R := {|
  s_zero := 0%R;
  s_one := 1%R;
  NEGINF := (-1e12)%R;
  s_add := Rplus;
  s_sub := Rminus;
  s_mul := Rmult;
  s_leb := Rleb
|}.

#[export] Instance R_Transcendental : Transcendental R := {|
  s_exp := exp;
  s_log := ln
|}.

#[export] Instance R_Division : Division R := {|
  s_div := Rdiv
|}.

(** An [exp] that underflows: it is 0 at and below -745, as the [exp] of
    IEEE double precision is.  With it the sentinel [NEGINF] behaves under
    [exp] as it does in the floating-point program. *)
Definition exp_underflow (x : R) : R :=
  if Rle_dec x (-745) then 0%R else exp x.

Definition R_Underflow : Transcendental R := {|
  s_exp := exp_underflow;
  s_log := ln
|}.

(** ** Index and shape arithmetic *)

Definition numel (s : list nat) : nat := fold_right Nat.mul 1 s.

Definition insert_at {T : Type} (d : nat) (x : T) (l : list T) : list T :=
  firstn d l ++ x :: skipn d l.

Definition remove_at {T : Type} (d : nat) (l : list T) : list T :=
  firstn d l ++ skipn (S d) l.

(** Row-major offset of an index, and back. *)
Fixpoint ravel (s : list nat) (idx : list nat) : nat :=
  match s, idx with
  | _ :: s', i :: idx' => i * numel s' + ravel s' idx'
  | _, _ => 0
  end.

Fixpoint unravel (s : list nat) (off : nat) : list nat :=
  match s with
  | [] => []
  | _ :: s' => off / numel s' :: unravel s' (off mod numel s')
  end.

Fixpoint in_rangeb (s : list nat) (idx : list nat) : bool :=
  match s, idx with
  | [], [] => true
  | n :: s', i :: idx' => (i <? n) && in_rangeb s' idx'
  | _, _ => false
  end.

Definition in_range (s : list nat) (idx : list nat) : Prop :=
  in_rangeb s idx = true.

(** All the indices of a shape, in row-major order. *)
Fixpoint indices (s : list nat) : list (list nat) :=
  match s with
  | [] => [[]]
  | n :: s' => flat_map (fun i => map (cons i) (indices s')) (seq 0 n)
  end.

(** torch's dimension wrapping: a tensor of [n] dimensions accepts
    [-n <= dim < n]; a 0-dimensional tensor is treated as 1-dimensional. *)
Definition wrap_dim (dim : Z) (n : nat) : result nat :=
  let m := Z.of_nat (Nat.max n 1) in
  if ((- m <=? dim) && (dim <? m))%Z
  then Ok (Z.to_nat (if (dim <? 0)%Z then dim + m else dim))
  else Raise IndexError.

(** Broadcasting of shapes, aligned on the right. *)
Definition pad_shape (n : nat) (s : list nat) : list nat :=
  repeat 1 (n - length s) ++ s.

Definition bdim (a b : nat) : option nat :=
  if a =? b then Some a
  else if a =? 1 then Some b
  else if b =? 1 then Some a
  else None.

Fixpoint bzip (s1 s2 : list nat) : option (list nat) :=
  match s1, s2 with
  | [], [] => Some []
  | a :: r1, b :: r2 =>
      match bdim a b, bzip r1 r2 with
      | Some c, Some r => Some (c :: r)
      | _, _ => None
      end
  | _, _ => None
  end.

Definition bshape (s1 s2 : list nat) : option (list nat) :=
  let n := Nat.max (length s1) (length s2) in
  bzip (pad_shape n s1) (pad_shape n s2).

Fixpoint bmask (s idx : list nat) : list nat :=
  match s, idx with
  | n :: s', i :: idx' => (if n =? 1 then 0 else i) :: bmask s' idx'
  | _, _ => []
  end.

(** The index of an operand of shape [s] read at index [idx] of the
    broadcast result. *)
Definition bidx (s idx : list nat) : list nat :=
  bmask s (skipn (length idx - length s) idx).

Definition shape_eqb (s1 s2 : list nat) : bool :=
  if list_eq_dec Nat.eq_dec s1 s2 then true else false.

(** [s] can be expanded to [target] (in-place operations). *)
Definition expandable (s target : list nat) : bool :=
  match bshape s target with
  | Some r => shape_eqb r target
  | None => false
  end.

(** ** Tensors *)

Record tensor (A : Type) : Type := mkT {
  shape : list nat;
  tget : list nat -> A
}.

Arguments mkT {A} shape tget.

Definition ndim {A} (t : tensor A) : nat := length (shape t).

(** Equality of tensors: same shape, same element at every index. *)
Definition teq {A} (t1 t2 : tensor A) : Prop :=
  shape t1 = shape t2 /\
  forall idx, in_range (shape t1) idx -> tget t1 idx = tget t2 idx.

(** The elements in row-major order. *)
Definition flatten {A} (t : tensor A) : list A :=
  map (tget t) (indices (shape t)).

(** A tensor from its shape and its row-major data. *)
Definition of_flat {A} (dflt : A) (s : list nat) (data : list A) : tensor A :=
  mkT s (fun idx => nth (ravel s idx) data dflt).

Definition of_list {A} (dflt : A) (l : list A) : tensor A :=
  of_flat dflt [length l] l.

Definition scalar_t {A} (a : A) : tensor A := mkT [] (fun _ => a).

(** ** Torch primitives *)

Section Torch.
Context {A : Type}.

(** [t[i]] on the leading dimension; a negative [i] counts from the end. *)
Definition select (t : tensor A) (i : Z) : result (tensor A) :=
  match shape t with
  | [] => Raise IndexError
  | n :: s =>
      let m := Z.of_nat n in
      if ((- m <=? i) && (i <? m))%Z
      then let j := Z.to_nat (if (i <? 0)%Z then i + m else i) in
           Ok (mkT s (fun idx => tget t (j :: idx)))
      else Raise IndexError
  end.

(** [t[i] = v]: [v] is expanded to the shape of [t[i]]. *)
Definition set_index (t : tensor A) (i : Z) (v : tensor A)
  : result (tensor A) :=
  match shape t with
  | [] => Raise IndexError
  | n :: s =>
      let m := Z.of_nat n in
      if ((- m <=? i) && (i <? m))%Z
      then let j := Z.to_nat (if (i <? 0)%Z then i + m else i) in
           if expandable (shape v) s
           then Ok (mkT (n :: s)
                      (fun idx =>
                         match idx with
                         | c :: idx' =>
                             if c =? j then tget v (bidx (shape v) idx')
                             else tget t idx
                         | [] => tget t idx
                         end))
           else Raise RuntimeError
      else Raise IndexError
  end.

(** An in-place method called on the view [t[i]]: the view shares its
    storage with [t], so the result is written back into [t]. *)
Definition on_select (t : tensor A) (i : Z)
    (f : tensor A -> result (tensor A)) : result (tensor A) :=
  sub <- select t i ;;
  sub' <- f sub ;;
  set_index t i sub'.

Definition fill_ (t : tensor A) (a : A) : tensor A :=
  mkT (shape t) (fun _ => a).

Definition masked_fill_ (t : tensor A) (mask : tensor bool) (a : A)
  : result (tensor A) :=
  if expandable (shape mask) (shape t)
  then Ok (mkT (shape t)
             (fun idx =>
                if tget mask (bidx (shape mask) idx) then a
                else tget t idx))
  else Raise RuntimeError.

Definition unsqueeze (t : tensor A) (dim : Z) : result (tensor A) :=
  d <- wrap_dim dim (ndim t + 1) ;;
  Ok (mkT (insert_at d 1 (shape t)) (fun idx => tget t (remove_at d idx))).

Definition squeeze (t : tensor A) (dim : Z) : result (tensor A) :=
  d <- wrap_dim dim (ndim t) ;;
  if nth d (shape t) 0 =? 1
  then Ok (mkT (remove_at d (shape t))
             (fun idx => tget t (insert_at d 0 idx)))
  else Ok t.

(** The elements along axis [d] at the position [idx] of the other axes. *)
Definition lane (t : tensor A) (d : nat) (idx : list nat) : list A :=
  map (fun j => tget t (insert_at d j idx)) (seq 0 (nth d (shape t) 0)).

(** A reduction of axis [dim] by [f]; a 0-dimensional tensor is reduced
    over its single element. *)
Definition reduce_dim (f : list A -> A) (t : tensor A) (dim : Z)
  : result (tensor A) :=
  d <- wrap_dim dim (ndim t) ;;
  Ok (match shape t with
      | [] => mkT [] (fun idx => f [tget t idx])
      | _ :: _ => mkT (remove_at d (shape t)) (fun idx => f (lane t d idx))
      end).

(** [torch.stack(ts, dim)]. *)
Definition stack (ts : list (tensor A)) (dim : Z) : result (tensor A) :=
  match ts with
  | [] => Raise RuntimeError
  | t0 :: _ =>
      if forallb (fun t => shape_eqb (shape t) (shape t0)) ts
      then d <- wrap_dim dim (ndim t0 + 1) ;;
           Ok (mkT (insert_at d (length ts) (shape t0))
                 (fun idx => tget (nth (nth d idx 0) ts t0)
                               (remove_at d idx)))
      else Raise RuntimeError
  end.

(** Element-wise binary operation with broadcasting. *)
Definition binop (f : A -> A -> A) (a b : tensor A) : result (tensor A) :=
  match bshape (shape a) (shape b) with
  | Some s =>
      Ok (mkT s (fun idx => f (tget a (bidx (shape a) idx))
                              (tget b (bidx (shape b) idx))))
  | None => Raise RuntimeError
  end.

Definition tmap (f : A -> A) (t : tensor A) : tensor A :=
  mkT (shape t) (fun idx => f (tget t idx)).

Fixpoint index_of (j : nat) (l : list nat) : nat :=
  match l with
  | [] => 0
  | x :: r => if x =? j then 0 else S (index_of j r)
  end.

Definition is_perm (perm : list nat) (n : nat) : bool :=
  (length perm =? n)
  && forallb (fun j => existsb (Nat.eqb j) perm) (seq 0 n).

(** [t.permute(perm)]: axis [i] of the result is axis [perm[i]] of [t]. *)
Definition permute (t : tensor A) (perm : list nat) : result (tensor A) :=
  if is_perm perm (ndim t)
  then Ok (mkT (map (fun p => nth p (shape t) 0) perm)
             (fun idx =>
                tget t (map (fun j => nth (index_of j perm) idx 0)
                          (seq 0 (ndim t)))))
  else Raise RuntimeError.

Definition reshape (t : tensor A) (s : list nat) : tensor A :=
  mkT s (fun idx => tget t (unravel (shape t) (ravel s idx))).

(** [t.contiguous().view(spec)]; one entry of [spec] may be [-1]. *)
Definition view (t : tensor A) (spec : list Z) : result (tensor A) :=
  let n := numel (shape t) in
  let known :=
    fold_right (fun z acc => if (z <? 0)%Z then acc else Z.to_nat z * acc)
      1 spec in
  if existsb (fun z => (z <? -1)%Z) spec then Raise RuntimeError
  else
    match count_occ Z.eq_dec spec (-1)%Z with
    | 0 => if known =? n then Ok (reshape t (map Z.to_nat spec))
           else Raise RuntimeError
    | 1 => if (known =? 0) || negb (n mod known =? 0)
           then Raise RuntimeError
           else Ok (reshape t
                      (map (fun z => if (z =? -1)%Z then n / known
                                     else Z.to_nat z) spec))
    | _ => Raise RuntimeError
    end.

Definition set_nth (d : nat) (x : nat) (l : list nat) : list nat :=
  firstn d l ++ x :: skipn (S d) l.

Context {SA : Scalar A}.

Definition zeros (s : list nat) : tensor A := mkT s (fun _ => s_zero).

Definition zeros_like (t : tensor A) : tensor A := zeros (shape t).

Definition lsum (l : list A) : A := fold_right s_add s_zero l.

Definition lmax (l : list A) : A :=
  match l with
  | [] => s_zero
  | x :: r => fold_left (fun m y => if s_leb m y then y else m) r x
  end.

Fixpoint insert_desc (x : A) (l : list A) : list A :=
  match l with
  | [] => [x]
  | y :: r => if s_leb y x then x :: y :: r else y :: insert_desc x r
  end.

Definition sort_desc (l : list A) : list A := fold_right insert_desc [] l.

(** [torch.sum(t, dim)]. *)
Definition tsum (t : tensor A) (dim : Z) : result (tensor A) :=
  reduce_dim lsum t dim.

(** [torch.max(t, dim)[0]]: an axis of size 0 cannot be reduced. *)
Definition tmax (t : tensor A) (dim : Z) : result (tensor A) :=
  d <- wrap_dim dim (ndim t) ;;
  if nth d (shape t) 1 =? 0 then Raise IndexError
  else reduce_dim lmax t dim.

(** [torch.topk(t, k, dim)[0]]: the [k] largest elements along [dim],
    largest first. *)
Definition topk (t : tensor A) (k : nat) (dim : Z) : result (tensor A) :=
  d <- wrap_dim dim (ndim t) ;;
  match shape t with
  | [] => if k =? 1 then Ok t else Raise RuntimeError
  | _ :: _ =>
      if k <=? nth d (shape t) 0
      then Ok (mkT (set_nth d k (shape t))
                 (fun idx =>
                    nth (nth d idx 0)
                      (sort_desc (lane t d (remove_at d idx))) s_zero))
      else Raise RuntimeError
  end.

Definition tadd (a b : tensor A) := binop s_add a b.
Definition tsub (a b : tensor A) := binop s_sub a b.
Definition tmul (a b : tensor A) := binop s_mul a b.

Context {TA : Transcendental A}.

Definition texp (t : tensor A) : tensor A := tmap s_exp t.

Definition lse (l : list A) : A := s_log (lsum (map s_exp l)).

(** [torch.logsumexp(t, dim)]. *)
Definition logsumexp (t : tensor A) (dim : Z) : result (tensor A) :=
  reduce_dim lse t dim.

End Torch.

(** ** Further torch primitives

    Those of [prod], [matmul], [dot] and the [sparse_sum] variants. *)

Section TorchMore.
Context {A : Type}.

(** The list [l] with the entries at [d0] and [d1] exchanged. *)
Definition swap_nth (d0 d1 : nat) (l : list nat) : list nat :=
  map (fun i => nth (if i =? d0 then d1 else if i =? d1 then d0 else i) l 0)
    (seq 0 (length l)).

(** [t.transpose(dim0, dim1)]. *)
Definition transpose (t : tensor A) (dim0 dim1 : Z) : result (tensor A) :=
  d0 <- wrap_dim dim0 (ndim t) ;;
  d1 <- wrap_dim dim1 (ndim t) ;;
  Ok (mkT (swap_nth d0 d1 (shape t))
        (fun idx => tget t (swap_nth d0 d1 idx))).

(** [torch.zeros(s).long()]: an index tensor of zeros. *)
Definition zeros_long (s : list nat) : tensor nat := mkT s (fun _ => 0).

(** [t % k] and [t // k] on an index tensor: the division by zero is
    raised when an element is computed, so never on an empty tensor. *)
Definition tmod (t : tensor nat) (k : nat) : result (tensor nat) :=
  if (k =? 0) && negb (numel (shape t) =? 0) then Raise RuntimeError
  else Ok (mkT (shape t) (fun idx => tget t idx mod k)).

Definition tfloordiv (t : tensor nat) (k : nat) : result (tensor nat) :=
  if (k =? 0) && negb (numel (shape t) =? 0) then Raise RuntimeError
  else Ok (mkT (shape t) (fun idx => tget t idx / k)).

Fixpoint find_index (f : A -> bool) (l : list A) : nat :=
  match l with
  | [] => 0
  | x :: r => if f x then 0 else S (find_index f r)
  end.

Context {SA : Scalar A}.

Definition lprod (l : list A) : A := fold_right s_mul s_one l.

(** [torch.prod(t, dim)]. *)
Definition tprod (t : tensor A) (dim : Z) : result (tensor A) :=
  reduce_dim lprod t dim.

(** The index of the first maximal element. *)
Definition largmax (l : list A) : nat :=
  find_index (fun x => s_leb (lmax l) x) l.

(** [torch.max(t, dim)]: the values and the indices of the first maximal
    value of every lane. *)
Definition tmax_idx (t : tensor A) (dim : Z)
  : result (tensor A * tensor nat) :=
  d <- wrap_dim dim (ndim t) ;;
  if nth d (shape t) 1 =? 0 then Raise IndexError
  else
    Ok (match shape t with
        | [] => (mkT [] (fun idx => lmax [tget t idx]),
                 mkT [] (fun idx => 0))
        | _ :: _ =>
            (mkT (remove_at d (shape t)) (fun idx => lmax (lane t d idx)),
             mkT (remove_at d (shape t))
               (fun idx => largmax (lane t d idx)))
        end).

(** Sorting in descending order with the positions carried along. *)
Fixpoint insert_desc_idx (x : A * nat) (l : list (A * nat))
  : list (A * nat) :=
  match l with
  | [] => [x]
  | y :: r =>
      if s_leb (fst y) (fst x) then x :: y :: r
      else y :: insert_desc_idx x r
  end.

Definition sort_desc_idx (l : list A) : list (A * nat) :=
  fold_right insert_desc_idx [] (combine l (seq 0 (length l))).

(** [torch.topk(t, k, dim)]: values and indices. *)
Definition topk_idx (t : tensor A) (k : nat) (dim : Z)
  : result (tensor A * tensor nat) :=
  d <- wrap_dim dim (ndim t) ;;
  match shape t with
  | [] => if k =? 1 then Ok (t, mkT [] (fun _ => 0)) else Raise RuntimeError
  | _ :: _ =>
      if k <=? nth d (shape t) 0
      then Ok (mkT (set_nth d k (shape t))
                 (fun idx =>
                    fst (nth (nth d idx 0)
                           (sort_desc_idx (lane t d (remove_at d idx)))
                           (s_zero, 0))),
               mkT (set_nth d k (shape t))
                 (fun idx =>
                    snd (nth (nth d idx 0)
                           (sort_desc_idx (lane t d (remove_at d idx)))
                           (s_zero, 0))))
      else Raise RuntimeError
  end.

(** The product of two tensors of at least two dimensions: the batch
    dimensions broadcast, the last two are multiplied as matrices. *)
Definition matmul_core (a b : tensor A) : result (tensor A) :=
  let ba := firstn (ndim a - 2) (shape a) in
  let bb := firstn (ndim b - 2) (shape b) in
  let n := nth (ndim a - 2) (shape a) 0 in
  let m := nth (ndim a - 1) (shape a) 0 in
  let m' := nth (ndim b - 2) (shape b) 0 in
  let p := nth (ndim b - 1) (shape b) 0 in
  if m =? m'
  then match bshape ba bb with
       | Some bs =>
           Ok (mkT (bs ++ [n; p])
                 (fun idx =>
                    let bi := firstn (length bs) idx in
                    let i := nth (length bs) idx 0 in
                    let k := nth (length bs + 1) idx 0 in
                    lsum (map (fun j =>
                                 s_mul (tget a (bidx ba bi ++ [i; j]))
                                       (tget b (bidx bb bi ++ [j; k])))
                            (seq 0 m))))
       | None => Raise RuntimeError
       end
  else Raise RuntimeError.

(** [torch.matmul(a, b)]: a 1-dimensional operand is taken as a row
    (left) or a column (right) and the added dimension is removed from the
    result. *)
Definition tmatmul (a b : tensor A) : result (tensor A) :=
  match ndim a, ndim b with
  | 0, _ | _, 0 => Raise RuntimeError
  | _, _ =>
      a' <- (if ndim a =? 1 then unsqueeze a 0 else Ok a) ;;
      b' <- (if ndim b =? 1 then unsqueeze b (-1) else Ok b) ;;
      r <- matmul_core a' b' ;;
      r <- (if ndim a =? 1 then squeeze r (-2) else Ok r) ;;
      (if ndim b =? 1 then squeeze r (-1) else Ok r)
  end.

Context {TA : Transcendental A} {DA : Division A}.

(** [torch.softmax(t, dim)]. *)
Definition softmax_t (t : tensor A) (dim : Z) : result (tensor A) :=
  d <- wrap_dim dim (ndim t) ;;
  Ok (match shape t with
      | [] => mkT [] (fun idx => s_div (s_exp (tget t idx))
                                   (lsum (map s_exp [tget t idx])))
      | _ :: _ =>
          mkT (shape t)
            (fun idx => s_div (s_exp (tget t idx))
                          (lsum (map s_exp (lane t d (remove_at d idx)))))
      end).

End TorchMore.

(** ** Python values around the tensors *)

(** [potentials: Union[Tensor, List[Tensor]]]. *)
Inductive potentials (A : Type) : Type :=
  | PTensor (t : tensor A)
  | PList (l : list (tensor A)).

Arguments PTensor {A} t.
Arguments PList {A} l.

(** [xs[i]] on a tensor or on a Python list. *)
Definition getitem {A} (xs : potentials A) (i : Z) : result (tensor A) :=
  match xs with
  | PTensor t => select t i
  | PList l =>
      let m := Z.of_nat (length l) in
      if ((- m <=? i) && (i <? m))%Z
      then match nth_error l (Z.to_nat (if (i <? 0)%Z then i + m else i)) with
           | Some t => Ok t
           | None => Raise IndexError
           end
      else Raise IndexError
  end.

(** What a method returns: a tensor, or [None]. *)
Inductive pyobj (A : Type) : Type :=
  | PyTensor (t : tensor A)
  | PyNone.

Arguments PyTensor {A} t.
Arguments PyNone {A}.

(** The class attribute [zero]. *)
Inductive zero_attr (A : Type) : Type :=
  | ZeroNone
  | ZeroScalar (a : A)
  | ZeroTuple (l : list A).

Arguments ZeroNone {A}.
Arguments ZeroScalar {A} a.
Arguments ZeroTuple {A} l.

(** ** The semiring classes

    One module per class of the source, holding the methods the class
    itself defines; [Dispatch] below resolves inherited methods. *)

Module Semiring.
Section Defs.
Context {A : Type} {SA : Scalar A}.

Definition zero : zero_attr A := ZeroNone.

Definition size : nat := 1.

Definition convert (potentials : potentials A) : result (tensor A) :=
  match potentials with
  | PTensor t => unsqueeze t 0
  | PList _ => Raise AttributeError
  end.

Definition unconvert (potentials : tensor A) : result (tensor A) :=
  squeeze potentials 0.

(** [cls.zero] is passed in by the class the method is called on. *)
Definition zero_mask_ (cls_zero : zero_attr A)
    (xs : tensor A) (mask : tensor bool) : result (unit * tensor A) :=
  m <- unsqueeze mask 0 ;;
  match cls_zero with
  | ZeroScalar z => xs' <- masked_fill_ xs m z ;; Ok (tt, xs')
  | _ => Raise TypeError
  end.

(** [plus] and [times], over the [sum] and [mul] of the calling class. *)
Definition plus (cls_sum : tensor A -> Z -> result (pyobj A))
    (a b : tensor A) : result (pyobj A) :=
  s <- stack [a; b] (-1) ;;
  cls_sum s (-1)%Z.

Definition times (cls_mul : tensor A -> tensor A -> result (tensor A))
    (ls : list (tensor A)) : result (tensor A) :=
  match ls with
  | [] => Raise TypeError
  | t :: r => fold_left (fun acc x => a <- acc ;; cls_mul a x) r (Ok t)
  end.
(** [matmul] and [dot], over the [times], [sum] and [matmul] of the
    calling class. *)
Definition matmul (cls_times : list (tensor A) -> result (tensor A))
    (cls_sum : tensor A -> Z -> result (pyobj A))
    (a b : tensor A) : result (pyobj A) :=
  a <- unsqueeze a (-1) ;;
  b <- unsqueeze b (-3) ;;
  c <- cls_times [a; b] ;;
  c <- transpose c (-2) (-1) ;;
  cls_sum c (-1)%Z.

Definition dot (cls_matmul : tensor A -> tensor A -> result (pyobj A))
    (a b : tensor A) : result (tensor A) :=
  a <- unsqueeze a (-2) ;;
  b <- unsqueeze b (-1) ;;
  c <- cls_matmul a b ;;
  match c with
  | PyNone => Raise AttributeError
  | PyTensor c => c <- squeeze c (-1) ;; squeeze c (-1)
  end.
End Defs.
End Semiring.

Module _Base.
Section Defs.
Context {A : Type} {SA : Scalar A}.

Definition zero : zero_attr A := ZeroScalar s_zero.

Definition mul (a b : tensor A) : result (tensor A) := tmul a b.

Definition zero_ (xs : tensor A) : result (tensor A) :=
  Ok (fill_ xs s_zero).

Definition one_ (xs : tensor A) : result (tensor A) :=
  Ok (fill_ xs s_one).
Definition prod (a : tensor A) (dim : Z) : result (tensor A) :=
  tprod a dim.
End Defs.
End _Base.

Module _BaseLog.
Section Defs.
Context {A : Type} {SA : Scalar A}.

Definition zero : zero_attr A := ZeroScalar NEGINF.

Definition sum {TA : Transcendental A} (xs : tensor A) (dim : Z)
  : result (tensor A) :=
  logsumexp xs dim.

Definition mul (a b : tensor A) : result (tensor A) := tadd a b.

Definition zero_ (xs : tensor A) : result (tensor A) :=
  Ok (fill_ xs NEGINF).

Definition one_ (xs : tensor A) : result (tensor A) :=
  Ok (fill_ xs s_zero).
Definition prod (a : tensor A) (dim : Z) : result (tensor A) :=
  tsum a dim.
End Defs.
End _BaseLog.

Module StdSemiring.
Section Defs.
Context {A : Type} {SA : Scalar A}.

Definition sum (xs : tensor A) (dim : Z) : result (tensor A) :=
  tsum xs dim.
(** The operands are dense tensors, never banded matrices, so the branch
    taken is [torch.matmul(a, b)]. *)
Definition matmul (a b : tensor A) : result (tensor A) :=
  tmatmul a b.
End Defs.
End StdSemiring.

Module LogSemiring.
Section Defs.
Context {A : Type} {SA : Scalar A} {TA : Transcendental A}.

(** On dense tensors: [_BaseLog.matmul(a, b)], the generic [matmul] called
    on the class [_BaseLog]. *)
Definition matmul (a b : tensor A) : result (pyobj A) :=
  Semiring.matmul (Semiring.times _BaseLog.mul)
    (fun xs dim => t <- _BaseLog.sum xs dim ;; Ok (PyTensor t)) a b.
End Defs.
End LogSemiring.

Module MaxSemiring.
Section Defs.
Context {A : Type} {SA : Scalar A}.

Definition sum (xs : tensor A) (dim : Z) : result (tensor A) :=
  tmax xs dim.
(** On dense tensors: the inherited generic [matmul], called on the class
    [MaxSemiring]. *)
Definition matmul (a b : tensor A) : result (pyobj A) :=
  Semiring.matmul (Semiring.times _BaseLog.mul)
    (fun xs dim => t <- sum xs dim ;; Ok (PyTensor t)) a b.

Definition sparse_sum (xs : tensor A) (dim : Z)
  : result (tensor A * (tensor nat * tensor nat)) :=
  ma <- tmax_idx xs dim ;;
  let (m, a) := ma in
  Ok (m, (zeros_long (shape a), a)).
End Defs.
End MaxSemiring.

Module KMaxSemiring.
Section Defs.
Context {A : Type} {SA : Scalar A}.
Variable k : nat.

Definition size : nat := k.

Definition convert (orig_potentials : potentials A) : result (tensor A) :=
  match orig_potentials with
  | PList _ => Raise AttributeError
  | PTensor orig =>
      let potentials := zeros (k :: shape orig) in
      potentials <- _BaseLog.zero_ potentials ;;
      set_index potentials 0 orig
  end.

Definition one_ (xs : tensor A) : result (tensor A) :=
  xs <- _BaseLog.zero_ xs ;;
  on_select xs 0 (fun x0 => Ok (fill_ x0 s_zero)).

Definition unconvert (potentials : tensor A) : result (tensor A) :=
  select potentials 0.

Definition sum (xs : tensor A) (dim : Z) : result (tensor A) :=
  if (dim =? -1)%Z then
    xs <- permute xs (seq 1 (ndim xs - 1) ++ [0]) ;;
    xs <- view xs (map Z.of_nat (firstn (ndim xs - 2) (shape xs))
                     ++ [(-1)%Z]) ;;
    xs <- topk xs k (-1) ;;
    xs <- permute xs ((ndim xs - 1) :: seq 0 (ndim xs - 1)) ;;
    assert (hd 0 (shape xs) =? k) ;;;
    Ok xs
  else Raise AssertionError.

Definition mul (a b : tensor A) : result (tensor A) :=
  a <- view a (map Z.of_nat (k :: 1 :: tl (shape a))) ;;
  b <- view b (map Z.of_nat (1 :: k :: tl (shape b))) ;;
  c <- tadd a b ;;
  c <- view c (map Z.of_nat (k * k :: skipn 2 (shape c))) ;;
  ret <- topk c k 0 ;;
  assert (hd 0 (shape ret) =? k) ;;;
  Ok ret.
Definition sparse_sum (xs : tensor A) (dim : Z)
  : result (tensor A * (tensor nat * tensor nat)) :=
  if (dim =? -1)%Z then
    xs <- permute xs (seq 1 (ndim xs - 1) ++ [0]) ;;
    xs <- view xs (map Z.of_nat (firstn (ndim xs - 2) (shape xs))
                     ++ [(-1)%Z]) ;;
    top <- topk_idx xs k (-1) ;;
    let (xs, xs2) := top in
    xs <- permute xs ((ndim xs - 1) :: seq 0 (ndim xs - 1)) ;;
    xs2 <- permute xs2 ((ndim xs - 1) :: seq 0 (ndim xs - 1)) ;;
    assert (hd 0 (shape xs) =? k) ;;;
    r1 <- tmod xs2 k ;;
    r2 <- tfloordiv xs2 k ;;
    Ok (xs, (r1, r2))
  else Raise AssertionError.
End Defs.
End KMaxSemiring.

Module KLDivergenceSemiring.
Section Defs.
Context {A : Type} {SA : Scalar A}.

Definition zero : zero_attr A := ZeroScalar s_zero.

Definition size : nat := 3.

Definition convert (xs : potentials A) : result (tensor A) :=
  xs0 <- getitem xs 0 ;;
  let values := zeros (3 :: shape xs0) in
  values <- set_index values 0 xs0 ;;
  xs1 <- getitem xs 1 ;;
  values <- set_index values 1 xs1 ;;
  values <- set_index values 2 (scalar_t s_zero) ;;
  Ok values.

Definition unconvert (xs : tensor A) : result (tensor A) :=
  select xs (-1).

Definition sum {TA : Transcendental A} (xs : tensor A) (dim : Z)
  : result (tensor A) :=
  assert (negb (dim =? 0)%Z) ;;;
  let d := if (dim >? 0)%Z then (dim - 1)%Z else dim in
  xs0 <- select xs 0 ;;
  part_p <- logsumexp xs0 d ;;
  xs1 <- select xs 1 ;;
  part_q <- logsumexp xs1 d ;;
  up <- unsqueeze part_p d ;;
  log_sm_p <- tsub xs0 up ;;
  uq <- unsqueeze part_q d ;;
  log_sm_q <- tsub xs1 uq ;;
  let sm_p := texp log_sm_p in
  xs2 <- select xs 2 ;;
  t1 <- tmul xs2 sm_p ;;
  t2 <- tmul log_sm_q sm_p ;;
  t3 <- tsub t1 t2 ;;
  t4 <- tmul log_sm_p sm_p ;;
  t5 <- tadd t3 t4 ;;
  s <- tsum t5 d ;;
  stack [part_p; part_q; s] 0.

Definition mul (a b : tensor A) : result (tensor A) := tadd a b.

Definition zero_mask_ (xs : tensor A) (mask : tensor bool)
  : result (unit * tensor A) :=
  xs <- on_select xs 0 (fun x => masked_fill_ x mask NEGINF) ;;
  xs <- on_select xs 1 (fun x => masked_fill_ x mask NEGINF) ;;
  xs <- on_select xs 2 (fun x => masked_fill_ x mask s_zero) ;;
  Ok (tt, xs).

Definition zero_ (xs : tensor A) : result (tensor A) :=
  xs <- on_select xs 0 (fun x => Ok (fill_ x NEGINF)) ;;
  xs <- on_select xs 1 (fun x => Ok (fill_ x NEGINF)) ;;
  xs <- on_select xs 2 (fun x => Ok (fill_ x s_zero)) ;;
  Ok xs.

Definition one_ (xs : tensor A) : result (tensor A) :=
  xs <- on_select xs 0 (fun x => Ok (fill_ x s_zero)) ;;
  xs <- on_select xs 1 (fun x => Ok (fill_ x s_zero)) ;;
  xs <- on_select xs 2 (fun x => Ok (fill_ x s_zero)) ;;
  Ok xs.
Definition prod (xs : tensor A) (dim : Z) : result (tensor A) :=
  tsum xs dim.
End Defs.
End KLDivergenceSemiring.

Module CrossEntropySemiring.
Section Defs.
Context {A : Type} {SA : Scalar A}.

Definition zero : zero_attr A := ZeroTuple [NEGINF; NEGINF; s_zero].

Definition size : nat := 3.

Definition convert (xs : potentials A) : result (tensor A) :=
  xs0 <- getitem xs 0 ;;
  let values := zeros (3 :: shape xs0) in
  values <- set_index values 0 xs0 ;;
  xs1 <- getitem xs 1 ;;
  values <- set_index values 1 xs1 ;;
  values <- set_index values 2 (scalar_t s_zero) ;;
  Ok values.

Definition unconvert (xs : tensor A) : result (tensor A) :=
  select xs (-1).

Definition sum {TA : Transcendental A} (xs : tensor A) (dim : Z)
  : result (tensor A) :=
  assert (negb (dim =? 0)%Z) ;;;
  let d := if (dim >? 0)%Z then (dim - 1)%Z else dim in
  xs0 <- select xs 0 ;;
  part_p <- logsumexp xs0 d ;;
  xs1 <- select xs 1 ;;
  part_q <- logsumexp xs1 d ;;
  up <- unsqueeze part_p d ;;
  log_sm_p <- tsub xs0 up ;;
  uq <- unsqueeze part_q d ;;
  log_sm_q <- tsub xs1 uq ;;
  let sm_p := texp log_sm_p in
  xs2 <- select xs 2 ;;
  t1 <- tmul xs2 sm_p ;;
  t2 <- tmul log_sm_q sm_p ;;
  t3 <- tsub t1 t2 ;;
  s <- tsum t3 d ;;
  stack [part_p; part_q; s] 0.

Definition mul (a b : tensor A) : result (tensor A) := tadd a b.

Definition zero_mask_ (xs : tensor A) (mask : tensor bool)
  : result (unit * tensor A) :=
  xs <- on_select xs 0 (fun x => masked_fill_ x mask NEGINF) ;;
  xs <- on_select xs 1 (fun x => masked_fill_ x mask NEGINF) ;;
  xs <- on_select xs 2 (fun x => masked_fill_ x mask s_zero) ;;
  Ok (tt, xs).

Definition zero_ (xs : tensor A) : result (tensor A) :=
  xs <- on_select xs 0 (fun x => Ok (fill_ x NEGINF)) ;;
  xs <- on_select xs 1 (fun x => Ok (fill_ x NEGINF)) ;;
  xs <- on_select xs 2 (fun x => Ok (fill_ x s_zero)) ;;
  Ok xs.

Definition one_ (xs : tensor A) : result (tensor A) :=
  xs <- on_select xs 0 (fun x => Ok (fill_ x s_zero)) ;;
  xs <- on_select xs 1 (fun x => Ok (fill_ x s_zero)) ;;
  xs <- on_select xs 2 (fun x => Ok (fill_ x s_zero)) ;;
  Ok xs.
Definition prod (xs : tensor A) (dim : Z) : result (tensor A) :=
  tsum xs dim.
End Defs.
End CrossEntropySemiring.

Module EntropySemiring.
Section Defs.
Context {A : Type} {SA : Scalar A}.

Definition zero : zero_attr A := ZeroTuple [NEGINF; s_zero].

Definition size : nat := 2.

Definition convert (xs : potentials A) : result (tensor A) :=
  match xs with
  | PList _ => Raise AttributeError
  | PTensor xs =>
      let values := zeros (2 :: shape xs) in
      values <- set_index values 0 xs ;;
      values <- set_index values 1 (scalar_t s_zero) ;;
      Ok values
  end.

Definition unconvert (xs : tensor A) : result (tensor A) :=
  select xs 1.

Definition sum {TA : Transcendental A} (xs : tensor A) (dim : Z)
  : result (tensor A) :=
  assert (negb (dim =? 0)%Z) ;;;
  let d := if (dim >? 0)%Z then (dim - 1)%Z else dim in
  xs0 <- select xs 0 ;;
  part <- logsumexp xs0 d ;;
  u <- unsqueeze part d ;;
  log_sm <- tsub xs0 u ;;
  let sm := texp log_sm in
  xs1 <- select xs 1 ;;
  t1 <- tmul xs1 sm ;;
  t2 <- tmul log_sm sm ;;
  t3 <- tsub t1 t2 ;;
  s <- tsum t3 d ;;
  stack [part; s] 0.

Definition mul (a b : tensor A) : result (tensor A) := tadd a b.

Definition zero_mask_ (xs : tensor A) (mask : tensor bool)
  : result (unit * tensor A) :=
  xs <- on_select xs 0 (fun x => masked_fill_ x mask NEGINF) ;;
  xs <- on_select xs 1 (fun x => masked_fill_ x mask s_zero) ;;
  Ok (tt, xs).

Definition zero_ (xs : tensor A) : result (tensor A) :=
  xs <- on_select xs 0 (fun x => Ok (fill_ x NEGINF)) ;;
  xs <- on_select xs 1 (fun x => Ok (fill_ x s_zero)) ;;
  Ok xs.

Definition one_ (xs : tensor A) : result (tensor A) :=
  xs <- on_select xs 0 (fun x => Ok (fill_ x s_zero)) ;;
  xs <- on_select xs 1 (fun x => Ok (fill_ x s_zero)) ;;
  Ok xs.
Definition prod (xs : tensor A) (dim : Z) : result (tensor A) :=
  tsum xs dim.
End Defs.
End EntropySemiring.

Module _TempMax.
Section Defs.
Context {A : Type}.

(** The body of [sum] is [pass]. *)
Definition sum (xs : tensor A) (dim : Z) : result (pyobj A) := Ok PyNone.
Context {SA : Scalar A} {TA : Transcendental A} {DA : Division A}.
Variable alpha : A.

Definition sparse_sum (xs : tensor A) (dim : Z)
  : result (tensor A * (tensor nat * tensor A)) :=
  m <- tmax xs dim ;;
  a <- softmax_t (tmap (s_mul alpha) xs) dim ;;
  Ok (m, (zeros_long (removelast (shape a)), a)).
End Defs.
End _TempMax.

Module RiskSemiring.
Section Defs.
Context {A : Type} {SA : Scalar A}.

Definition zero : zero_attr A := ZeroTuple [NEGINF; s_zero; s_zero].

Definition size : nat := 3.

Definition convert (xs : potentials A) : result (tensor A) :=
  xs0 <- getitem xs 0 ;;
  let values := zeros (3 :: shape xs0) in
  values <- set_index values 0 xs0 ;;
  xs1 <- getitem xs 1 ;;
  values <- set_index values 1 xs1 ;;
  values <- set_index values 2 (scalar_t s_zero) ;;
  Ok values.

Definition unconvert (xs : tensor A) : result (tensor A) :=
  select xs (-1).

Definition sum {TA : Transcendental A} (xs : tensor A) (dim : Z)
  : result (tensor A) :=
  assert (negb (dim =? 0)%Z) ;;;
  let d := if (dim >? 0)%Z then (dim - 1)%Z else dim in
  xs0 <- select xs 0 ;;
  part_p <- logsumexp xs0 d ;;
  up <- unsqueeze part_p d ;;
  log_sm_p <- tsub xs0 up ;;
  let sm_p := texp log_sm_p in
  xs1 <- select xs 1 ;;
  xs2 <- select xs 2 ;;
  t1 <- tadd xs1 xs2 ;;
  t2 <- tmul t1 sm_p ;;
  s <- tsum t2 d ;;
  stack [part_p; zeros_like part_p; s] 0.

Definition mul (a b : tensor A) : result (tensor A) := tadd a b.

Definition zero_mask_ (xs : tensor A) (mask : tensor bool)
  : result (unit * tensor A) :=
  xs <- on_select xs 0 (fun x => masked_fill_ x mask NEGINF) ;;
  xs <- on_select xs 1 (fun x => masked_fill_ x mask s_zero) ;;
  xs <- on_select xs 2 (fun x => masked_fill_ x mask s_zero) ;;
  Ok (tt, xs).

Definition zero_ (xs : tensor A) : result (tensor A) :=
  xs <- on_select xs 0 (fun x => Ok (fill_ x NEGINF)) ;;
  xs <- on_select xs 1 (fun x => Ok (fill_ x s_zero)) ;;
  xs <- on_select xs 2 (fun x => Ok (fill_ x s_zero)) ;;
  Ok xs.

Definition one_ (xs : tensor A) : result (tensor A) :=
  xs <- on_select xs 0 (fun x => Ok (fill_ x s_zero)) ;;
  xs <- on_select xs 1 (fun x => Ok (fill_ x s_zero)) ;;
  xs <- on_select xs 2 (fun x => Ok (fill_ x s_zero)) ;;
  Ok xs.
Definition prod (xs : tensor A) (dim : Z) : result (tensor A) :=
  tsum xs dim.
End Defs.
End RiskSemiring.

(** ** The classes as values, and method resolution *)

Inductive semiring (A : Type) : Type :=
  | Std
  | Log
  | Max
  | KMax (k : nat)
  | KLDivergence
  | CrossEntropy
  | Entropy
  | TempMax (alpha : A)
  | Risk.

Arguments Std {A}.
Arguments Log {A}.
Arguments Max {A}.
Arguments KMax {A} k.
Arguments KLDivergence {A}.
Arguments CrossEntropy {A}.
Arguments Entropy {A}.
Arguments TempMax {A} alpha.
Arguments Risk {A}.

Module Dispatch.
Section Defs.
Context {A : Type} {SA : Scalar A}.

Definition zero (c : semiring A) : zero_attr A :=
  match c with
  | Std => _Base.zero
  | Log | Max | KMax _ | TempMax _ => _BaseLog.zero
  | KLDivergence => KLDivergenceSemiring.zero
  | CrossEntropy => CrossEntropySemiring.zero
  | Entropy => EntropySemiring.zero
  | Risk => RiskSemiring.zero
  end.

Definition size (c : semiring A) : nat :=
  match c with
  | Std | Log | Max | TempMax _ => Semiring.size
  | KMax k => KMaxSemiring.size k
  | KLDivergence => KLDivergenceSemiring.size
  | CrossEntropy => CrossEntropySemiring.size
  | Entropy => EntropySemiring.size
  | Risk => RiskSemiring.size
  end.

Definition convert (c : semiring A) (p : potentials A)
  : result (tensor A) :=
  match c with
  | Std | Log | Max | TempMax _ => Semiring.convert p
  | KMax k => KMaxSemiring.convert k p
  | KLDivergence => KLDivergenceSemiring.convert p
  | CrossEntropy => CrossEntropySemiring.convert p
  | Entropy => EntropySemiring.convert p
  | Risk => RiskSemiring.convert p
  end.

Definition unconvert (c : semiring A) (v : tensor A)
  : result (tensor A) :=
  match c with
  | Std | Log | Max | TempMax _ => Semiring.unconvert v
  | KMax k => KMaxSemiring.unconvert v
  | KLDivergence => KLDivergenceSemiring.unconvert v
  | CrossEntropy => CrossEntropySemiring.unconvert v
  | Entropy => EntropySemiring.unconvert v
  | Risk => RiskSemiring.unconvert v
  end.

Definition mul (c : semiring A) (a b : tensor A) : result (tensor A) :=
  match c with
  | Std => _Base.mul a b
  | Log | Max | TempMax _ => _BaseLog.mul a b
  | KMax k => KMaxSemiring.mul k a b
  | KLDivergence => KLDivergenceSemiring.mul a b
  | CrossEntropy => CrossEntropySemiring.mul a b
  | Entropy => EntropySemiring.mul a b
  | Risk => RiskSemiring.mul a b
  end.

Definition zero_ (c : semiring A) (xs : tensor A) : result (tensor A) :=
  match c with
  | Std => _Base.zero_ xs
  | Log | Max | KMax _ | TempMax _ => _BaseLog.zero_ xs
  | KLDivergence => KLDivergenceSemiring.zero_ xs
  | CrossEntropy => CrossEntropySemiring.zero_ xs
  | Entropy => EntropySemiring.zero_ xs
  | Risk => RiskSemiring.zero_ xs
  end.

Definition one_ (c : semiring A) (xs : tensor A) : result (tensor A) :=
  match c with
  | Std => _Base.one_ xs
  | Log | Max | TempMax _ => _BaseLog.one_ xs
  | KMax k => KMaxSemiring.one_ xs
  | KLDivergence => KLDivergenceSemiring.one_ xs
  | CrossEntropy => CrossEntropySemiring.one_ xs
  | Entropy => EntropySemiring.one_ xs
  | Risk => RiskSemiring.one_ xs
  end.

Definition zero_mask_ (c : semiring A) (xs : tensor A) (mask : tensor bool)
  : result (unit * tensor A) :=
  match c with
  | Std | Log | Max | KMax _ | TempMax _ =>
      Semiring.zero_mask_ (zero c) xs mask
  | KLDivergence => KLDivergenceSemiring.zero_mask_ xs mask
  | CrossEntropy => CrossEntropySemiring.zero_mask_ xs mask
  | Entropy => EntropySemiring.zero_mask_ xs mask
  | Risk => RiskSemiring.zero_mask_ xs mask
  end.

Context {TA : Transcendental A}.

Definition ret_tensor (r : result (tensor A)) : result (pyobj A) :=
  t <- r ;; Ok (PyTensor t).

Definition sum (c : semiring A) (xs : tensor A) (dim : Z)
  : result (pyobj A) :=
  match c with
  | Std => ret_tensor (StdSemiring.sum xs dim)
  | Log => ret_tensor (_BaseLog.sum xs dim)
  | Max => ret_tensor (MaxSemiring.sum xs dim)
  | KMax k => ret_tensor (KMaxSemiring.sum k xs dim)
  | KLDivergence => ret_tensor (KLDivergenceSemiring.sum xs dim)
  | CrossEntropy => ret_tensor (CrossEntropySemiring.sum xs dim)
  | Entropy => ret_tensor (EntropySemiring.sum xs dim)
  | TempMax _ => _TempMax.sum xs dim
  | Risk => ret_tensor (RiskSemiring.sum xs dim)
  end.

Definition plus (c : semiring A) (a b : tensor A) : result (pyobj A) :=
  Semiring.plus (sum c) a b.

Definition times (c : semiring A) (ls : list (tensor A))
  : result (tensor A) :=
  Semiring.times (mul c) ls.
Definition prod (c : semiring A) (xs : tensor A) (dim : Z)
  : result (tensor A) :=
  match c with
  | Std => _Base.prod xs dim
  | Log | Max | KMax _ | TempMax _ => _BaseLog.prod xs dim
  | KLDivergence => KLDivergenceSemiring.prod xs dim
  | CrossEntropy => CrossEntropySemiring.prod xs dim
  | Entropy => EntropySemiring.prod xs dim
  | Risk => RiskSemiring.prod xs dim
  end.

Definition matmul (c : semiring A) (a b : tensor A) : result (pyobj A) :=
  match c with
  | Std => ret_tensor (StdSemiring.matmul a b)
  | Log => LogSemiring.matmul a b
  | Max => MaxSemiring.matmul a b
  | _ => Semiring.matmul (times c) (sum c) a b
  end.

Definition dot (c : semiring A) (a b : tensor A) : result (tensor A) :=
  Semiring.dot (matmul c) a b.
End Defs.
End Dispatch.

(** ** Vocabulary of the statements *)

(** The input [convert] expects: a tensor, or for the semirings with two
    input streams the pair of them. *)
Definition convert_input {A} (c : semiring A) (p q : tensor A)
  : potentials A :=
  match c with
  | KLDivergence | CrossEntropy | Risk => PList [p; q]
  | _ => PTensor p
  end.

(** The axis of the components that [sum] reduces for [dim], on components
    of [n] dimensions. *)
Definition comp_axis (dim : Z) (n : nat) : nat :=
  Z.to_nat (if (dim >? 0)%Z then dim - 1 else dim + Z.of_nat n)%Z.

(** [dim] is not 0 and designates an axis of the components. *)
Definition valid_axis (dim : Z) (n : nat) : Prop :=
  (0 < dim <= Z.of_nat n \/ - Z.of_nat n <= dim < 0)%Z.

Section Statistics.
Context {A : Type} {SA : Scalar A} {TA : Transcendental A}.

(** The running entropy after a reduction over [n] alternatives with
    scores [p] and statistics [st], as the code computes it. *)
Definition entropy_stat (n : nat) (p st : nat -> A) : A :=
  let z := lse (map p (seq 0 n)) in
  lsum (map (fun j =>
               let log_sm := s_sub (p j) z in
               let sm := s_exp log_sm in
               s_sub (s_mul (st j) sm) (s_mul log_sm sm))
          (seq 0 n)).

(** The running KL divergence, cross entropy and risk, likewise. *)
Definition kl_stat (n : nat) (p q st : nat -> A) : A :=
  let zp := lse (map p (seq 0 n)) in
  let zq := lse (map q (seq 0 n)) in
  lsum (map (fun j =>
               let log_sm_p := s_sub (p j) zp in
               let log_sm_q := s_sub (q j) zq in
               let sm_p := s_exp log_sm_p in
               s_add (s_sub (s_mul (st j) sm_p) (s_mul log_sm_q sm_p))
                 (s_mul log_sm_p sm_p))
          (seq 0 n)).

Definition ce_stat (n : nat) (p q st : nat -> A) : A :=
  let zp := lse (map p (seq 0 n)) in
  let zq := lse (map q (seq 0 n)) in
  lsum (map (fun j =>
               let log_sm_p := s_sub (p j) zp in
               let log_sm_q := s_sub (q j) zq in
               let sm_p := s_exp log_sm_p in
               s_sub (s_mul (st j) sm_p) (s_mul log_sm_q sm_p))
          (seq 0 n)).

Definition risk_stat (n : nat) (p c st : nat -> A) : A :=
  let zp := lse (map p (seq 0 n)) in
  lsum (map (fun j =>
               let sm_p := s_exp (s_sub (p j) zp) in
               s_mul (s_add (c j) (st j)) sm_p)
          (seq 0 n)).

Definition is_expectation (c : semiring A) : bool :=
  match c with
  | KLDivergence | CrossEntropy | Entropy | Risk => true
  | _ => false
  end.

(** Component [k] of the value an expectation semiring's [sum] yields
    from [m] alternatives, [L c j] being component [c] of alternative
    [j]. *)
Definition sum_elem (c : semiring A) (m : nat) (L : nat -> nat -> A)
    (k : nat) : A :=
  match c, k with
  | Entropy, 0 => lse (map (L 0) (seq 0 m))
  | Entropy, _ => entropy_stat m (L 0) (L 1)
  | KLDivergence, 0 => lse (map (L 0) (seq 0 m))
  | KLDivergence, 1 => lse (map (L 1) (seq 0 m))
  | KLDivergence, _ => kl_stat m (L 0) (L 1) (L 2)
  | CrossEntropy, 0 => lse (map (L 0) (seq 0 m))
  | CrossEntropy, 1 => lse (map (L 1) (seq 0 m))
  | CrossEntropy, _ => ce_stat m (L 0) (L 1) (L 2)
  | Risk, 0 => lse (map (L 0) (seq 0 m))
  | Risk, 1 => s_zero
  | Risk, _ => risk_stat m (L 0) (L 1) (L 2)
  | _, _ => s_zero
  end.
End Statistics.

Section TopK.
Context {A : Type} {SA : Scalar A}.

(** [x] may stand before [y] in a descending list. *)
Definition ge (x y : A) : Prop := s_leb y x = true.

Definition sorted_desc (l : list A) : Prop := StronglySorted ge l.

(** [col] is the [k] largest elements of [l], largest first. *)
Definition is_top_k (k : nat) (l col : list A) : Prop :=
  length col = k /\
  sorted_desc col /\
  exists rest,
    Permutation (col ++ rest) l /\
    forall x y, In x col -> In y rest -> ge x y.

(** The [k * k] sums [a i + b j]. *)
Definition pairwise_sums (k : nat) (a b : nat -> A) : list A :=
  flat_map (fun i => map (fun j => s_add (a i) (b j)) (seq 0 k)) (seq 0 k).

(** The values of the leading axis of [t] at position [idx]. *)
Definition column (k : nat) (t : tensor A) (idx : list nat) : list A :=
  map (fun i => tget t (i :: idx)) (seq 0 k).
End TopK.

Section Sentinel.
Context {A : Type} {SA : Scalar A} {TA : Transcendental A}.

(** The sentinel is absorbed: the logsumexp of [NEGINF] and [v] is [v].
    Floating point has it for every [v] not close to the sentinel; exact
    arithmetic has it for no [v]. *)
Definition absorbs (v : A) : Prop := lse [NEGINF; v] = v.

(** [exp (NEGINF - v)] underflows to zero. *)
Definition underflows (v : A) : Prop := s_exp (s_sub NEGINF v) = s_zero.

(** The values [y], of shape [size c :: s], on which [zero_]-filled
    tensors are an identity of [plus]: any on the Counting semiring;
    elements not below the sentinel on Max; slots in descending order and
    not below the sentinel on K-Max, whose reduction needs non-empty batch
    axes; log-score streams that absorb the sentinel on Log and the
    expectation semirings, and a cost stream of zeros on Risk, whose [sum]
    moves the cost into the statistic.  TempMax has no [sum]. *)
Definition additive_identity_domain (c : semiring A) (s : list nat)
    (y : tensor A) : Prop :=
  match c with
  | Std | TempMax _ => True
  | Max => forall idx, in_range (shape y) idx -> ge (tget y idx) NEGINF
  | KMax k =>
      0 < numel s /\
      forall idx, in_range s idx ->
        sorted_desc (column k y idx) /\
        forall i, i < k -> ge (tget y (i :: idx)) NEGINF
  | Log => forall idx, in_range (shape y) idx -> absorbs (tget y idx)
  | Entropy =>
      forall idx, in_range s idx ->
        absorbs (tget y (0 :: idx)) /\ underflows (tget y (0 :: idx))
  | KLDivergence | CrossEntropy =>
      forall idx, in_range s idx ->
        absorbs (tget y (0 :: idx)) /\ underflows (tget y (0 :: idx)) /\
        absorbs (tget y (1 :: idx))
  | Risk =>
      forall idx, in_range s idx ->
        absorbs (tget y (0 :: idx)) /\ underflows (tget y (0 :: idx)) /\
        tget y (1 :: idx) = s_zero
  end.
End Sentinel.

Section RealVocabulary.
Open Scope R_scope.

(** The sum of [f 0 .. f (n-1)]. *)
Definition Rsum (n : nat) (f : nat -> R) : R := lsum (map f (seq 0 n)).

Definition logsumexp_spec (n : nat) (p : nat -> R) : R :=
  ln (Rsum n (fun i => exp (p i))).

Definition softmax (n : nat) (p : nat -> R) (j : nat) : R :=
  exp (p j) / Rsum n (fun i => exp (p i)).

Definition log_softmax (n : nat) (p : nat -> R) (j : nat) : R :=
  p j - ln (Rsum n (fun i => exp (p i))).
End RealVocabulary.

(** * Properties *)

(** ** The scalar instances are ordered *)

#[export] Instance Z_ScalarOrder : ScalarOrder Z.
Proof.
  split; simpl; intros.
  - destruct (Z.leb_spec a b); [now left | right; apply Z.leb_le; lia].
  - apply Z.leb_le in H, H0. apply Z.leb_le. lia.
  - apply Z.leb_le in H, H0. lia.
Qed.

Lemma Rleb_le (a b : R) : Rleb a b = true <-> (a <= b)%R.
Proof.
  unfold Rleb. destruct (Rle_dec a b); split; intros; auto; discriminate.
Qed.

#[export] Instance R_ScalarOrder : ScalarOrder R.
Proof.
  split; simpl; intros.
  - destruct (Rle_dec a b) as [Hle | Hnle].
    + left. now apply Rleb_le.
    + right. apply Rleb_le. lra.
  - apply Rleb_le in H, H0. apply Rleb_le. lra.
  - apply Rleb_le in H, H0. lra.
Qed.

#[export] Instance Z_ScalarLaws : ScalarLaws Z.
Proof.
  split; intros a.
  - apply Z.add_0_l.
  - apply Z.add_0_r.
  - apply Z.mul_1_l.
Qed.

#[export] Instance R_ScalarLaws : ScalarLaws R.
Proof.
  split; intros a.
  - apply Rplus_0_l.
  - apply Rplus_0_r.
  - apply Rmult_1_l.
Qed.

(** ** Results *)

Lemma bind_ok {T U : Type} (r : result T) (f : T -> result U) (u : U) :
  bind r f = Ok u -> exists v, r = Ok v /\ f v = Ok u.
Proof.
  destruct r as [v | e]; simpl; intros Hb; [eauto | discriminate].
Qed.

(** ** Indices *)

Lemma in_range_cons n s i idx :
  in_range (n :: s) (i :: idx) <-> i < n /\ in_range s idx.
Proof.
  unfold in_range; simpl. rewrite andb_true_iff, Nat.ltb_lt. tauto.
Qed.

Lemma in_range_nil_l idx : in_range [] idx <-> idx = [].
Proof.
  unfold in_range. destruct idx; simpl; split; intros; congruence.
Qed.

Lemma in_range_length s : forall idx, in_range s idx -> length idx = length s.
Proof.
  induction s as [| n s IH]; intros [| i idx] Hr; try discriminate; auto.
  apply in_range_cons in Hr. simpl. f_equal. now apply IH.
Qed.

Lemma in_range_inv_cons n s idx :
  in_range (n :: s) idx ->
  exists i idx', idx = i :: idx' /\ i < n /\ in_range s idx'.
Proof.
  destruct idx as [| i idx']; [discriminate |].
  intros Hr. apply in_range_cons in Hr. eauto.
Qed.

Lemma in_range_insert : forall d s idx j,
  d < length s -> in_range (remove_at d s) idx -> j < nth d s 0 ->
  in_range s (insert_at d j idx).
Proof.
  induction d as [| d IH]; intros [| n s] idx j Hd Hr Hj;
    simpl in Hd; try lia.
  - apply in_range_cons. auto.
  - destruct idx as [| i idx]; [discriminate |].
    change (remove_at (S d) (n :: s)) with (n :: remove_at d s) in Hr.
    apply in_range_cons in Hr. destruct Hr as [Hi Hr].
    change (insert_at (S d) j (i :: idx)) with (i :: insert_at d j idx).
    apply in_range_cons. split; [assumption |].
    apply IH; [lia | assumption | assumption].
Qed.

Lemma remove_insert {T} : forall d (x : T) l,
  d <= length l -> remove_at d (insert_at d x l) = l.
Proof.
  induction d as [| d IH]; intros x [| a l] Hd; simpl in Hd; try lia;
    try reflexivity.
  change (insert_at (S d) x (a :: l)) with (a :: insert_at d x l).
  change (remove_at (S d) (a :: insert_at d x l))
    with (a :: remove_at d (insert_at d x l)).
  f_equal. apply IH. lia.
Qed.

Lemma remove_at_length {T} : forall d (l : list T),
  d < length l -> length (remove_at d l) = length l - 1.
Proof.
  induction d as [| d IH]; intros [| a l] Hd; simpl in Hd; try lia.
  - unfold remove_at. simpl. lia.
  - change (remove_at (S d) (a :: l)) with (a :: remove_at d l).
    simpl. rewrite IH by lia. lia.
Qed.

Lemma insert_remove_set : forall d x (l : list nat),
  d < length l -> insert_at d x (remove_at d l) = set_nth d x l.
Proof.
  induction d as [| d IH]; intros x [| a l] Hd; simpl in Hd; try lia.
  - reflexivity.
  - change (remove_at (S d) (a :: l)) with (a :: remove_at d l).
    change (insert_at (S d) x (a :: remove_at d l))
      with (a :: insert_at d x (remove_at d l)).
    change (set_nth (S d) x (a :: l)) with (a :: set_nth d x l).
    f_equal. apply IH. lia.
Qed.

Lemma remove_set_nth : forall d x (l : list nat),
  d < length l -> remove_at d (set_nth d x l) = remove_at d l.
Proof.
  induction d as [| d IH]; intros x [| a l] Hd; simpl in Hd; try lia.
  - reflexivity.
  - change (set_nth (S d) x (a :: l)) with (a :: set_nth d x l).
    change (remove_at (S d) (a :: set_nth d x l))
      with (a :: remove_at d (set_nth d x l)).
    change (remove_at (S d) (a :: l)) with (a :: remove_at d l).
    f_equal. apply IH. lia.
Qed.

Lemma nth_insert_at {T} : forall d (x dflt : T) l,
  d <= length l -> nth d (insert_at d x l) dflt = x.
Proof.
  induction d as [| d IH]; intros x dflt [| a l] Hd; simpl in Hd; try lia;
    try reflexivity.
  change (insert_at (S d) x (a :: l)) with (a :: insert_at d x l).
  simpl. apply IH. lia.
Qed.

(** ** Broadcasting *)

Lemma pad_shape_len n s : n = length s -> pad_shape n s = s.
Proof. intros ->. unfold pad_shape. now rewrite Nat.sub_diag. Qed.

Lemma pad_shape_same s : pad_shape (length s) s = s.
Proof. now apply pad_shape_len. Qed.

Lemma bdim_refl a : bdim a a = Some a.
Proof. unfold bdim. now rewrite Nat.eqb_refl. Qed.

Lemma bzip_refl s : bzip s s = Some s.
Proof.
  induction s as [| a s IH]; simpl; [reflexivity |].
  now rewrite bdim_refl, IH.
Qed.

Lemma bshape_refl s : bshape s s = Some s.
Proof.
  unfold bshape. rewrite Nat.max_id, pad_shape_same. apply bzip_refl.
Qed.

Lemma shape_eqb_refl s : shape_eqb s s = true.
Proof. unfold shape_eqb. destruct (list_eq_dec Nat.eq_dec s s); congruence. Qed.

Lemma expandable_refl s : expandable s s = true.
Proof. unfold expandable. rewrite bshape_refl. apply shape_eqb_refl. Qed.

Lemma bmask_id : forall s idx, in_range s idx -> bmask s idx = idx.
Proof.
  induction s as [| n s IH]; intros [| i idx] Hr; try discriminate; auto.
  apply in_range_cons in Hr. destruct Hr as [Hi Hr]. simpl.
  rewrite (IH _ Hr). destruct (Nat.eqb_spec n 1); [f_equal; lia | reflexivity].
Qed.

Lemma bidx_id s idx : in_range s idx -> bidx s idx = idx.
Proof.
  intros Hr. unfold bidx. rewrite (in_range_length Hr), Nat.sub_diag.
  simpl. now apply bmask_id.
Qed.

Lemma bzip_keepdim : forall d s,
  d < length s -> bzip s (set_nth d 1 s) = Some s.
Proof.
  induction d as [| d IH]; intros [| n s] Hd; simpl in Hd; try lia.
  - change (set_nth 0 1 (n :: s)) with (1 :: s). simpl.
    rewrite bzip_refl. unfold bdim.
    destruct (Nat.eqb_spec n 1); [reflexivity |].
    now rewrite Nat.eqb_refl.
  - change (set_nth (S d) 1 (n :: s)) with (n :: set_nth d 1 s). simpl.
    rewrite bdim_refl, IH by lia. reflexivity.
Qed.

Lemma set_nth_length : forall d x (s : list nat),
  d < length s -> length (set_nth d x s) = length s.
Proof.
  induction d as [| d IH]; intros x [| n s] Hd; simpl in Hd; try lia.
  - reflexivity.
  - change (set_nth (S d) x (n :: s)) with (n :: set_nth d x s).
    simpl. rewrite IH by lia. reflexivity.
Qed.

Lemma bshape_keepdim d s :
  d < length s -> bshape s (set_nth d 1 s) = Some s.
Proof.
  intros Hd. unfold bshape. rewrite set_nth_length by assumption.
  rewrite Nat.max_id, pad_shape_same.
  rewrite (pad_shape_len (set_nth d 1 s))
    by (symmetry; now apply set_nth_length).
  now apply bzip_keepdim.
Qed.

Lemma bmask_keepdim : forall d s idx,
  d < length s -> in_range s idx ->
  bmask (set_nth d 1 s) idx = set_nth d 0 idx.
Proof.
  induction d as [| d IH]; intros [| n s] [| i idx] Hd Hr;
    simpl in Hd; try lia; try discriminate.
  - apply in_range_cons in Hr. destruct Hr as [_ Hr].
    change (set_nth 0 1 (n :: s)) with (1 :: s). simpl.
    now rewrite (bmask_id Hr).
  - apply in_range_cons in Hr. destruct Hr as [Hi Hr].
    change (set_nth (S d) 1 (n :: s)) with (n :: set_nth d 1 s).
    change (set_nth (S d) 0 (i :: idx)) with (i :: set_nth d 0 idx).
    simpl. rewrite IH by (assumption || lia).
    destruct (Nat.eqb_spec n 1); [f_equal; lia | reflexivity].
Qed.

Lemma bidx_keepdim d s idx :
  d < length s -> in_range s idx ->
  bidx (set_nth d 1 s) idx = set_nth d 0 idx.
Proof.
  intros Hd Hr. unfold bidx.
  rewrite set_nth_length, (in_range_length Hr), Nat.sub_diag by assumption.
  simpl. now apply bmask_keepdim.
Qed.

Lemma bidx_lane d s idx j :
  d < length s -> in_range (remove_at d s) idx -> j < nth d s 0 ->
  bidx s (insert_at d j idx) = insert_at d j idx.
Proof. intros Hd Hr Hj. apply bidx_id. now apply in_range_insert. Qed.

Lemma bidx_keepdim_lane d s idx j :
  d < length s -> in_range (remove_at d s) idx -> j < nth d s 0 ->
  remove_at d (bidx (set_nth d 1 s) (insert_at d j idx)) = idx.
Proof.
  intros Hd Hr Hj.
  pose proof (@in_range_insert d s idx j Hd Hr Hj) as Hin.
  rewrite (bidx_keepdim Hd Hin).
  rewrite remove_set_nth by (rewrite (in_range_length Hin); exact Hd).
  apply remove_insert.
  rewrite (in_range_length Hr), remove_at_length by assumption. lia.
Qed.

(** ** The torch primitives on in-range arguments *)

Lemma wrap_dim_nat d n : d < n -> wrap_dim (Z.of_nat d) n = Ok d.
Proof.
  intros Hd. unfold wrap_dim.
  replace (Nat.max n 1) with n by lia.
  destruct (Z.leb_spec (- Z.of_nat n) (Z.of_nat d)); [| lia].
  destruct (Z.ltb_spec (Z.of_nat d) (Z.of_nat n)); [| lia]. simpl.
  destruct (Z.ltb_spec (Z.of_nat d) 0); [lia |].
  now rewrite Nat2Z.id.
Qed.

Lemma wrap_dim_neg d n :
  d < n -> wrap_dim (Z.of_nat d - Z.of_nat n) n = Ok d.
Proof.
  intros Hd. unfold wrap_dim.
  replace (Nat.max n 1) with n by lia.
  destruct (Z.leb_spec (- Z.of_nat n) (Z.of_nat d - Z.of_nat n)); [| lia].
  destruct (Z.ltb_spec (Z.of_nat d - Z.of_nat n) (Z.of_nat n)); [| lia].
  simpl.
  destruct (Z.ltb_spec (Z.of_nat d - Z.of_nat n) 0); [| lia].
  f_equal. lia.
Qed.

Lemma wrap_dim_0 n : wrap_dim 0 n = Ok 0.
Proof.
  unfold wrap_dim.
  destruct (Z.leb_spec (- Z.of_nat (Nat.max n 1)) 0); [| lia].
  destruct (Z.ltb_spec 0 (Z.of_nat (Nat.max n 1))); [| lia].
  reflexivity.
Qed.

Lemma wrap_dim_out dim n :
  (dim < - Z.of_nat (Nat.max n 1) \/ Z.of_nat (Nat.max n 1) <= dim)%Z ->
  wrap_dim dim n = Raise IndexError.
Proof.
  intros Hd. unfold wrap_dim.
  destruct (Z.leb_spec (- Z.of_nat (Nat.max n 1)) dim);
    destruct (Z.ltb_spec dim (Z.of_nat (Nat.max n 1)));
    simpl; try reflexivity; lia.
Qed.

Section Primitives.
Context {A : Type}.

Lemma select_nat (t : tensor A) n s i :
  shape t = n :: s -> i < n ->
  select t (Z.of_nat i) = Ok (mkT s (fun idx => tget t (i :: idx))).
Proof.
  intros Hs Hi. unfold select. rewrite Hs.
  destruct (Z.leb_spec (- Z.of_nat n) (Z.of_nat i)); [| lia].
  destruct (Z.ltb_spec (Z.of_nat i) (Z.of_nat n)); [| lia]. simpl.
  destruct (Z.ltb_spec (Z.of_nat i) 0); [lia |].
  now rewrite Nat2Z.id.
Qed.

Lemma select_at (t : tensor A) n s z i :
  shape t = n :: s -> i < n -> z = Z.of_nat i ->
  select t z = Ok (mkT s (fun idx => tget t (i :: idx))).
Proof. intros Hs Hi ->. now apply (select_nat t Hs). Qed.

Lemma select_last (t : tensor A) n s :
  shape t = S n :: s ->
  select t (-1) = Ok (mkT s (fun idx => tget t (n :: idx))).
Proof.
  intros Hs. unfold select. rewrite Hs.
  destruct (Z.leb_spec (- Z.of_nat (S n)) (-1)); [| lia].
  destruct (Z.ltb_spec (-1) (Z.of_nat (S n))); [| lia].
  cbn [andb]. destruct (Z.ltb_spec (-1) 0); [| lia].
  replace (Z.to_nat (-1 + Z.of_nat (S n))) with n by lia.
  reflexivity.
Qed.

Lemma set_index_nat (t v : tensor A) n s i :
  shape t = n :: s -> i < n -> expandable (shape v) s = true ->
  set_index t (Z.of_nat i) v =
  Ok (mkT (n :: s)
        (fun idx =>
           match idx with
           | c :: idx' =>
               if c =? i then tget v (bidx (shape v) idx') else tget t idx
           | [] => tget t idx
           end)).
Proof.
  intros Hs Hi He. unfold set_index. rewrite Hs.
  destruct (Z.leb_spec (- Z.of_nat n) (Z.of_nat i)); [| lia].
  destruct (Z.ltb_spec (Z.of_nat i) (Z.of_nat n)); [| lia]. cbn [andb].
  destruct (Z.ltb_spec (Z.of_nat i) 0); [lia |].
  now rewrite Nat2Z.id, He.
Qed.

Lemma reduce_dim_at (f : list A -> A) (t : tensor A) dim d :
  shape t <> [] -> wrap_dim dim (ndim t) = Ok d ->
  reduce_dim f t dim =
  Ok (mkT (remove_at d (shape t)) (fun idx => f (lane t d idx))).
Proof.
  intros Hne Hw. unfold reduce_dim. rewrite Hw. cbn [bind].
  destruct (shape t); congruence.
Qed.

Lemma unsqueeze_at (t : tensor A) dim d :
  wrap_dim dim (ndim t + 1) = Ok d ->
  unsqueeze t dim =
  Ok (mkT (insert_at d 1 (shape t)) (fun idx => tget t (remove_at d idx))).
Proof. intros Hw. unfold unsqueeze. now rewrite Hw. Qed.

Lemma binop_at (f : A -> A -> A) (a b : tensor A) s :
  bshape (shape a) (shape b) = Some s ->
  binop f a b =
  Ok (mkT s (fun idx => f (tget a (bidx (shape a) idx))
                          (tget b (bidx (shape b) idx)))).
Proof. intros Hb. unfold binop. now rewrite Hb. Qed.

Lemma stack3_0 (a b c : tensor A) :
  shape b = shape a -> shape c = shape a ->
  stack [a; b; c] 0 =
  Ok (mkT (3 :: shape a)
        (fun idx => tget (nth (nth 0 idx 0) [a; b; c] a) (remove_at 0 idx))).
Proof.
  intros Hb Hc. unfold stack. cbn [forallb].
  rewrite Hb, Hc, shape_eqb_refl. cbn [andb].
  rewrite wrap_dim_0. reflexivity.
Qed.

Lemma stack2_0 (a b : tensor A) :
  shape b = shape a ->
  stack [a; b] 0 =
  Ok (mkT (2 :: shape a)
        (fun idx => tget (nth (nth 0 idx 0) [a; b] a) (remove_at 0 idx))).
Proof.
  intros Hb. unfold stack. cbn [forallb].
  rewrite Hb, shape_eqb_refl. cbn [andb].
  rewrite wrap_dim_0. reflexivity.
Qed.
End Primitives.

(** ** The reduction of the expectation semirings, element by element *)

Lemma comp_axis_lt dim n : valid_axis dim n -> comp_axis dim n < n.
Proof.
  unfold valid_axis, comp_axis. intros Hv.
  destruct (Z.gtb_spec dim 0); lia.
Qed.

Lemma comp_axis_wrap dim n :
  valid_axis dim n ->
  wrap_dim (if (dim >? 0)%Z then dim - 1 else dim)%Z n
  = Ok (comp_axis dim n).
Proof.
  intros Hv. pose proof (comp_axis_lt Hv) as Hlt. revert Hlt.
  unfold valid_axis, comp_axis in *.
  destruct (Z.gtb_spec dim 0); intros Hlt.
  - rewrite <- (wrap_dim_nat Hlt). f_equal. lia.
  - rewrite <- (wrap_dim_neg Hlt). f_equal. lia.
Qed.

Lemma valid_axis_assert dim n :
  valid_axis dim n -> assert (negb (dim =? 0)%Z) = Ok tt.
Proof.
  unfold valid_axis. intros Hv.
  destruct (Z.eqb_spec dim 0); [lia | reflexivity].
Qed.

Section ExpectationSums.
Context {A : Type} {SA : Scalar A} {TA : Transcendental A}.

Ltac step_select xs Hs z i :=
  rewrite (@select_at _ xs _ _ z i Hs) by (lia || reflexivity);
  cbn [bind].

Ltac step_reduce f s dz d Hd Hw :=
  rewrite (@reduce_dim_at _ f _ dz d);
  [| cbn [shape]; destruct s; [simpl in Hd; lia | discriminate]
   | exact Hw ];
  cbn [bind shape].

Ltac step_unsqueeze s dz d Hd Hw :=
  rewrite (@unsqueeze_at _ _ dz d);
  [| unfold ndim; cbn [shape]; rewrite remove_at_length by assumption;
     replace (length s - 1 + 1) with (length s) by lia; exact Hw ];
  cbn [bind shape]; rewrite insert_remove_set by assumption.

Ltac step_keepdim f s :=
  rewrite (@binop_at _ f _ _ s);
  [| cbn [shape]; now apply bshape_keepdim ];
  cbn [bind shape tget].

Ltac step_binop f s :=
  rewrite (@binop_at _ f _ _ s); [| cbn [shape]; apply bshape_refl ];
  cbn [bind shape tget].

Ltac lane_ext d s idx Hd Hr :=
  f_equal; apply map_ext_in;
  let j := fresh "j" in
  let Hj := fresh "Hj" in
  intros j Hj; apply in_seq in Hj;
  rewrite ?(@bidx_lane d s idx j Hd Hr),
    ?(@bidx_keepdim_lane d s idx j Hd Hr) by lia.

Lemma Entropy_sum_at (xs : tensor A) n s dim :
  shape xs = n :: s -> 2 <= n -> valid_axis dim (length s) ->
  let d := comp_axis dim (length s) in
  exists r,
    EntropySemiring.sum xs dim = Ok r /\
    shape r = 2 :: remove_at d s /\
    forall idx, in_range (remove_at d s) idx ->
      tget r (0 :: idx)
      = lse (map (fun j => tget xs (0 :: insert_at d j idx))
               (seq 0 (nth d s 0))) /\
      tget r (1 :: idx)
      = entropy_stat (nth d s 0)
          (fun j => tget xs (0 :: insert_at d j idx))
          (fun j => tget xs (1 :: insert_at d j idx)).
Proof.
  intros Hs Hn Hv d.
  pose proof (comp_axis_lt Hv) as Hd. fold d in Hd.
  pose proof (comp_axis_wrap Hv) as Hw. fold d in Hw.
  unfold EntropySemiring.sum.
  rewrite (valid_axis_assert Hv). cbn [bind].
  set (dz := (if (dim >? 0)%Z then (dim - 1)%Z else dim)) in *.
  step_select xs Hs 0%Z 0.
  unfold logsumexp, tsub, tmul, tsum, texp, tmap.
  step_reduce lse s dz d Hd Hw.
  step_unsqueeze s dz d Hd Hw.
  step_keepdim s_sub s.
  step_select xs Hs 1%Z 1.
  step_binop s_mul s. step_binop s_mul s. step_binop s_sub s.
  step_reduce lsum s dz d Hd Hw.
  rewrite stack2_0 by reflexivity.
  eexists. split; [reflexivity |]. split; [reflexivity |].
  intros idx Hr. cbn [tget nth remove_at firstn skipn app].
  unfold lane; cbn [shape tget].
  split; [reflexivity |].
  unfold entropy_stat. lane_ext d s idx Hd Hr. reflexivity.
Qed.

Lemma KLDivergence_sum_at (xs : tensor A) n s dim :
  shape xs = n :: s -> 3 <= n -> valid_axis dim (length s) ->
  let d := comp_axis dim (length s) in
  exists r,
    KLDivergenceSemiring.sum xs dim = Ok r /\
    shape r = 3 :: remove_at d s /\
    forall idx, in_range (remove_at d s) idx ->
      tget r (0 :: idx)
      = lse (map (fun j => tget xs (0 :: insert_at d j idx))
               (seq 0 (nth d s 0))) /\
      tget r (1 :: idx)
      = lse (map (fun j => tget xs (1 :: insert_at d j idx))
               (seq 0 (nth d s 0))) /\
      tget r (2 :: idx)
      = kl_stat (nth d s 0)
          (fun j => tget xs (0 :: insert_at d j idx))
          (fun j => tget xs (1 :: insert_at d j idx))
          (fun j => tget xs (2 :: insert_at d j idx)).
Proof.
  intros Hs Hn Hv d.
  pose proof (comp_axis_lt Hv) as Hd. fold d in Hd.
  pose proof (comp_axis_wrap Hv) as Hw. fold d in Hw.
  unfold KLDivergenceSemiring.sum.
  rewrite (valid_axis_assert Hv). cbn [bind].
  set (dz := (if (dim >? 0)%Z then (dim - 1)%Z else dim)) in *.
  unfold logsumexp, tsub, tmul, tadd, tsum, texp, tmap.
  step_select xs Hs 0%Z 0.
  step_reduce lse s dz d Hd Hw.
  step_select xs Hs 1%Z 1.
  step_reduce lse s dz d Hd Hw.
  step_unsqueeze s dz d Hd Hw.
  step_keepdim s_sub s.
  step_unsqueeze s dz d Hd Hw.
  step_keepdim s_sub s.
  step_select xs Hs 2%Z 2.
  step_binop s_mul s. step_binop s_mul s. step_binop s_sub s.
  step_binop s_mul s. step_binop s_add s.
  step_reduce lsum s dz d Hd Hw.
  rewrite stack3_0 by reflexivity.
  eexists. split; [reflexivity |]. split; [reflexivity |].
  intros idx Hr. cbn [tget nth remove_at firstn skipn app].
  unfold lane; cbn [shape tget].
  split; [reflexivity |]. split; [reflexivity |].
  unfold kl_stat. lane_ext d s idx Hd Hr. reflexivity.
Qed.

Lemma CrossEntropy_sum_at (xs : tensor A) n s dim :
  shape xs = n :: s -> 3 <= n -> valid_axis dim (length s) ->
  let d := comp_axis dim (length s) in
  exists r,
    CrossEntropySemiring.sum xs dim = Ok r /\
    shape r = 3 :: remove_at d s /\
    forall idx, in_range (remove_at d s) idx ->
      tget r (0 :: idx)
      = lse (map (fun j => tget xs (0 :: insert_at d j idx))
               (seq 0 (nth d s 0))) /\
      tget r (1 :: idx)
      = lse (map (fun j => tget xs (1 :: insert_at d j idx))
               (seq 0 (nth d s 0))) /\
      tget r (2 :: idx)
      = ce_stat (nth d s 0)
          (fun j => tget xs (0 :: insert_at d j idx))
          (fun j => tget xs (1 :: insert_at d j idx))
          (fun j => tget xs (2 :: insert_at d j idx)).
Proof.
  intros Hs Hn Hv d.
  pose proof (comp_axis_lt Hv) as Hd. fold d in Hd.
  pose proof (comp_axis_wrap Hv) as Hw. fold d in Hw.
  unfold CrossEntropySemiring.sum.
  rewrite (valid_axis_assert Hv). cbn [bind].
  set (dz := (if (dim >? 0)%Z then (dim - 1)%Z else dim)) in *.
  unfold logsumexp, tsub, tmul, tadd, tsum, texp, tmap.
  step_select xs Hs 0%Z 0.
  step_reduce lse s dz d Hd Hw.
  step_select xs Hs 1%Z 1.
  step_reduce lse s dz d Hd Hw.
  step_unsqueeze s dz d Hd Hw.
  step_keepdim s_sub s.
  step_unsqueeze s dz d Hd Hw.
  step_keepdim s_sub s.
  step_select xs Hs 2%Z 2.
  step_binop s_mul s. step_binop s_mul s. step_binop s_sub s.
  step_reduce lsum s dz d Hd Hw.
  rewrite stack3_0 by reflexivity.
  eexists. split; [reflexivity |]. split; [reflexivity |].
  intros idx Hr. cbn [tget nth remove_at firstn skipn app].
  unfold lane; cbn [shape tget].
  split; [reflexivity |]. split; [reflexivity |].
  unfold ce_stat. lane_ext d s idx Hd Hr. reflexivity.
Qed.

Lemma Risk_sum_at (xs : tensor A) n s dim :
  shape xs = n :: s -> 3 <= n -> valid_axis dim (length s) ->
  let d := comp_axis dim (length s) in
  exists r,
    RiskSemiring.sum xs dim = Ok r /\
    shape r = 3 :: remove_at d s /\
    forall idx, in_range (remove_at d s) idx ->
      tget r (0 :: idx)
      = lse (map (fun j => tget xs (0 :: insert_at d j idx))
               (seq 0 (nth d s 0))) /\
      tget r (1 :: idx) = s_zero /\
      tget r (2 :: idx)
      = risk_stat (nth d s 0)
          (fun j => tget xs (0 :: insert_at d j idx))
          (fun j => tget xs (1 :: insert_at d j idx))
          (fun j => tget xs (2 :: insert_at d j idx)).
Proof.
  intros Hs Hn Hv d.
  pose proof (comp_axis_lt Hv) as Hd. fold d in Hd.
  pose proof (comp_axis_wrap Hv) as Hw. fold d in Hw.
  unfold RiskSemiring.sum.
  rewrite (valid_axis_assert Hv). cbn [bind].
  set (dz := (if (dim >? 0)%Z then (dim - 1)%Z else dim)) in *.
  unfold logsumexp, tsub, tmul, tadd, tsum, texp, tmap, zeros_like, zeros.
  step_select xs Hs 0%Z 0.
  step_reduce lse s dz d Hd Hw.
  step_unsqueeze s dz d Hd Hw.
  step_keepdim s_sub s.
  step_select xs Hs 1%Z 1.
  step_select xs Hs 2%Z 2.
  step_binop s_add s. step_binop s_mul s.
  step_reduce lsum s dz d Hd Hw.
  rewrite stack3_0 by reflexivity.
  eexists. split; [reflexivity |]. split; [reflexivity |].
  intros idx Hr. cbn [tget nth remove_at firstn skipn app].
  unfold lane; cbn [shape tget].
  split; [reflexivity |]. split; [reflexivity |].
  unfold risk_stat. lane_ext d s idx Hd Hr. reflexivity.
Qed.
End ExpectationSums.

(** ** Softmax and log-softmax over the reals *)

Section RealSpec.
Open Scope R_scope.

Lemma lsum_exp_pos (l : list R) :
  l <> [] -> 0 < lsum (map exp l).
Proof.
  induction l as [| x l IH]; intros Hne; [congruence |].
  simpl. destruct l as [| y l].
  - simpl. pose proof (exp_pos x). lra.
  - pose proof (exp_pos x). assert (0 < lsum (map exp (y :: l))).
    { apply IH. discriminate. }
    simpl in *. lra.
Qed.

Lemma Rsum_exp_pos n (p : nat -> R) :
  (0 < n)%nat -> 0 < Rsum n (fun i => exp (p i)).
Proof.
  intros Hn. unfold Rsum.
  rewrite <- (map_map p exp). apply lsum_exp_pos.
  destruct n; [lia |]. simpl. discriminate.
Qed.

Lemma lse_spec n (p : nat -> R) :
  lse (map p (seq 0 n)) = logsumexp_spec n p.
Proof.
  unfold lse, logsumexp_spec, Rsum. simpl. now rewrite map_map.
Qed.

(** What the code exponentiates is the softmax. *)
Lemma exp_log_softmax n (p : nat -> R) j :
  (j < n)%nat -> exp (p j - logsumexp_spec n p) = softmax n p j.
Proof.
  intros Hj. unfold logsumexp_spec, softmax.
  assert (Hpos : 0 < Rsum n (fun i => exp (p i)))
    by (apply Rsum_exp_pos; lia).
  unfold Rminus. rewrite exp_plus, exp_Ropp, exp_ln by assumption.
  reflexivity.
Qed.

Lemma kl_stat_spec n (p q st : nat -> R) :
  kl_stat n p q st
  = Rsum n (fun j => softmax n p j
                     * (st j + log_softmax n p j - log_softmax n q j)).
Proof.
  unfold kl_stat, Rsum. rewrite !lse_spec. cbv zeta.
  f_equal. apply map_ext_in. intros j Hj. apply in_seq in Hj.
  simpl. rewrite exp_log_softmax by lia.
  unfold log_softmax, logsumexp_spec. ring.
Qed.

Lemma risk_stat_spec n (p c st : nat -> R) :
  risk_stat n p c st
  = Rsum n (fun j => softmax n p j * (c j + st j)).
Proof.
  unfold risk_stat, Rsum. rewrite !lse_spec. cbv zeta.
  f_equal. apply map_ext_in. intros j Hj. apply in_seq in Hj.
  simpl. rewrite exp_log_softmax by lia. ring.
Qed.
End RealSpec.

(** ** The four expectation semirings at once *)

Section ExpectationDispatch.
Context {A : Type} {SA : Scalar A} {TA : Transcendental A}.

Lemma Expectation_sum_at (c : semiring A) (xs : tensor A) s dim :
  is_expectation c = true ->
  shape xs = Dispatch.size c :: s ->
  valid_axis dim (length s) ->
  let d := comp_axis dim (length s) in
  exists r,
    Dispatch.sum c xs dim = Ok (PyTensor r) /\
    shape r = Dispatch.size c :: remove_at d s /\
    forall k idx, k < Dispatch.size c -> in_range (remove_at d s) idx ->
      tget r (k :: idx)
      = sum_elem c (nth d s 0)
          (fun comp j => tget xs (comp :: insert_at d j idx)) k.
Proof.
  intros Hc Hs Hv d.
  destruct c; try discriminate Hc; cbn [Dispatch.size] in *;
    unfold KLDivergenceSemiring.size, CrossEntropySemiring.size,
      EntropySemiring.size, RiskSemiring.size in *;
    cbn [Dispatch.sum].
  - destruct (@KLDivergence_sum_at _ _ _ xs _ s dim Hs (le_n 3) Hv)
      as (r & Hsum & Hsh & Hel).
    exists r. rewrite Hsum. split; [reflexivity |]. split; [exact Hsh |].
    intros k idx Hk Hr. destruct (Hel idx Hr) as (H0 & H1 & H2).
    destruct k as [| [| [| k]]]; try lia; assumption.
  - destruct (@CrossEntropy_sum_at _ _ _ xs _ s dim Hs (le_n 3) Hv)
      as (r & Hsum & Hsh & Hel).
    exists r. rewrite Hsum. split; [reflexivity |]. split; [exact Hsh |].
    intros k idx Hk Hr. destruct (Hel idx Hr) as (H0 & H1 & H2).
    destruct k as [| [| [| k]]]; try lia; assumption.
  - destruct (@Entropy_sum_at _ _ _ xs _ s dim Hs (le_n 2) Hv)
      as (r & Hsum & Hsh & Hel).
    exists r. rewrite Hsum. split; [reflexivity |]. split; [exact Hsh |].
    intros k idx Hk Hr. destruct (Hel idx Hr) as (H0 & H1).
    destruct k as [| [| k]]; try lia; assumption.
  - destruct (@Risk_sum_at _ _ _ xs _ s dim Hs (le_n 3) Hv)
      as (r & Hsum & Hsh & Hel).
    exists r. rewrite Hsum. split; [reflexivity |]. split; [exact Hsh |].
    intros k idx Hk Hr. destruct (Hel idx Hr) as (H0 & H1 & H2).
    destruct k as [| [| [| k]]]; try lia; assumption.
Qed.

Lemma comp_axis_spellings dim n :
  (0 < dim <= Z.of_nat n)%Z ->
  comp_axis dim n = Z.to_nat (dim - 1) /\
  comp_axis (dim - Z.of_nat (S n)) n = Z.to_nat (dim - 1) /\
  valid_axis dim n /\ valid_axis (dim - Z.of_nat (S n)) n.
Proof.
  intros Hd. unfold comp_axis, valid_axis.
  destruct (Z.gtb_spec dim 0); [| lia].
  destruct (Z.gtb_spec (dim - Z.of_nat (S n)) 0); [lia |].
  repeat split; try lia.
Qed.

End ExpectationDispatch.

(** ** KL-Divergence: the reduction rule *)

(** C1.  On a KL-Divergence value [xs] (components p, q and the running
    statistic) and a reduction axis [dim] that is not the leading one, in
    either spelling, [sum] returns three components: the log-partition
    [ln (sum_j exp p_j)] of the p-stream and of the q-stream over the reduced
    axis, computed from [xs] itself, and
    [sum_j softmax(p)_j * (stat_j + log_softmax(p)_j - log_softmax(q)_j)]. *)
Theorem KLDivergence_sum_softmax (xs : tensor R) (n : nat) (s : list nat)
    (dim : Z) :
  shape xs = n :: s -> 3 <= n -> valid_axis dim (length s) ->
  let d := comp_axis dim (length s) in
  exists r,
    KLDivergenceSemiring.sum xs dim = Ok r /\
    shape r = 3 :: remove_at d s /\
    forall idx, in_range (remove_at d s) idx ->
      let m := nth d s 0 in
      let p := fun j => tget xs (0 :: insert_at d j idx) in
      let q := fun j => tget xs (1 :: insert_at d j idx) in
      let st := fun j => tget xs (2 :: insert_at d j idx) in
      tget r (0 :: idx) = logsumexp_spec m p /\
      tget r (1 :: idx) = logsumexp_spec m q /\
      tget r (2 :: idx)
      = Rsum m (fun j => softmax m p j
                         * (st j + log_softmax m p j - log_softmax m q j))%R.
Proof.
  intros Hs Hn Hv d.
  destruct (@KLDivergence_sum_at _ _ _ xs n s dim Hs Hn Hv)
    as (r & Hsum & Hsh & Hel).
  exists r. split; [exact Hsum |]. split; [exact Hsh |].
  intros idx Hr m p q st. destruct (Hel idx Hr) as (H0 & H1 & H2).
  fold d in H0, H1, H2. fold m p q st in H0, H1, H2.
  rewrite H0, H1, H2, !lse_spec, kl_stat_spec. auto.
Qed.

Lemma KLDivergence_sum_softmax_witness :
  exists r,
    KLDivergenceSemiring.sum (mkT [3; 2] (fun _ => 0%R)) (-1) = Ok r /\
    shape r = [3].
Proof.
  destruct (@KLDivergence_sum_softmax (mkT [3; 2] (fun _ => 0%R)) 3 [2] (-1)
              eq_refl (le_n 3))
    as (r & Hsum & Hsh & _).
  - unfold valid_axis. simpl. lia.
  - exists r. split; assumption.
Defined.

(** ** Risk: the cost stream after a reduction *)

(** Whatever the axis, a value returned by Risk's [sum] has a zero cost
    component. *)
Lemma Risk_sum_cost_zero {A} {SA : Scalar A} {TA : Transcendental A}
    (xs r : tensor A) (dim : Z) :
  RiskSemiring.sum xs dim = Ok r ->
  forall idx, tget r (1 :: idx) = s_zero.
Proof.
  unfold RiskSemiring.sum. intros H idx.
  repeat (apply bind_ok in H; destruct H as (? & _ & H)).
  unfold stack in H.
  destruct (forallb _ _); [| discriminate].
  rewrite wrap_dim_0 in H. cbn [bind] in H. inversion H; subst.
  reflexivity.
Qed.

(** C9.  Every value returned by Risk's [sum] has a second component
    (the cost stream) that is zero everywhere; on a Risk value and any
    reduction axis of the components, in either spelling, [sum] does return
    a value, and its third component is
    [sum_j softmax(p)_j * (cost_j + stat_j)] over the reduced axis. *)
Theorem Risk_sum_cost_stream (xs : tensor R) (n : nat) (s : list nat)
    (dim : Z) :
  (forall r, RiskSemiring.sum xs dim = Ok r ->
             forall idx, tget r (1 :: idx) = 0%R) /\
  (shape xs = n :: s -> 3 <= n -> valid_axis dim (length s) ->
   let d := comp_axis dim (length s) in
   exists r,
     RiskSemiring.sum xs dim = Ok r /\
     shape r = 3 :: remove_at d s /\
     forall idx, in_range (remove_at d s) idx ->
       let m := nth d s 0 in
       let p := fun j => tget xs (0 :: insert_at d j idx) in
       let cost := fun j => tget xs (1 :: insert_at d j idx) in
       let st := fun j => tget xs (2 :: insert_at d j idx) in
       tget r (2 :: idx)
       = Rsum m (fun j => softmax m p j * (cost j + st j))%R).
Proof.
  split.
  - intros r Hsum idx. apply (Risk_sum_cost_zero _ _ Hsum).
  - intros Hs Hn Hv d.
    destruct (@Risk_sum_at _ _ _ xs n s dim Hs Hn Hv)
      as (r & Hsum & Hsh & Hel).
    exists r. split; [exact Hsum |]. split; [exact Hsh |].
    intros idx Hr m p cost st. destruct (Hel idx Hr) as (_ & _ & H2).
    fold d in H2. fold m p cost st in H2.
    rewrite H2. apply risk_stat_spec.
Qed.

Lemma Risk_sum_cost_stream_witness :
  exists r,
    RiskSemiring.sum (mkT [3; 2] (fun _ => 1%R)) 1 = Ok r /\
    shape r = [3] /\
    tget r [1] = 0%R.
Proof.
  destruct (@Risk_sum_cost_stream (mkT [3; 2] (fun _ => 1%R)) 3 [2] 1)
    as (Hzero & Hsum).
  destruct (Hsum eq_refl (le_n 3)) as (r & Hr & Hsh & _).
  - unfold valid_axis. simpl. lia.
  - exists r. split; [exact Hr |]. split; [exact Hsh |].
    exact (Hzero r Hr []).
Defined.

(** ** Positive and negative reduction axes *)

(** C10.  For an expectation semiring and a positive [dim] that is an axis
    of the composite value [xs], [sum] reduces axis [dim - 1] of every
    component; the negative spelling [dim - ndim xs] is handed to the
    components unchanged, where it designates the same axis; the two calls
    return equal tensors. *)
Theorem Expectation_sum_axis {A} {SA : Scalar A} {TA : Transcendental A}
    (c : semiring A) (xs : tensor A) (s : list nat) (dim : Z) :
  is_expectation c = true ->
  shape xs = Dispatch.size c :: s ->
  (0 < dim <= Z.of_nat (length s))%Z ->
  let d := Z.to_nat (dim - 1) in
  let neg := (dim - Z.of_nat (ndim xs))%Z in
  let reduces_axis_d (r : tensor A) :=
    shape r = Dispatch.size c :: remove_at d s /\
    forall k idx, k < Dispatch.size c -> in_range (remove_at d s) idx ->
      tget r (k :: idx)
      = sum_elem c (nth d s 0)
          (fun comp j => tget xs (comp :: insert_at d j idx)) k in
  wrap_dim (dim - 1) (length s) = Ok d /\
  wrap_dim neg (length s) = Ok d /\
  exists r r',
    Dispatch.sum c xs dim = Ok (PyTensor r) /\
    Dispatch.sum c xs neg = Ok (PyTensor r') /\
    reduces_axis_d r /\ reduces_axis_d r' /\ teq r r'.
Proof.
  intros Hc Hs Hdim d neg reduces_axis_d.
  assert (Hneg : neg = (dim - Z.of_nat (S (length s)))%Z).
  { unfold neg, ndim. now rewrite Hs. }
  destruct (comp_axis_spellings (length s) Hdim) as (Hp & Hn & Hvp & Hvn).
  rewrite <- Hneg in Hn, Hvn. fold d in Hp, Hn.
  split.
  { pose proof (comp_axis_wrap Hvp) as Hw. rewrite Hp in Hw.
    destruct (Z.gtb_spec dim 0); [exact Hw | lia]. }
  split.
  { pose proof (comp_axis_wrap Hvn) as Hw. rewrite Hn in Hw.
    destruct (Z.gtb_spec neg 0); [lia | exact Hw]. }
  destruct (Expectation_sum_at c xs Hc Hs Hvp) as (r & Hsum & Hsh & Hel).
  destruct (Expectation_sum_at c xs Hc Hs Hvn) as (r' & Hsum' & Hsh' & Hel').
  rewrite Hp in Hsh, Hel. rewrite Hn in Hsh', Hel'.
  exists r, r'. repeat split; try assumption.
  - congruence.
  - intros idx Hr. rewrite Hsh in Hr.
    apply in_range_inv_cons in Hr. destruct Hr as (k & idx' & -> & Hk & Hr).
    rewrite Hel, Hel' by assumption. reflexivity.
Qed.

Lemma Expectation_sum_axis_witness :
  exists r r',
    Dispatch.sum KLDivergence (mkT [3; 2; 4] (fun _ => 0%R)) 2
    = Ok (PyTensor r) /\
    Dispatch.sum KLDivergence (mkT [3; 2; 4] (fun _ => 0%R)) (-1)
    = Ok (PyTensor r') /\
    teq r r'.
Proof.
  destruct (@Expectation_sum_axis R _ _ KLDivergence
              (mkT [3; 2; 4] (fun _ => 0%R)) [2; 4] 2 eq_refl eq_refl)
    as (_ & _ & r & r' & H1 & H2 & _ & _ & Heq).
  - simpl. lia.
  - exists r, r'. repeat split; try assumption; apply Heq.
Defined.

(** ** Unsupported reduction axes *)

Lemma wrap_dim_last n : wrap_dim (-1) n = Ok (n - 1).
Proof.
  unfold wrap_dim.
  destruct (Z.leb_spec (- Z.of_nat (Nat.max n 1)) (-1)); [| lia].
  destruct (Z.ltb_spec (-1) (Z.of_nat (Nat.max n 1))); [| lia].
  cbn [andb]. destruct (Z.ltb_spec (-1) 0); [| lia].
  f_equal. lia.
Qed.

Lemma select_0_cases {A} (t : tensor A) :
  select t 0 = Raise IndexError \/
  exists n s, shape t = S n :: s /\
              select t 0 = Ok (mkT s (fun idx => tget t (0 :: idx))).
Proof.
  unfold select. destruct (shape t) as [| [| n] s] eqn:Hs.
  - now left.
  - now left.
  - right. exists n, s. split; [reflexivity |].
    destruct (Z.leb_spec (- Z.of_nat (S n)) 0); [| lia].
    destruct (Z.ltb_spec 0 (Z.of_nat (S n))); [| lia]. reflexivity.
Qed.

Section LeadingAxis.
Context {A : Type} {SA : Scalar A} {TA : Transcendental A}.

Lemma logsumexp_leading_out (t : tensor A) (m : nat) :
  ndim t = m -> 1 <= m ->
  logsumexp t (- Z.of_nat (S m)) = Raise IndexError.
Proof.
  intros Hm Hpos. unfold logsumexp, reduce_dim.
  rewrite wrap_dim_out; [reflexivity |]. rewrite Hm. lia.
Qed.

Lemma Expectation_sum_leading_neg (c : semiring A) (xs : tensor A) :
  is_expectation c = true -> 2 <= ndim xs ->
  Dispatch.sum c xs (- Z.of_nat (ndim xs)) = Raise IndexError.
Proof.
  intros Hc Hn.
  assert (Ha : assert (negb (- Z.of_nat (ndim xs) =? 0)%Z) = Ok tt).
  { destruct (Z.eqb_spec (- Z.of_nat (ndim xs)) 0); [lia | reflexivity]. }
  assert (Hg : (- Z.of_nat (ndim xs) >? 0)%Z = false).
  { destruct (Z.gtb_spec (- Z.of_nat (ndim xs)) 0); [lia | reflexivity]. }
  assert (Hlse : forall n s,
             shape xs = n :: s ->
             logsumexp (mkT s (fun idx => tget xs (0 :: idx)))
               (- Z.of_nat (ndim xs)) = Raise IndexError).
  { intros n s Hs. unfold ndim in *. rewrite Hs in *. simpl in Hn.
    apply (@logsumexp_leading_out _ (length s)); [reflexivity | lia]. }
  destruct c; try discriminate Hc; cbn [Dispatch.sum];
    unfold KLDivergenceSemiring.sum, CrossEntropySemiring.sum,
      EntropySemiring.sum, RiskSemiring.sum;
    rewrite Ha, Hg; cbn [bind];
    (destruct (select_0_cases xs) as [-> | (n & s & Hs & ->)];
     [reflexivity | cbn [bind]; rewrite (Hlse _ _ Hs); reflexivity]).
Qed.

End LeadingAxis.

(** C5.  K-Max's [sum] raises for every [dim] other than [-1], hence for
    every axis other than the last one; the [sum] of each expectation
    semiring raises for [dim = 0], and, on a value with at least one
    structure axis, for the negative spelling [-ndim xs] of the leading
    axis.  No tensor is returned in any of these cases. *)
Theorem unsupported_axis_fails {A} {SA : Scalar A} {TA : Transcendental A}
    (k : nat) (c : semiring A) (xs : tensor A) (dim : Z) :
  (dim <> (-1)%Z -> KMaxSemiring.sum k xs dim = Raise AssertionError) /\
  (forall d, wrap_dim dim (ndim xs) = Ok d -> d <> ndim xs - 1 ->
             KMaxSemiring.sum k xs dim = Raise AssertionError) /\
  (is_expectation c = true ->
   Dispatch.sum c xs 0 = Raise AssertionError) /\
  (is_expectation c = true -> 2 <= ndim xs ->
   Dispatch.sum c xs (- Z.of_nat (ndim xs)) = Raise IndexError).
Proof.
  assert (Hk : dim <> (-1)%Z ->
               KMaxSemiring.sum k xs dim = Raise AssertionError).
  { intros Hd. unfold KMaxSemiring.sum.
    destruct (Z.eqb_spec dim (-1)); [contradiction | reflexivity]. }
  split; [exact Hk |]. split; [| split].
  - intros d Hw Hd. apply Hk. intros ->.
    rewrite wrap_dim_last in Hw. congruence.
  - intros Hc. destruct c; try discriminate Hc; reflexivity.
  - apply Expectation_sum_leading_neg.
Qed.

Lemma unsupported_axis_fails_witness :
  KMaxSemiring.sum 2 (mkT [3; 2] (fun _ => 0%R)) 0 = Raise AssertionError /\
  Dispatch.sum Entropy (mkT [3; 2] (fun _ => 0%R)) 0 = Raise AssertionError /\
  Dispatch.sum Entropy (mkT [3; 2] (fun _ => 0%R)) (-2) = Raise IndexError.
Proof.
  destruct (@unsupported_axis_fails R _ _ 2 Entropy
              (mkT [3; 2] (fun _ => 0%R)) 0) as (H1 & _ & H3 & H4).
  split; [apply H1; lia |]. split; [apply H3; reflexivity |].
  apply H4; [reflexivity | unfold ndim; simpl; lia].
Defined.

(** ** In-place writes *)

Lemma bzip_ones_l : forall s, bzip (repeat 1 (length s)) s = Some s.
Proof.
  induction s as [| n s IH]; simpl; [reflexivity |].
  rewrite IH. unfold bdim.
  destruct (Nat.eqb_spec 1 n); [now subst | reflexivity].
Qed.

Lemma expandable_nil s : expandable [] s = true.
Proof.
  unfold expandable, bshape. simpl. rewrite pad_shape_same.
  unfold pad_shape. simpl. rewrite Nat.sub_0_r, app_nil_r, bzip_ones_l.
  apply shape_eqb_refl.
Qed.

Lemma expandable_lead n s : expandable (1 :: s) (n :: s) = true.
Proof.
  unfold expandable, bshape. simpl. rewrite Nat.max_id.
  rewrite (@pad_shape_len (S (length s)) (1 :: s) eq_refl).
  rewrite (@pad_shape_len (S (length s)) (n :: s) eq_refl).
  simpl. rewrite bzip_refl. unfold bdim.
  destruct (Nat.eqb_spec 1 n); [subst; apply shape_eqb_refl |].
  apply shape_eqb_refl.
Qed.

Section Writes.
Context {A : Type}.

Lemma set_index_at (t v : tensor A) n s z i :
  shape t = n :: s -> i < n -> z = Z.of_nat i ->
  expandable (shape v) s = true ->
  set_index t z v =
  Ok (mkT (n :: s)
        (fun idx =>
           match idx with
           | c :: idx' =>
               if c =? i then tget v (bidx (shape v) idx') else tget t idx
           | [] => tget t idx
           end)).
Proof. intros Hs Hi -> He. now apply (set_index_nat t v Hs). Qed.

(** A successful [t[i] = w] keeps the shape of [t] and touches component
    [i] only. *)
Lemma set_index_inv (t w v : tensor A) (i : Z) :
  set_index t i w = Ok v ->
  exists n s,
    shape t = n :: s /\ shape v = n :: s /\
    (- Z.of_nat n <= i < Z.of_nat n)%Z /\
    expandable (shape w) s = true /\
    forall c idx,
      tget v (c :: idx)
      = if c =? Z.to_nat (if (i <? 0)%Z then i + Z.of_nat n else i)
        then tget w (bidx (shape w) idx)
        else tget t (c :: idx).
Proof.
  unfold set_index. destruct (shape t) as [| n s]; [discriminate |].
  destruct (Z.leb_spec (- Z.of_nat n) i) as [Hlo | Hlo]; [| discriminate].
  destruct (Z.ltb_spec i (Z.of_nat n)) as [Hhi | Hhi]; [| discriminate].
  cbn [andb].
  destruct (expandable (shape w) s) eqn:He; [| discriminate].
  intros Hset. inversion Hset; subst; clear Hset.
  exists n, s. repeat split; try assumption; try lia.
Qed.

Lemma unsqueeze_0 (t : tensor A) :
  unsqueeze t 0
  = Ok (mkT (1 :: shape t) (fun idx => tget t (remove_at 0 idx))).
Proof. unfold unsqueeze. now rewrite wrap_dim_0. Qed.

End Writes.

(** ** The leading dimension of a converted value *)

(** C7.  Whenever [convert] accepts [p], the value it returns has a leading
    dimension of length [size()]: 1 for Counting, Log, Max (and
    Temperature-Max), [k] for K-Max, 2 for Entropy, 3 for KL-Divergence,
    Cross-Entropy and Risk. *)
Theorem convert_leading_dimension {A} {SA : Scalar A}
    (c : semiring A) (p : potentials A) (v : tensor A) :
  Dispatch.convert c p = Ok v ->
  (exists s, shape v = Dispatch.size c :: s) /\
  Dispatch.size c =
  match c with
  | Std | Log | Max | TempMax _ => 1
  | KMax k => k
  | Entropy => 2
  | KLDivergence | CrossEntropy | Risk => 3
  end.
Proof.
  intros Hcv. split; [| destruct c; reflexivity].
  assert (Hbase : Semiring.convert p = Ok v ->
                  exists s, shape v = 1 :: s).
  { unfold Semiring.convert. destruct p as [t | l]; [| discriminate].
    rewrite unsqueeze_0. intros H. inversion H. simpl. eauto. }
  assert (Hthree :
            (xs0 <- getitem p 0 ;;
             let values := zeros (3 :: shape xs0) in
             values <- set_index values 0 xs0 ;;
             xs1 <- getitem p 1 ;;
             values <- set_index values 1 xs1 ;;
             values <- set_index values 2 (scalar_t s_zero) ;;
             Ok values) = Ok v ->
            exists s, shape v = 3 :: s).
  { intros H.
    apply bind_ok in H. destruct H as (xs0 & _ & H). cbv zeta in H.
    apply bind_ok in H. destruct H as (v0 & H0 & H).
    apply bind_ok in H. destruct H as (xs1 & _ & H).
    apply bind_ok in H. destruct H as (v1 & H1 & H).
    apply bind_ok in H. destruct H as (v2 & H2 & H).
    inversion H; subst; clear H.
    apply set_index_inv in H0. destruct H0 as (n0 & s0 & Ht0 & Hv0 & _).
    apply set_index_inv in H1. destruct H1 as (n1 & s1 & Ht1 & Hv1 & _).
    apply set_index_inv in H2. destruct H2 as (n2 & s2 & Ht2 & Hv2 & _).
    simpl in Ht0. exists s2. congruence. }
  destruct c; cbn [Dispatch.convert Dispatch.size] in *; auto.
  - unfold KMaxSemiring.convert, KMaxSemiring.size in *.
    destruct p as [t | l]; [| discriminate]. cbn [bind _BaseLog.zero_] in Hcv.
    apply set_index_inv in Hcv. destruct Hcv as (n & s & Ht & Hv & _).
    simpl in Ht. exists s. congruence.
  - unfold EntropySemiring.convert, EntropySemiring.size in *.
    destruct p as [t | l]; [| discriminate].
    apply bind_ok in Hcv. destruct Hcv as (v0 & H0 & H).
    apply bind_ok in H. destruct H as (v1 & H1 & H).
    inversion H; subst; clear H.
    apply set_index_inv in H0. destruct H0 as (n0 & s0 & Ht0 & Hv0 & _).
    apply set_index_inv in H1. destruct H1 as (n1 & s1 & Ht1 & Hv1 & _).
    simpl in Ht0. exists s1. congruence.
Qed.

Lemma convert_leading_dimension_witness :
  exists v,
    Dispatch.convert (KMax 2) (PTensor (of_list 0%Z [1; 2; 3]%Z)) = Ok v /\
    exists s, shape v = 2 :: s.
Proof.
  eexists. split; [reflexivity |].
  exact (proj1 (@convert_leading_dimension Z _ (KMax 2)
                  (PTensor (of_list 0%Z [1; 2; 3]%Z)) _ eq_refl)).
Defined.

(** ** [convert] followed by [unconvert] *)

(** C3, as stated, fails on the expectation semirings: Entropy's
    [unconvert] returns the statistic component, which [convert] has just
    set to zero, not the potentials. *)
Lemma convert_unconvert_Entropy_counterexample :
  exists v u,
    Dispatch.convert Entropy (PTensor (of_list 0%Z [1%Z])) = Ok v /\
    Dispatch.unconvert Entropy v = Ok u /\
    flatten u = [0%Z] /\
    ~ teq u (of_list 0%Z [1%Z]).
Proof.
  eexists. eexists. split; [reflexivity |]. split; [reflexivity |].
  split; [reflexivity |].
  intros [_ Hget]. specialize (Hget [0] eq_refl). discriminate Hget.
Qed.

(** C3, amended.  On the semirings with a single score stream (Counting,
    Log, Max, Temperature-Max and K-Max) [unconvert (convert p)] is [p];
    on the expectation semirings it is the statistic component of the
    converted value, which is zero everywhere. *)
Theorem convert_unconvert {A} {SA : Scalar A}
    (c : semiring A) (p : potentials A) (v : tensor A) :
  Dispatch.convert c p = Ok v ->
  exists u,
    Dispatch.unconvert c v = Ok u /\
    if is_expectation c
    then shape u = tl (shape v) /\ forall idx, tget u idx = s_zero
    else exists t, p = PTensor t /\ teq u t.
Proof.
  intros Hcv.
  assert (Hbase : Semiring.convert p = Ok v ->
                  exists u, Semiring.unconvert v = Ok u /\
                            exists t, p = PTensor t /\ teq u t).
  { unfold Semiring.convert. destruct p as [t | l]; [| discriminate].
    rewrite unsqueeze_0. intros H. inversion H; subst; clear H.
    unfold Semiring.unconvert, squeeze. rewrite wrap_dim_0. cbn.
    eexists. split; [reflexivity |]. exists t. split; [reflexivity |].
    split; reflexivity. }
  assert (Hthree :
            (xs0 <- getitem p 0 ;;
             let values := zeros (3 :: shape xs0) in
             values <- set_index values 0 xs0 ;;
             xs1 <- getitem p 1 ;;
             values <- set_index values 1 xs1 ;;
             values <- set_index values 2 (scalar_t s_zero) ;;
             Ok values) = Ok v ->
            exists u, select v (-1) = Ok u /\
                      shape u = tl (shape v) /\
                      forall idx, tget u idx = s_zero).
  { intros H.
    apply bind_ok in H. destruct H as (xs0 & _ & H). cbv zeta in H.
    apply bind_ok in H. destruct H as (v0 & H0 & H).
    apply bind_ok in H. destruct H as (xs1 & _ & H).
    apply bind_ok in H. destruct H as (v1 & H1 & H).
    apply bind_ok in H. destruct H as (v2 & H2 & H).
    inversion H; subst; clear H.
    apply set_index_inv in H0. destruct H0 as (n0 & s0 & Ht0 & Hv0 & _).
    apply set_index_inv in H1. destruct H1 as (n1 & s1 & Ht1 & Hv1 & _).
    apply set_index_inv in H2.
    destruct H2 as (n2 & s2 & Ht2 & Hv2 & _ & _ & Hget).
    simpl in Ht0.
    assert (Hn : n2 = 3) by congruence. subst n2.
    rewrite (select_last v Hv2). eexists. split; [reflexivity |].
    rewrite Hv2. split; [reflexivity |]. intros idx. cbn [tget].
    rewrite Hget. reflexivity. }
  destruct c; cbn [Dispatch.convert Dispatch.unconvert is_expectation] in *;
    auto.
  - unfold KMaxSemiring.convert, KMaxSemiring.unconvert in *.
    destruct p as [t | l]; [| discriminate].
    cbn [bind _BaseLog.zero_] in Hcv.
    apply set_index_inv in Hcv.
    destruct Hcv as (n & s & Ht & Hv & Hrange & _ & Hget).
    simpl in Ht. inversion Ht; subst; clear Ht.
    rewrite (@select_at _ v _ _ 0%Z 0 Hv) by (lia || reflexivity).
    eexists. split; [reflexivity |]. exists t. split; [reflexivity |].
    split; [reflexivity |]. cbn [shape tget]. intros idx Hr.
    rewrite Hget. cbn. now rewrite bidx_id.
  - unfold EntropySemiring.convert, EntropySemiring.unconvert in *.
    destruct p as [t | l]; [| discriminate].
    apply bind_ok in Hcv. destruct Hcv as (v0 & H0 & H).
    apply bind_ok in H. destruct H as (v1 & H1 & H).
    inversion H; subst; clear H.
    apply set_index_inv in H0. destruct H0 as (n0 & s0 & Ht0 & Hv0 & _).
    apply set_index_inv in H1.
    destruct H1 as (n1 & s1 & Ht1 & Hv1 & _ & _ & Hget).
    simpl in Ht0.
    assert (Hn : n1 = 2) by congruence. subst n1.
    rewrite (@select_at _ v _ _ 1%Z 1 Hv1) by (lia || reflexivity).
    eexists. split; [reflexivity |].
    rewrite Hv1. split; [reflexivity |]. intros idx. cbn [tget].
    rewrite Hget. reflexivity.
Qed.

Lemma convert_unconvert_witness :
  exists v u,
    Dispatch.convert (KMax 2) (PTensor (of_list 0%Z [1; 2; 3]%Z)) = Ok v /\
    Dispatch.unconvert (KMax 2) v = Ok u /\
    teq u (of_list 0%Z [1; 2; 3]%Z).
Proof.
  eexists.
  destruct (@convert_unconvert Z _ (KMax 2)
              (PTensor (of_list 0%Z [1; 2; 3]%Z)) _ eq_refl)
    as (u & Hu & t & Ht & Heq).
  exists u. split; [reflexivity |]. split; [exact Hu |].
  inversion Ht; subst. exact Heq.
Defined.

(** ** Masking *)

Lemma bidx_lead ms k idx :
  in_range ms idx -> bidx (1 :: ms) (k :: idx) = 0 :: idx.
Proof.
  intros Hr. unfold bidx. cbn [length].
  rewrite (in_range_length Hr), Nat.sub_diag. cbn.
  now rewrite (bmask_id Hr).
Qed.

Ltac step_on_select n ms z i :=
  unfold on_select at 1;
  rewrite (@select_at _ _ n ms z i) by (assumption || reflexivity || lia);
  cbn [bind]; try (unfold masked_fill_ at 1); cbn [shape fill_];
  rewrite ?expandable_refl; cbn [bind];
  rewrite (@set_index_at _ _ _ n ms z i)
    by (assumption || reflexivity || lia || apply expandable_refl);
  cbn [bind].

(** C8.  On a value [xs] with [size()] components and a mask of the shape
    of one component, [zero_mask_] returns [None] and leaves [xs] with, at
    every masked position, each component's own zero (the value [zero_]
    writes there: the sentinel for a log-score stream, 0 for a statistic or
    a count), and with every unmasked position as it was. *)
Theorem zero_mask_fills {A} {SA : Scalar A}
    (c : semiring A) (xs : tensor A) (mask : tensor bool) :
  shape xs = Dispatch.size c :: shape mask ->
  exists xs' z,
    Dispatch.zero_mask_ c xs mask = Ok (tt, xs') /\
    Dispatch.zero_ c xs = Ok z /\
    shape xs' = shape xs /\
    forall k idx, k < Dispatch.size c -> in_range (shape mask) idx ->
      tget xs' (k :: idx)
      = (if tget mask idx then tget z (k :: idx) else tget xs (k :: idx)) /\
      tget z (k :: idx)
      = match c with
        | Std => s_zero
        | Log | Max | KMax _ | TempMax _ => NEGINF
        | KLDivergence | CrossEntropy => if k <? 2 then NEGINF else s_zero
        | Entropy | Risk => if k =? 0 then NEGINF else s_zero
        end.
Proof.
  intros Hs.
  assert (Hbase : forall z0,
            exists xs',
              Semiring.zero_mask_ (ZeroScalar z0) xs mask = Ok (tt, xs') /\
              shape xs' = shape xs /\
              forall k idx, in_range (shape mask) idx ->
                tget xs' (k :: idx)
                = if tget mask idx then z0 else tget xs (k :: idx)).
  { intros z0. unfold Semiring.zero_mask_. rewrite unsqueeze_0. cbn [bind].
    unfold masked_fill_. cbn [shape]. rewrite Hs, expandable_lead.
    cbn [bind]. eexists. split; [reflexivity |]. split; [reflexivity |].
    intros k idx Hr. cbn [tget]. rewrite (bidx_lead k Hr). reflexivity. }
  destruct c; cbn [Dispatch.size Dispatch.zero_mask_ Dispatch.zero_
                     Dispatch.zero] in *;
    unfold _Base.zero, _BaseLog.zero, _Base.zero_, _BaseLog.zero_,
      KMaxSemiring.size, KLDivergenceSemiring.size,
      CrossEntropySemiring.size, EntropySemiring.size, RiskSemiring.size,
      Semiring.size in *.
  1-4, 8:
    match goal with
    | |- context [Semiring.zero_mask_ (ZeroScalar ?z0)] =>
        destruct (Hbase z0) as (xs' & Hm & Hsh & Hget)
    end;
    exists xs'; eexists; split; [exact Hm |]; split; [reflexivity |];
    split; [exact Hsh |]; intros comp idx Hcomp Hr;
    rewrite (Hget comp idx Hr); split; reflexivity.
  - unfold KLDivergenceSemiring.zero_mask_, KLDivergenceSemiring.zero_.
    step_on_select 3 (shape mask) 0%Z 0.
    step_on_select 3 (shape mask) 1%Z 1.
    step_on_select 3 (shape mask) 2%Z 2.
    step_on_select 3 (shape mask) 0%Z 0.
    step_on_select 3 (shape mask) 1%Z 1.
    step_on_select 3 (shape mask) 2%Z 2.
    eexists. eexists. split; [reflexivity |]. split; [reflexivity |].
    split; [now rewrite Hs |]. intros k idx Hk Hr.
    destruct k as [| [| [| k]]]; try lia; cbn; rewrite !(bidx_id Hr);
      destruct (tget mask idx); split; reflexivity.
  - unfold CrossEntropySemiring.zero_mask_, CrossEntropySemiring.zero_.
    step_on_select 3 (shape mask) 0%Z 0.
    step_on_select 3 (shape mask) 1%Z 1.
    step_on_select 3 (shape mask) 2%Z 2.
    step_on_select 3 (shape mask) 0%Z 0.
    step_on_select 3 (shape mask) 1%Z 1.
    step_on_select 3 (shape mask) 2%Z 2.
    eexists. eexists. split; [reflexivity |]. split; [reflexivity |].
    split; [now rewrite Hs |]. intros k idx Hk Hr.
    destruct k as [| [| [| k]]]; try lia; cbn; rewrite !(bidx_id Hr);
      destruct (tget mask idx); split; reflexivity.
  - unfold EntropySemiring.zero_mask_, EntropySemiring.zero_.
    step_on_select 2 (shape mask) 0%Z 0.
    step_on_select 2 (shape mask) 1%Z 1.
    step_on_select 2 (shape mask) 0%Z 0.
    step_on_select 2 (shape mask) 1%Z 1.
    eexists. eexists. split; [reflexivity |]. split; [reflexivity |].
    split; [now rewrite Hs |]. intros k idx Hk Hr.
    destruct k as [| [| k]]; try lia; cbn; rewrite !(bidx_id Hr);
      destruct (tget mask idx); split; reflexivity.
  - unfold RiskSemiring.zero_mask_, RiskSemiring.zero_.
    step_on_select 3 (shape mask) 0%Z 0.
    step_on_select 3 (shape mask) 1%Z 1.
    step_on_select 3 (shape mask) 2%Z 2.
    step_on_select 3 (shape mask) 0%Z 0.
    step_on_select 3 (shape mask) 1%Z 1.
    step_on_select 3 (shape mask) 2%Z 2.
    eexists. eexists. split; [reflexivity |]. split; [reflexivity |].
    split; [now rewrite Hs |]. intros k idx Hk Hr.
    destruct k as [| [| [| k]]]; try lia; cbn; rewrite !(bidx_id Hr);
      destruct (tget mask idx); split; reflexivity.
Qed.

Lemma zero_mask_fills_witness :
  exists xs',
    Dispatch.zero_mask_ Risk
      (of_flat 0%Z [3; 2] [1; 2; 3; 4; 5; 6]%Z)
      (of_flat false [2] [true; false]) = Ok (tt, xs') /\
    tget xs' [0; 0] = (-1000000000000)%Z /\
    tget xs' [0; 1] = 2%Z /\
    tget xs' [2; 0] = 0%Z.
Proof.
  destruct (@zero_mask_fills Z _ Risk
              (of_flat 0%Z [3; 2] [1; 2; 3; 4; 5; 6]%Z)
              (of_flat false [2] [true; false]) eq_refl)
    as (xs' & z & Hm & _ & _ & Hget).
  exists xs'. split; [exact Hm |].
  destruct (Hget 0 [0]) as [H00 Hz0];
    [unfold Dispatch.size, RiskSemiring.size; lia | reflexivity |].
  destruct (Hget 0 [1]) as [H01 _];
    [unfold Dispatch.size, RiskSemiring.size; lia | reflexivity |].
  destruct (Hget 2 [0]) as [H20 Hz2];
    [unfold Dispatch.size, RiskSemiring.size; lia | reflexivity |].
  rewrite H00, H01, H20, Hz0, Hz2. repeat split; reflexivity.
Defined.

(** ** Sorting in descending order *)

Section Sorting.
Context {A : Type} {SA : Scalar A} {SO : ScalarOrder A}.

Lemma ge_refl (x : A) : ge x x.
Proof. unfold ge. destruct (s_leb_total x x); assumption. Qed.

Lemma ge_trans (x y z : A) : ge x y -> ge y z -> ge x z.
Proof. unfold ge. intros Hxy Hyz. exact (s_leb_trans _ _ _ Hyz Hxy). Qed.

Lemma insert_desc_perm (x : A) (l : list A) :
  Permutation (insert_desc x l) (x :: l).
Proof.
  induction l as [| y r IH]; simpl; [reflexivity |].
  destruct (s_leb y x); [reflexivity |].
  rewrite IH. apply perm_swap.
Qed.

Lemma sort_desc_perm (l : list A) : Permutation (sort_desc l) l.
Proof.
  induction l as [| x l IH]; simpl; [reflexivity |].
  rewrite insert_desc_perm. now constructor.
Qed.

Lemma sort_desc_length (l : list A) : length (sort_desc l) = length l.
Proof. apply Permutation_length, sort_desc_perm. Qed.

Lemma insert_desc_sorted (x : A) (l : list A) :
  sorted_desc l -> sorted_desc (insert_desc x l).
Proof.
  unfold sorted_desc. induction 1 as [| y r Hr IH Hy]; simpl.
  - constructor; constructor.
  - destruct (s_leb y x) eqn:Hyx.
    + constructor; [constructor; assumption |].
      constructor; [exact Hyx |].
      eapply Forall_impl; [| exact Hy].
      intros z Hz. apply ge_trans with y; assumption.
    + constructor; [exact IH |].
      apply (Permutation_Forall (Permutation_sym (insert_desc_perm x r))).
      constructor; [| exact Hy].
      unfold ge. destruct (s_leb_total x y); [assumption | congruence].
Qed.

Lemma sort_desc_sorted (l : list A) : sorted_desc (sort_desc l).
Proof.
  induction l as [| x l IH]; simpl; [constructor |].
  now apply insert_desc_sorted.
Qed.

Lemma sorted_desc_app (l1 l2 : list A) :
  sorted_desc (l1 ++ l2) ->
  sorted_desc l1 /\ sorted_desc l2 /\
  forall x y, In x l1 -> In y l2 -> ge x y.
Proof.
  unfold sorted_desc. induction l1 as [| a l1 IH]; simpl; intros Hs.
  - repeat split; [constructor | assumption | contradiction].
  - inversion Hs as [| ? ? Hs' Hall]; subst.
    destruct (IH Hs') as (H1 & H2 & H12).
    apply Forall_app in Hall. destruct Hall as [Ha1 Ha2].
    repeat split; [constructor; assumption | assumption |].
    intros x y [-> | Hx] Hy; [| now apply H12].
    rewrite Forall_forall in Ha2. now apply Ha2.
Qed.

(** The first [k] elements of the sorted list are the [k] largest. *)
Lemma firstn_sort_top_k (k : nat) (l : list A) :
  k <= length l -> is_top_k k l (firstn k (sort_desc l)).
Proof.
  intros Hk.
  pose proof (sort_desc_sorted l) as Hs.
  rewrite <- (firstn_skipn k (sort_desc l)) in Hs.
  apply sorted_desc_app in Hs. destruct Hs as (H1 & _ & H12).
  split; [| split; [exact H1 |]].
  - rewrite length_firstn, sort_desc_length. lia.
  - exists (skipn k (sort_desc l)). split; [| exact H12].
    rewrite firstn_skipn. apply sort_desc_perm.
Qed.

(** A descending list is determined by its elements. *)
Lemma sorted_desc_unique (l1 l2 : list A) :
  sorted_desc l1 -> sorted_desc l2 -> Permutation l1 l2 -> l1 = l2.
Proof.
  unfold sorted_desc. intros H1. revert l2.
  induction H1 as [| a l1 Hs1 IH Ha]; intros l2 H2 Hp.
  - apply Permutation_nil in Hp. now subst.
  - destruct H2 as [| b l2 Hs2 Hb].
    + apply Permutation_sym, Permutation_nil in Hp. discriminate.
    + assert (Hab : a = b).
      { assert (Hina : In a (b :: l2))
          by (apply (Permutation_in _ Hp); now left).
        assert (Hinb : In b (a :: l1))
          by (apply (Permutation_in _ (Permutation_sym Hp)); now left).
        rewrite Forall_forall in Ha, Hb.
        destruct Hina as [-> | Hina]; [reflexivity |].
        destruct Hinb as [-> | Hinb]; [reflexivity |].
        apply s_leb_antisym; [apply (Hb _ Hina) | apply (Ha _ Hinb)]. }
      subst b. f_equal. apply IH; [assumption |].
      now apply Permutation_cons_inv with a.
Qed.

Lemma top_k_unique (k : nat) (l c1 c2 : list A) :
  is_top_k k l c1 -> is_top_k k l c2 -> c1 = c2.
Proof.
  intros (Hl1 & Hs1 & r1 & Hp1 & Hge1) (Hl2 & Hs2 & r2 & Hp2 & Hge2).
  assert (Hjoin : forall c r,
             sorted_desc c -> (forall x y, In x c -> In y r -> ge x y) ->
             sorted_desc (c ++ sort_desc r)).
  { intros c r Hc Hge. unfold sorted_desc in *.
    induction Hc as [| a c Hc IHc Ha]; simpl.
    - apply sort_desc_sorted.
    - constructor.
      + apply IHc. intros x y Hx Hy. apply Hge; [now right | assumption].
      + apply Forall_app. split; [exact Ha |].
        apply Forall_forall. intros y Hy. apply Hge; [now left |].
        apply (Permutation_in _ (sort_desc_perm r)). exact Hy. }
  assert (Heq : c1 ++ sort_desc r1 = c2 ++ sort_desc r2).
  { apply sorted_desc_unique; try (apply Hjoin; assumption).
    rewrite !sort_desc_perm, Hp1, Hp2. reflexivity. }
  assert (Hf : firstn k (c1 ++ sort_desc r1) = firstn k (c2 ++ sort_desc r2))
    by now rewrite Heq.
  rewrite !firstn_app, Hl1, Hl2, Nat.sub_diag in Hf. simpl in Hf.
  rewrite !app_nil_r in Hf.
  rewrite <- Hl1 in Hf at 1. rewrite <- Hl2 in Hf.
  now rewrite !firstn_all in Hf.
Qed.

End Sorting.

(** ** Row-major offsets and [view] *)

Lemma ravel_lt : forall s idx, in_range s idx -> ravel s idx < numel s.
Proof.
  induction s as [| n s IH]; intros [| i idx] Hr; try discriminate.
  - simpl. lia.
  - apply in_range_cons in Hr. destruct Hr as [Hi Hr].
    specialize (IH _ Hr). simpl. nia.
Qed.

Lemma unravel_ravel : forall s idx,
  in_range s idx -> unravel s (ravel s idx) = idx.
Proof.
  induction s as [| n s IH]; intros [| i idx] Hr; try discriminate.
  - reflexivity.
  - apply in_range_cons in Hr. destruct Hr as [Hi Hr].
    pose proof (ravel_lt Hr) as Hlt. simpl.
    replace ((i * numel s + ravel s idx) mod numel s) with (ravel s idx)
      by (rewrite (Nat.add_comm (i * numel s)), Nat.Div0.mod_add,
            Nat.mod_small by lia; reflexivity).
    rewrite Nat.div_add_l, Nat.div_small by lia.
    rewrite Nat.add_0_r, IH by assumption. reflexivity.
Qed.

Lemma existsb_of_nat_neg (s : list nat) :
  existsb (fun z => (z <? -1)%Z) (map Z.of_nat s) = false.
Proof.
  induction s as [| n s IH]; simpl; [reflexivity |].
  rewrite IH. destruct (Z.ltb_spec (Z.of_nat n) (-1)); [lia | reflexivity].
Qed.

Lemma count_occ_of_nat_neg (s : list nat) :
  count_occ Z.eq_dec (map Z.of_nat s) (-1)%Z = 0.
Proof.
  induction s as [| n s IH]; simpl; [reflexivity |].
  destruct (Z.eq_dec (Z.of_nat n) (-1)); [lia | exact IH].
Qed.

Lemma known_of_nat (s : list nat) :
  fold_right (fun z acc => if (z <? 0)%Z then acc else Z.to_nat z * acc)
    1 (map Z.of_nat s) = numel s.
Proof.
  induction s as [| n s IH]; simpl; [reflexivity |].
  rewrite IH. destruct (Z.ltb_spec (Z.of_nat n) 0); [lia |].
  now rewrite Nat2Z.id.
Qed.

Lemma map_to_nat_of_nat (s : list nat) : map Z.to_nat (map Z.of_nat s) = s.
Proof.
  induction s as [| n s IH]; simpl; [reflexivity |].
  now rewrite Nat2Z.id, IH.
Qed.

Lemma view_nat {A} (t : tensor A) (s : list nat) :
  numel s = numel (shape t) ->
  view t (map Z.of_nat s) = Ok (reshape t s).
Proof.
  intros Hn. unfold view.
  rewrite existsb_of_nat_neg, count_occ_of_nat_neg, known_of_nat, Hn.
  now rewrite Nat.eqb_refl, map_to_nat_of_nat.
Qed.

(** ** K-Max: [mul] *)

Lemma flat_map_divmod {T} (g : nat -> nat -> T) (k : nat) : forall n,
  flat_map (fun i => map (g i) (seq 0 k)) (seq 0 n)
  = map (fun m => g (m / k) (m mod k)) (seq 0 (n * k)).
Proof.
  assert (Hgen : forall n c len, c + len <= k ->
            map (g n) (seq c len)
            = map (fun m => g (m / k) (m mod k)) (seq (n * k + c) len)).
  { intros n c len. revert c. induction len as [| len IHl]; intros c Hc;
      [reflexivity |].
    simpl. f_equal.
    - replace ((n * k + c) mod k) with c
        by (rewrite (Nat.add_comm (n * k)), Nat.Div0.mod_add,
              Nat.mod_small by lia; reflexivity).
      rewrite Nat.div_add_l, Nat.div_small by lia.
      now rewrite Nat.add_0_r.
    - rewrite IHl by lia. f_equal. f_equal. lia. }
  induction n as [| n IH]; [reflexivity |].
  rewrite seq_S, flat_map_app, IH. simpl flat_map. rewrite app_nil_r.
  replace (S n * k) with (n * k + k) by lia.
  rewrite seq_app, map_app. f_equal. simpl.
  rewrite (Hgen n 0 k) by lia. now rewrite Nat.add_0_r.
Qed.

Lemma bshape_outer k s : bshape (k :: 1 :: s) (1 :: k :: s) = Some (k :: k :: s).
Proof.
  unfold bshape. simpl length. rewrite Nat.max_id.
  rewrite (@pad_shape_len (S (S (length s))) (k :: 1 :: s) eq_refl).
  rewrite (@pad_shape_len (S (S (length s))) (1 :: k :: s) eq_refl).
  simpl. rewrite bzip_refl. unfold bdim.
  destruct (Nat.eqb_spec k 1) as [-> | Hk]; [reflexivity |].
  destruct (Nat.eqb_spec 1 k); [lia | reflexivity].
Qed.

Lemma bidx_outer_l k s q r idx :
  q < k -> in_range s idx ->
  bidx (k :: 1 :: s) (q :: r :: idx) = q :: 0 :: idx.
Proof.
  intros Hq Hr. unfold bidx. cbn [length].
  rewrite (in_range_length Hr), Nat.sub_diag. cbn.
  rewrite (bmask_id Hr).
  destruct (Nat.eqb_spec k 1); [f_equal; lia | reflexivity].
Qed.

Lemma bidx_outer_r k s q r idx :
  r < k -> in_range s idx ->
  bidx (1 :: k :: s) (q :: r :: idx) = 0 :: r :: idx.
Proof.
  intros Hq Hr. unfold bidx. cbn [length].
  rewrite (in_range_length Hr), Nat.sub_diag. cbn.
  rewrite (bmask_id Hr).
  destruct (Nat.eqb_spec k 1); [do 2 f_equal; lia | reflexivity].
Qed.

Lemma ravel_merge k s m idx :
  0 < k ->
  ravel (k * k :: s) (m :: idx)
  = ravel (k :: k :: s) (m / k :: m mod k :: idx).
Proof.
  intros Hk. simpl. pose proof (Nat.div_mod_eq m k) as Hm. nia.
Qed.

Lemma ravel_unit_l k s q idx :
  ravel (k :: 1 :: s) (q :: 0 :: idx) = ravel (k :: s) (q :: idx).
Proof. simpl. lia. Qed.

Lemma ravel_unit_r k s r idx :
  ravel (1 :: k :: s) (0 :: r :: idx) = ravel (k :: s) (r :: idx).
Proof. simpl. lia. Qed.

Section KMaxMul.
Context {A : Type} {SA : Scalar A}.

(** Every slot of the product is read off the sorted list of the pairwise
    sums at its position. *)
Lemma KMax_mul_at (k : nat) (a b : tensor A) (s : list nat) :
  shape a = k :: s -> shape b = k :: s ->
  exists r,
    KMaxSemiring.mul k a b = Ok r /\
    shape r = k :: s /\
    forall i idx, in_range s idx ->
      tget r (i :: idx)
      = nth i (sort_desc (pairwise_sums k (fun i => tget a (i :: idx))
                            (fun j => tget b (j :: idx)))) s_zero.
Proof.
  intros Ha Hb. unfold KMaxSemiring.mul.
  rewrite Ha, Hb. cbn [tl].
  rewrite (@view_nat _ a (k :: 1 :: s)) by (rewrite Ha; simpl; lia).
  cbn [bind].
  rewrite (@view_nat _ b (1 :: k :: s)) by (rewrite Hb; simpl; lia).
  cbn [bind]. unfold tadd.
  rewrite (@binop_at _ s_add _ _ (k :: k :: s))
    by (cbn [shape reshape]; apply bshape_outer).
  cbn [bind shape skipn].
  rewrite (@view_nat _ _ (k * k :: s)) by (cbn [shape]; simpl; lia).
  cbn [bind]. unfold topk. rewrite wrap_dim_0. cbn [bind shape reshape nth].
  assert (Hkk : (k <=? k * k) = true) by (apply Nat.leb_le; nia).
  rewrite Hkk. cbn [bind shape set_nth firstn skipn app hd].
  rewrite Nat.eqb_refl. cbn [assert bind].
  eexists. split; [reflexivity |]. split; [reflexivity |].
  intros i idx Hr. cbn [tget nth remove_at firstn skipn app].
  f_equal. f_equal. unfold lane, pairwise_sums. cbn [shape nth].
  rewrite (flat_map_divmod
             (fun i j => s_add (tget a (i :: idx)) (tget b (j :: idx)))).
  apply map_ext_in. intros m Hm. apply in_seq in Hm.
  assert (Hk : 0 < k) by nia.
  assert (Hq : m / k < k) by (apply Nat.Div0.div_lt_upper_bound; lia).
  assert (Hrem : m mod k < k) by (apply Nat.mod_upper_bound; lia).
  cbn [insert_at firstn skipn app]. unfold reshape. cbn [tget shape].
  rewrite (ravel_merge s m idx Hk).
  rewrite unravel_ravel
    by (apply in_range_cons; split; [assumption |];
        apply in_range_cons; split; assumption).
  rewrite (bidx_outer_l (m mod k) Hq Hr), (bidx_outer_r (m / k) Hrem Hr).
  rewrite ravel_unit_l, ravel_unit_r, Ha, Hb.
  rewrite !unravel_ravel by (apply in_range_cons; split; assumption).
  reflexivity.
Qed.

End KMaxMul.

Lemma map_nth_firstn {T} (d : T) : forall k (l : list T),
  k <= length l -> map (fun i => nth i l d) (seq 0 k) = firstn k l.
Proof.
  intros k l. revert k. induction l as [| x l IH]; intros [| k] Hk;
    simpl in Hk; try lia; try reflexivity.
  simpl. f_equal. rewrite <- seq_shift, map_map. apply IH. lia.
Qed.

Lemma pairwise_sums_length {A} {SA : Scalar A} k (a b : nat -> A) :
  length (pairwise_sums k a b) = k * k.
Proof.
  unfold pairwise_sums.
  rewrite (flat_map_divmod (fun i j => s_add (a i) (b j))).
  now rewrite length_map, length_seq.
Qed.

(** C2.  For two K-Max values [a] and [b] of the same shape, with [k]
    slots each, [mul] returns a value of that shape whose [k] slots are, at
    every position, the [k] largest of the [k * k] pairwise sums
    [a_i + b_j] at that position, largest first. *)
Theorem KMax_mul_top_k {A} {SA : Scalar A} {SO : ScalarOrder A}
    (k : nat) (a b : tensor A) (s : list nat) :
  shape a = k :: s -> shape b = k :: s ->
  exists r,
    KMaxSemiring.mul k a b = Ok r /\
    shape r = k :: s /\
    forall idx, in_range s idx ->
      is_top_k k
        (pairwise_sums k (fun i => tget a (i :: idx))
           (fun j => tget b (j :: idx)))
        (column k r idx).
Proof.
  intros Ha Hb.
  destruct (KMax_mul_at a b Ha Hb) as (r & Hmul & Hsh & Hget).
  exists r. split; [exact Hmul |]. split; [exact Hsh |].
  intros idx Hr. unfold column.
  rewrite (map_ext _ _ (fun i => Hget i idx Hr)).
  rewrite map_nth_firstn
    by (rewrite sort_desc_length, pairwise_sums_length; nia).
  apply firstn_sort_top_k. rewrite pairwise_sums_length. nia.
Qed.

Lemma KMax_mul_top_k_witness :
  exists r,
    KMaxSemiring.mul 2 (of_flat 0%Z [2; 2] [5; 3; 1; 2]%Z)
      (of_flat 0%Z [2; 2] [5; 3; 1; 2]%Z) = Ok r /\
    is_top_k 2 [10; 6; 6; 2]%Z (column 2 r [0]).
Proof.
  destruct (@KMax_mul_top_k Z _ _ 2 (of_flat 0%Z [2; 2] [5; 3; 1; 2]%Z)
              (of_flat 0%Z [2; 2] [5; 3; 1; 2]%Z) [2] eq_refl eq_refl)
    as (r & Hmul & _ & Htop).
  exists r. split; [exact Hmul |]. apply (Htop [0]). reflexivity.
Defined.

(** ** Identities *)

(** C4, as stated, fails on K-Max: [mul] sorts the slots, so a value whose
    slots are not in descending order is not returned unchanged. *)
Lemma KMax_one_not_identity_counterexample :
  exists o r,
    Dispatch.one_ (KMax 2) (of_list 0%Z [7; 7]%Z) = Ok o /\
    Dispatch.mul (KMax 2) o (of_list 0%Z [1; 2]%Z) = Ok r /\
    flatten o = [0; -1000000000000]%Z /\
    flatten r = [2; 1]%Z /\
    ~ teq r (of_list 0%Z [1; 2]%Z).
Proof.
  eexists. eexists. split; [reflexivity |]. split; [reflexivity |].
  split; [reflexivity |]. split; [reflexivity |].
  intros [_ Hget]. specialize (Hget [0] eq_refl). discriminate Hget.
Qed.

Section Identities.
Context {A : Type} {SA : Scalar A} {SL : ScalarLaws A}.

Lemma binop_id_l (f : A -> A -> A) (e : A) (o y : tensor A) :
  (forall a, f e a = a) ->
  shape o = shape y ->
  (forall idx, in_range (shape y) idx -> tget o idx = e) ->
  exists r, binop f o y = Ok r /\ teq r y.
Proof.
  intros Hf Hs Ho.
  rewrite (@binop_at _ f o y (shape y)) by (rewrite Hs; apply bshape_refl).
  eexists. split; [reflexivity |]. split; [reflexivity |].
  cbn [shape tget]. intros idx Hr.
  rewrite Hs, (bidx_id Hr), (Ho idx Hr). apply Hf.
Qed.

Lemma stack2_last (a b : tensor A) :
  shape b = shape a ->
  stack [a; b] (-1)
  = Ok (mkT (insert_at (ndim a) 2 (shape a))
          (fun idx => tget (nth (nth (ndim a) idx 0) [a; b] a)
                        (remove_at (ndim a) idx))).
Proof.
  intros Hb. unfold stack. cbn [forallb].
  rewrite Hb, shape_eqb_refl. cbn [andb].
  rewrite wrap_dim_last. cbn [bind length].
  replace (ndim a + 1 - 1) with (ndim a) by lia. reflexivity.
Qed.

Lemma insert_at_length {T} : forall d (x : T) l,
  d <= length l -> length (insert_at d x l) = S (length l).
Proof.
  intros d x l Hd. unfold insert_at.
  rewrite length_app. cbn [length].
  rewrite length_firstn, length_skipn. lia.
Qed.

(** [plus a b] reduces, at every position, the two-element list
    [a idx; b idx]. *)
Lemma reduce_stack2 (f : list A -> A) (a b : tensor A) :
  shape b = shape a ->
  exists st r,
    stack [a; b] (-1) = Ok st /\
    reduce_dim f st (-1) = Ok r /\
    nth (ndim st - 1) (shape st) 1 = 2 /\
    shape r = shape a /\
    forall idx, in_range (shape a) idx ->
      tget r idx = f [tget a idx; tget b idx].
Proof.
  intros Hb. rewrite (@stack2_last a b Hb).
  eexists. eexists. split; [reflexivity |].
  assert (Hnd : ndim (mkT (insert_at (ndim a) 2 (shape a))
                        (fun idx => tget (nth (nth (ndim a) idx 0) [a; b] a)
                                      (remove_at (ndim a) idx)))
                = S (ndim a)).
  { unfold ndim at 1. cbn [shape]. apply insert_at_length. reflexivity. }
  rewrite (@reduce_dim_at _ f _ (-1)%Z (ndim a)).
  2: { cbn [shape]. unfold insert_at. destruct (firstn (ndim a) (shape a));
       discriminate. }
  2: { rewrite wrap_dim_last, Hnd. f_equal. lia. }
  split; [reflexivity |]. rewrite Hnd. cbn [shape].
  replace (S (ndim a) - 1) with (ndim a) by lia.
  split; [apply nth_insert_at; reflexivity |].
  split; [apply remove_insert; reflexivity |].
  intros idx Hr. cbn [tget]. f_equal. unfold lane. cbn [shape tget].
  rewrite nth_insert_at by reflexivity. cbn [seq map].
  assert (Hlen : ndim a <= length idx)
    by (rewrite (in_range_length Hr); reflexivity).
  rewrite !nth_insert_at, !remove_insert by assumption. reflexivity.
Qed.

End Identities.

Section IdentityProofs.
Context {A : Type} {SA : Scalar A} {SO : ScalarOrder A} {SL : ScalarLaws A}.

Lemma one_mul_simple (c : semiring A) (x y : tensor A) (s : list nat) :
  (forall k, c <> KMax k) ->
  shape y = Dispatch.size c :: s -> shape x = shape y ->
  exists o r,
    Dispatch.one_ c x = Ok o /\ Dispatch.mul c o y = Ok r /\ teq r y.
Proof.
  intros Hc Hy Hx. rewrite Hy in Hx.
  assert (Hfill : forall (f : A -> A -> A) e,
             (forall a, f e a = a) ->
             exists o r, Ok (fill_ x e) = Ok o /\ binop f o y = Ok r /\
                         teq r y).
  { intros f e Hf.
    destruct (@binop_id_l _ f e (fill_ x e) y Hf) as (r & Hr & Heq);
      [cbn [shape fill_]; congruence | reflexivity |].
    exists (fill_ x e), r. auto. }
  assert (Hzero : forall n (o : tensor A),
             shape o = n :: s ->
             (forall comp idx, comp < n -> tget o (comp :: idx) = s_zero) ->
             Dispatch.size c = n ->
             exists r, binop s_add o y = Ok r /\ teq r y).
  { intros n o Hso Hget Hn. rewrite Hn in Hy.
    apply (@binop_id_l _ s_add s_zero o y s_add_0_l); [congruence |].
    intros idx Hr. rewrite Hy in Hr. apply in_range_inv_cons in Hr.
    destruct Hr as (comp & idx' & -> & Hcomp & _). now apply Hget. }
  destruct c; cbn [Dispatch.size Dispatch.one_ Dispatch.mul] in *;
    unfold _Base.one_, _BaseLog.one_, _Base.mul, _BaseLog.mul,
      KLDivergenceSemiring.mul, CrossEntropySemiring.mul,
      EntropySemiring.mul, RiskSemiring.mul, tadd, tmul,
      Semiring.size, KLDivergenceSemiring.size, CrossEntropySemiring.size,
      EntropySemiring.size, RiskSemiring.size in *.
  - apply Hfill, s_mul_1_l.
  - apply Hfill, s_add_0_l.
  - apply Hfill, s_add_0_l.
  - exfalso. now apply (Hc k).
  - unfold KLDivergenceSemiring.one_.
    step_on_select 3 s 0%Z 0. step_on_select 3 s 1%Z 1.
    step_on_select 3 s 2%Z 2.
    match goal with
    | |- exists o r, Ok ?t = Ok o /\ _ =>
        destruct (Hzero 3 t eq_refl) as (r & Hr & Heq);
        [ intros comp idx Hcomp; destruct comp as [| [| [| comp]]];
          try lia; reflexivity
        | reflexivity
        | exists t, r; auto ]
    end.
  - unfold CrossEntropySemiring.one_.
    step_on_select 3 s 0%Z 0. step_on_select 3 s 1%Z 1.
    step_on_select 3 s 2%Z 2.
    match goal with
    | |- exists o r, Ok ?t = Ok o /\ _ =>
        destruct (Hzero 3 t eq_refl) as (r & Hr & Heq);
        [ intros comp idx Hcomp; destruct comp as [| [| [| comp]]];
          try lia; reflexivity
        | reflexivity
        | exists t, r; auto ]
    end.
  - unfold EntropySemiring.one_.
    step_on_select 2 s 0%Z 0. step_on_select 2 s 1%Z 1.
    match goal with
    | |- exists o r, Ok ?t = Ok o /\ _ =>
        destruct (Hzero 2 t eq_refl) as (r & Hr & Heq);
        [ intros comp idx Hcomp; destruct comp as [| [| comp]];
          try lia; reflexivity
        | reflexivity
        | exists t, r; auto ]
    end.
  - apply Hfill, s_add_0_l.
  - unfold RiskSemiring.one_.
    step_on_select 3 s 0%Z 0. step_on_select 3 s 1%Z 1.
    step_on_select 3 s 2%Z 2.
    match goal with
    | |- exists o r, Ok ?t = Ok o /\ _ =>
        destruct (Hzero 3 t eq_refl) as (r & Hr & Heq);
        [ intros comp idx Hcomp; destruct comp as [| [| [| comp]]];
          try lia; reflexivity
        | reflexivity
        | exists t, r; auto ]
    end.
Qed.

End IdentityProofs.

Section KMaxIdentity.
Context {A : Type} {SA : Scalar A} {SO : ScalarOrder A} {SL : ScalarLaws A}.

Lemma column_nth (k : nat) (t : tensor A) (idx : list nat) (i : nat) :
  i < k -> nth i (column k t idx) s_zero = tget t (i :: idx).
Proof.
  intros Hi. unfold column.
  rewrite (nth_indep _ s_zero (tget t (0 :: idx)))
    by (rewrite length_map, length_seq; exact Hi).
  rewrite (map_nth (fun i => tget t (i :: idx)) (seq 0 k) 0 i).
  now rewrite seq_nth.
Qed.

Lemma KMax_one_mul (k : nat) (x y : tensor A) (s : list nat) :
  1 <= k -> shape y = k :: s -> shape x = shape y ->
  (forall idx, in_range s idx ->
     sorted_desc (column k y idx) /\
     forall i j, i < k -> j < k ->
       ge (tget y (i :: idx)) (s_add NEGINF (tget y (j :: idx)))) ->
  exists o r,
    KMaxSemiring.one_ x = Ok o /\ KMaxSemiring.mul k o y = Ok r /\
    teq r y.
Proof.
  intros Hk Hy Hx Hsorted. rewrite Hy in Hx.
  unfold KMaxSemiring.one_, _BaseLog.zero_. cbn [bind].
  step_on_select k s 0%Z 0.
  match goal with
  | |- exists o r, Ok ?t = Ok o /\ _ => set (o := t)
  end.
  destruct (@KMax_mul_at _ _ k o y s eq_refl Hy) as (r & Hmul & Hsh & Hget).
  exists o, r. split; [reflexivity |]. split; [exact Hmul |].
  split; [congruence |].
  intros idx Hr. rewrite Hsh in Hr. apply in_range_inv_cons in Hr.
  destruct Hr as (i & idx' & -> & Hi & Hr).
  destruct (Hsorted idx' Hr) as [Hcol Hneg].
  rewrite (Hget i idx' Hr).
  set (sums := pairwise_sums k (fun i0 => tget o (i0 :: idx'))
                 (fun j => tget y (j :: idx'))).
  assert (Htop : is_top_k k sums (column k y idx')).
  { split; [unfold column; now rewrite length_map, length_seq |].
    split; [exact Hcol |].
    destruct k as [| k']; [lia |].
    exists (flat_map
              (fun i0 => map (fun j => s_add (tget o (i0 :: idx'))
                                         (tget y (j :: idx')))
                           (seq 0 (S k')))
              (seq 1 k')).
    split.
    - unfold sums, pairwise_sums.
      change (seq 0 (S k')) with (0 :: seq 1 k') at 3.
      cbn [flat_map]. apply Permutation_app_tail.
      unfold column. erewrite map_ext; [reflexivity |].
      intros j. cbn. now rewrite s_add_0_l.
    - intros u v Hu Hv. unfold column in Hu.
      apply in_map_iff in Hu. destruct Hu as (i0 & <- & Hi0).
      apply in_seq in Hi0.
      apply in_flat_map in Hv. destruct Hv as (i1 & Hi1 & Hv).
      apply in_seq in Hi1.
      apply in_map_iff in Hv. destruct Hv as (j & <- & Hj).
      apply in_seq in Hj.
      destruct i1 as [| i1]; [lia |]. cbn.
      apply Hneg; lia. }
  assert (Hsort : is_top_k k sums (firstn k (sort_desc sums))).
  { apply firstn_sort_top_k. unfold sums.
    rewrite pairwise_sums_length. nia. }
  pose proof (top_k_unique Hsort Htop) as Heq.
  rewrite <- (column_nth y idx' Hi), <- Heq.
  rewrite nth_firstn.
  destruct (Nat.ltb_spec i k); [reflexivity | lia].
Qed.

End KMaxIdentity.

Section AdditiveIdentity.
Context {A : Type} {SA : Scalar A} {SL : ScalarLaws A}
        {TA : Transcendental A}.

Lemma Std_plus_zero (x y : tensor A) :
  shape x = shape y ->
  exists z r,
    Dispatch.zero_ Std x = Ok z /\
    Dispatch.plus Std z y = Ok (PyTensor r) /\ teq r y.
Proof.
  intros Hx. cbn [Dispatch.zero_]. unfold _Base.zero_.
  destruct (@reduce_stack2 _ lsum (fill_ x s_zero) y)
    as (st & r & Hst & Hred & _ & Hsh & Hget);
    [cbn [shape fill_]; congruence |].
  exists (fill_ x s_zero), r. split; [reflexivity |].
  unfold Dispatch.plus, Semiring.plus. rewrite Hst. cbn [bind Dispatch.sum].
  unfold StdSemiring.sum, tsum. rewrite Hred. split; [reflexivity |].
  split; [rewrite Hsh; exact Hx |].
  intros idx Hr. rewrite Hsh in Hr. rewrite (Hget idx Hr).
  cbn. now rewrite s_add_0_r, s_add_0_l.
Qed.

Lemma Max_plus_zero (x y : tensor A) :
  shape x = shape y ->
  (forall idx, in_range (shape y) idx -> ge (tget y idx) NEGINF) ->
  exists z r,
    Dispatch.zero_ Max x = Ok z /\
    Dispatch.plus Max z y = Ok (PyTensor r) /\ teq r y.
Proof.
  intros Hx Hge. cbn [Dispatch.zero_]. unfold _BaseLog.zero_.
  destruct (@reduce_stack2 _ lmax (fill_ x NEGINF) y)
    as (st & r & Hst & Hred & Hnth & Hsh & Hget);
    [cbn [shape fill_]; congruence |].
  exists (fill_ x NEGINF), r. split; [reflexivity |].
  unfold Dispatch.plus, Semiring.plus. rewrite Hst. cbn [bind Dispatch.sum].
  unfold MaxSemiring.sum, tmax. rewrite wrap_dim_last. cbn [bind].
  rewrite Hnth. cbn [Nat.eqb]. rewrite Hred. split; [reflexivity |].
  split; [rewrite Hsh; exact Hx |].
  intros idx Hr. rewrite Hsh in Hr. rewrite (Hget idx Hr).
  cbn [shape fill_] in Hr. rewrite Hx in Hr.
  cbn. unfold ge in Hge. now rewrite (Hge idx Hr).
Qed.

End AdditiveIdentity.

(** ** The last axis *)

Lemma insert_at_end {T} (x : T) (l : list T) :
  insert_at (length l) x l = l ++ [x].
Proof. unfold insert_at. now rewrite firstn_all, skipn_all. Qed.

Lemma remove_at_end {T} (x : T) (l : list T) :
  remove_at (length l) (l ++ [x]) = l.
Proof.
  unfold remove_at.
  rewrite firstn_app, firstn_all, Nat.sub_diag. cbn [firstn].
  rewrite skipn_all2 by (rewrite length_app; simpl; lia).
  now rewrite !app_nil_r.
Qed.

Lemma set_nth_end (x n : nat) (s : list nat) :
  set_nth (length s) x (s ++ [n]) = s ++ [x].
Proof.
  unfold set_nth.
  rewrite firstn_app, firstn_all, Nat.sub_diag. cbn [firstn].
  rewrite skipn_all2 by (rewrite length_app; simpl; lia).
  now rewrite app_nil_r.
Qed.

Lemma map_nth_seq {T} (d : T) (l : list T) :
  map (fun i => nth i l d) (seq 0 (length l)) = l.
Proof. rewrite map_nth_firstn by lia. apply firstn_all. Qed.

Lemma numel_app (s t : list nat) : numel (s ++ t) = numel s * numel t.
Proof.
  induction s as [| n s IH]; simpl; [lia |]. rewrite IH. lia.
Qed.

Lemma ravel_app : forall s t i j,
  length i = length s ->
  ravel (s ++ t) (i ++ j) = ravel s i * numel t + ravel t j.
Proof.
  induction s as [| n s IH]; intros t [| a i] j Hl; simpl in Hl;
    try discriminate.
  - reflexivity.
  - simpl. rewrite IH by lia. rewrite numel_app. lia.
Qed.

Lemma in_range_app : forall s t i j,
  in_range s i -> in_range t j -> in_range (s ++ t) (i ++ j).
Proof.
  induction s as [| n s IH]; intros t [| a i] j Hi Hj; try discriminate.
  - exact Hj.
  - apply in_range_cons in Hi. destruct Hi as [Ha Hi]. simpl.
    apply in_range_cons. split; [assumption | now apply IH].
Qed.

Lemma index_of_seq : forall len a j tail,
  j < len -> index_of (a + j) (seq a len ++ tail) = j.
Proof.
  induction len as [| len IH]; intros a j tail Hj; [lia |].
  simpl. destruct j as [| j].
  - now rewrite Nat.add_0_r, Nat.eqb_refl.
  - destruct (Nat.eqb_spec a (a + S j)); [lia |].
    f_equal. replace (a + S j) with (S a + j) by lia. apply IH. lia.
Qed.

Lemma index_of_last : forall l x,
  ~ In x l -> index_of x (l ++ [x]) = length l.
Proof.
  induction l as [| y l IH]; intros x Hn; simpl.
  - now rewrite Nat.eqb_refl.
  - destruct (Nat.eqb_spec y x) as [-> | Hne].
    + exfalso. apply Hn. now left.
    + f_equal. apply IH. intros Hin. apply Hn. now right.
Qed.

Lemma is_perm_rotl len : is_perm (seq 1 len ++ [0]) (S len) = true.
Proof.
  unfold is_perm. rewrite length_app, length_seq. simpl length.
  replace (len + 1) with (S len) by lia. rewrite Nat.eqb_refl. cbn [andb].
  apply forallb_forall. intros j Hj. apply in_seq in Hj.
  apply existsb_exists. exists j. split; [| apply Nat.eqb_refl].
  apply in_app_iff. destruct j as [| j]; [right; now left |].
  left. apply in_seq. lia.
Qed.

Lemma is_perm_rotr len : is_perm (len :: seq 0 len) (S len) = true.
Proof.
  unfold is_perm. cbn [length]. rewrite length_seq, Nat.eqb_refl.
  cbn [andb]. apply forallb_forall. intros j Hj. apply in_seq in Hj.
  apply existsb_exists. exists j. split; [| apply Nat.eqb_refl].
  destruct (Nat.eq_dec j len) as [-> | Hne]; [now left |].
  right. apply in_seq. lia.
Qed.

Section LastAxis.
Context {A : Type}.

Lemma permute_rotl (t : tensor A) n0 s' :
  shape t = n0 :: s' ->
  exists r,
    permute t (seq 1 (ndim t - 1) ++ [0]) = Ok r /\
    shape r = s' ++ [n0] /\
    forall i c, length i = length s' -> tget r (i ++ [c]) = tget t (c :: i).
Proof.
  intros Hs. unfold permute, ndim. rewrite Hs. cbn [length].
  replace (S (length s') - 1) with (length s') by lia.
  rewrite is_perm_rotl. eexists. split; [reflexivity |]. split.
  - cbn [shape]. rewrite map_app. cbn [map nth]. f_equal.
    rewrite <- seq_shift, map_map. cbn [nth]. apply map_nth_seq.
  - intros i c Hl. cbn [tget]. f_equal. cbn [seq map]. f_equal.
    + rewrite index_of_last by (rewrite in_seq; lia).
      rewrite length_seq, <- Hl. apply nth_middle.
    + transitivity (map (fun j => nth (j - 1) i 0) (seq 1 (length s'))).
      * apply map_ext_in. intros j Hj. apply in_seq in Hj.
        replace j with (1 + (j - 1)) at 1 by lia.
        rewrite index_of_seq by lia. apply app_nth1. lia.
      * rewrite <- seq_shift, map_map, <- Hl.
        rewrite (map_ext _ (fun j => nth j i 0))
          by (intros j; f_equal; lia).
        apply map_nth_seq.
Qed.

Lemma permute_rotr (t : tensor A) s' n0 :
  shape t = s' ++ [n0] ->
  exists r,
    permute t ((ndim t - 1) :: seq 0 (ndim t - 1)) = Ok r /\
    shape r = n0 :: s' /\
    forall i c, length i = length s' -> tget r (c :: i) = tget t (i ++ [c]).
Proof.
  intros Hs. unfold permute, ndim. rewrite Hs, length_app. cbn [length].
  replace (length s' + 1 - 1) with (length s') by lia.
  replace (length s' + 1) with (S (length s')) by lia.
  rewrite is_perm_rotr. eexists. split; [reflexivity |]. split.
  - cbn [shape map]. f_equal; [apply nth_middle |].
    transitivity (map (fun j => nth j s' 0) (seq 0 (length s')));
      [| apply map_nth_seq].
    apply map_ext_in. intros j Hj. apply in_seq in Hj.
    apply app_nth1. lia.
  - intros i c Hl. cbn [tget]. f_equal.
    rewrite seq_S, map_app. cbn [map plus]. f_equal.
    + transitivity (map (fun j => nth j i 0) (seq 0 (length i)));
        [| apply map_nth_seq].
      rewrite Hl. apply map_ext_in. intros j Hj. apply in_seq in Hj.
      cbn [index_of]. destruct (Nat.eqb_spec (length s') j); [lia |].
      rewrite <- (app_nil_r (seq 0 (length s'))).
      change j with (0 + j) at 1. rewrite index_of_seq by lia.
      reflexivity.
    + cbn [index_of]. now rewrite Nat.eqb_refl.
Qed.

Lemma view_drop_unit (t : tensor A) s a :
  shape t = s ++ [a; 1] -> 0 < numel s ->
  exists r,
    view t (map Z.of_nat (firstn (ndim t - 2) (shape t)) ++ [(-1)%Z])
    = Ok r /\
    shape r = s ++ [a] /\
    forall i j, in_range s i -> j < a ->
      tget r (i ++ [j]) = tget t (i ++ [j; 0]).
Proof.
  intros Hs Hpos. unfold view, ndim. rewrite Hs, length_app. cbn [length].
  replace (length s + 2 - 2) with (length s) by lia.
  rewrite firstn_app, firstn_all, Nat.sub_diag. cbn [firstn].
  rewrite app_nil_r, existsb_app, existsb_of_nat_neg. cbn [existsb orb].
  rewrite count_occ_app, count_occ_of_nat_neg. cbn [count_occ].
  destruct (Z.eq_dec (-1) (-1)); [| congruence]. cbn [plus].
  rewrite fold_right_app. cbn [fold_right]. rewrite known_of_nat.
  rewrite numel_app. cbn [numel fold_right].
  replace (numel s * (a * (1 * 1))) with (a * numel s) by lia.
  destruct (Nat.eqb_spec (numel s) 0); [lia |].
  rewrite Nat.Div0.mod_mul, Nat.div_mul by lia. cbn [orb negb Nat.eqb].
  rewrite map_app, map_map. cbn [map]. rewrite Z.eqb_refl.
  rewrite (map_ext_in _ (fun x => x)), map_id.
  2: { intros x _. destruct (Z.eqb_spec (Z.of_nat x) (-1)); [lia |].
       apply Nat2Z.id. }
  eexists. split; [reflexivity |]. split; [reflexivity |].
  intros i j Hi Hj. unfold reshape. cbn [tget shape]. rewrite Hs. f_equal.
  pose proof (in_range_length Hi) as Hl.
  rewrite (ravel_app s [a] i [j] Hl).
  replace (ravel s i * numel [a] + ravel [a] [j])
    with (ravel (s ++ [a; 1]) (i ++ [j; 0]))
    by (rewrite (ravel_app s [a; 1] i [j; 0] Hl); simpl; lia).
  apply unravel_ravel. apply in_range_app; [assumption |].
  apply in_range_cons. split; [assumption |].
  apply in_range_cons. split; [lia | reflexivity].
Qed.

Context {SA : Scalar A}.

Lemma topk_at (t : tensor A) k dim d :
  shape t <> [] -> wrap_dim dim (ndim t) = Ok d ->
  k <= nth d (shape t) 0 ->
  topk t k dim =
  Ok (mkT (set_nth d k (shape t))
        (fun idx => nth (nth d idx 0)
                      (sort_desc (lane t d (remove_at d idx))) s_zero)).
Proof.
  intros Hne Hw Hk. unfold topk. rewrite Hw. cbn [bind].
  apply Nat.leb_le in Hk. rewrite Hk.
  destruct (shape t); [congruence | reflexivity].
Qed.

Lemma topk_last (t : tensor A) s n k :
  shape t = s ++ [n] -> k <= n ->
  exists r,
    topk t k (-1) = Ok r /\
    shape r = s ++ [k] /\
    forall i c, length i = length s ->
      tget r (i ++ [c])
      = nth c (sort_desc (map (fun j => tget t (i ++ [j])) (seq 0 n)))
          s_zero.
Proof.
  intros Hs Hk.
  assert (Hw : wrap_dim (-1) (ndim t) = Ok (length s)).
  { rewrite wrap_dim_last. unfold ndim. rewrite Hs, length_app.
    cbn [length]. f_equal. lia. }
  rewrite (@topk_at t k (-1)%Z (length s));
    [| rewrite Hs; destruct s; discriminate | exact Hw
     | rewrite Hs, nth_middle; exact Hk ].
  eexists. split; [reflexivity |].
  split; [cbn [shape]; rewrite Hs; apply set_nth_end |].
  intros i c Hl. cbn [tget]. rewrite <- Hl.
  rewrite nth_middle, remove_at_end. unfold lane. rewrite Hs, Hl, nth_middle.
  f_equal. f_equal. apply map_ext. intros j.
  rewrite <- Hl. now rewrite insert_at_end.
Qed.

Lemma tmax_last (t : tensor A) s n :
  shape t = s ++ [n] -> 0 < n ->
  exists r,
    tmax t (-1) = Ok r /\
    shape r = s /\
    forall i, length i = length s ->
      tget r i = lmax (map (fun j => tget t (i ++ [j])) (seq 0 n)).
Proof.
  intros Hs Hn. unfold tmax.
  assert (Hw : wrap_dim (-1) (ndim t) = Ok (length s)).
  { rewrite wrap_dim_last. unfold ndim. rewrite Hs, length_app.
    cbn [length]. f_equal. lia. }
  rewrite Hw. cbn [bind]. rewrite Hs, nth_middle.
  destruct (Nat.eqb_spec n 0); [lia |].
  rewrite (@reduce_dim_at _ lmax t (-1)%Z (length s));
    [| rewrite Hs; destruct s; discriminate | exact Hw].
  eexists. split; [reflexivity |].
  split; [cbn [shape]; rewrite Hs; apply remove_at_end |].
  intros i Hl. cbn [tget]. unfold lane. rewrite Hs, nth_middle.
  f_equal. apply map_ext. intros j.
  rewrite <- Hl. now rewrite insert_at_end.
Qed.

End LastAxis.

(** ** K-Max with one slot *)

Section KMaxOne.
Context {A : Type} {SA : Scalar A} {SO : ScalarOrder A}.

Lemma fold_max_spec : forall (r : list A) (m : A),
  let M := fold_left (fun m y => if s_leb m y then y else m) r m in
  In M (m :: r) /\ forall y, In y (m :: r) -> ge M y.
Proof.
  induction r as [| y r IH]; intros m; cbn zeta; cbn [fold_left].
  - split; [now left |]. intros y [<- | []]. apply ge_refl.
  - specialize (IH (if s_leb m y then y else m)). cbn zeta in IH.
    destruct IH as [Hin Hge].
    set (m' := if s_leb m y then y else m) in *.
    set (M := fold_left _ r m') in *.
    assert (Hm' : ge m' m /\ ge m' y /\ (m' = m \/ m' = y)).
    { unfold m'. destruct (s_leb m y) eqn:Hmy.
      - repeat split; [exact Hmy | apply ge_refl | now right].
      - repeat split; [apply ge_refl | | now left].
        unfold ge. destruct (s_leb_total m y); [congruence | assumption]. }
    destruct Hm' as (Hm & Hy & Hcase).
    assert (HMm' : ge M m') by (apply Hge; now left).
    split.
    + destruct Hin as [Hin | Hin].
      * rewrite <- Hin. destruct Hcase as [-> | ->];
          [now left | right; now left].
      * right. now right.
    + intros z [<- | [<- | Hz]].
      * now apply ge_trans with m'.
      * now apply ge_trans with m'.
      * apply Hge. now right.
Qed.

(** The first element of the sorted list is the maximum. *)
Lemma hd_sort_desc_lmax (l : list A) :
  l <> [] -> nth 0 (sort_desc l) s_zero = lmax l.
Proof.
  intros Hne.
  pose proof (sort_desc_perm l) as Hp.
  pose proof (sort_desc_sorted l) as Hs.
  destruct (sort_desc l) as [| a L] eqn:HL.
  { apply Permutation_nil in Hp. congruence. }
  cbn [nth].
  destruct l as [| x r]; [congruence |].
  unfold lmax. destruct (fold_max_spec r x) as [Hin Hge].
  set (M := fold_left _ r x) in *.
  inversion Hs as [| ? ? _ Hall]; subst.
  rewrite Forall_forall in Hall.
  apply s_leb_antisym.
  - apply Hge. apply (Permutation_in _ Hp). now left.
  - assert (HM : In M (a :: L))
      by (apply (Permutation_in _ (Permutation_sym Hp)); exact Hin).
    destruct HM as [<- | HM]; [apply ge_refl | now apply Hall].
Qed.

Lemma unconvert_agree (r r' : tensor A) (s : list nat) :
  shape r = 1 :: s -> teq r r' ->
  exists u u',
    Dispatch.unconvert (KMax 1) r = Ok u /\
    Dispatch.unconvert Max r' = Ok u' /\ teq u u'.
Proof.
  intros Hs [Hsh Hget]. cbn [Dispatch.unconvert].
  unfold KMaxSemiring.unconvert, Semiring.unconvert, squeeze.
  rewrite (@select_at _ r 1 s 0%Z 0 Hs) by (lia || reflexivity).
  rewrite wrap_dim_0. cbn [bind]. rewrite <- Hsh, Hs. cbn [nth Nat.eqb].
  eexists. eexists. split; [reflexivity |]. split; [reflexivity |].
  split; [reflexivity |]. cbn [shape tget]. intros idx Hr.
  apply Hget. rewrite Hs. apply in_range_cons. split; [lia | assumption].
Qed.

Lemma KMax1_sum_Max (xs : tensor A) (s : list nat) (n : nat) :
  shape xs = 1 :: s ++ [n] -> 0 < numel s -> 0 < n ->
  exists r r',
    KMaxSemiring.sum 1 xs (-1) = Ok r /\
    MaxSemiring.sum xs (-1) = Ok r' /\
    shape r = 1 :: s /\ teq r r'.
Proof.
  intros Hs Hpos Hn.
  destruct (@permute_rotl _ xs 1 (s ++ [n]) Hs) as (p1 & H1 & Hsh1 & Hg1).
  rewrite <- app_assoc in Hsh1. cbn [app] in Hsh1.
  destruct (@view_drop_unit _ p1 s n Hsh1 Hpos)
    as (p2 & H2 & Hsh2 & Hg2).
  destruct (@topk_last _ _ p2 s n 1 Hsh2 Hn) as (p3 & H3 & Hsh3 & Hg3).
  destruct (@permute_rotr _ p3 s 1 Hsh3) as (r & H4 & Hsh4 & Hg4).
  destruct (@tmax_last _ _ xs (1 :: s) n Hs Hn) as (r' & H5 & Hsh5 & Hg5).
  exists r, r'. unfold KMaxSemiring.sum, MaxSemiring.sum.
  rewrite Z.eqb_refl, H1. cbn [bind]. rewrite H2. cbn [bind].
  rewrite H3. cbn [bind]. rewrite H4. cbn [bind].
  rewrite Hsh4. cbn [hd Nat.eqb assert bind].
  split; [reflexivity |]. split; [exact H5 |]. split; [reflexivity |].
  split; [congruence |].
  intros idx Hr. rewrite Hsh4 in Hr. apply in_range_inv_cons in Hr.
  destruct Hr as (c & i & -> & Hc & Hi).
  assert (c = 0) by lia. subst c.
  pose proof (in_range_length Hi) as Hl.
  rewrite (Hg4 i 0 Hl), (Hg3 i 0 Hl).
  rewrite (Hg5 (0 :: i)) by (cbn [length]; now rewrite Hl).
  rewrite hd_sort_desc_lmax by (destruct n; [lia | discriminate]).
  f_equal. apply map_ext_in. intros j Hj. apply in_seq in Hj.
  rewrite (Hg2 i j Hi) by lia.
  change (i ++ [j; 0]) with (i ++ [j] ++ [0]). rewrite app_assoc.
  apply Hg1. rewrite !length_app. cbn [length]. lia.
Qed.

Lemma KMax1_mul_Max (a b : tensor A) (s : list nat) :
  shape a = 1 :: s -> shape b = 1 :: s ->
  exists r r',
    KMaxSemiring.mul 1 a b = Ok r /\
    Dispatch.mul Max a b = Ok r' /\
    shape r = 1 :: s /\ teq r r'.
Proof.
  intros Ha Hb.
  destruct (@KMax_mul_at _ _ 1 a b s Ha Hb) as (r & Hmul & Hsh & Hget).
  cbn [Dispatch.mul]. unfold _BaseLog.mul, tadd.
  rewrite (@binop_at _ s_add a b (1 :: s))
    by (rewrite Ha, Hb; apply bshape_refl).
  exists r. eexists. split; [exact Hmul |]. split; [reflexivity |].
  split; [exact Hsh |]. split; [exact Hsh |].
  intros idx Hr. rewrite Hsh in Hr. pose proof Hr as Hr'.
  apply in_range_inv_cons in Hr.
  destruct Hr as (c & i & -> & Hc & Hi).
  assert (c = 0) by lia. subst c.
  rewrite (Hget 0 i Hi). cbn [tget]. rewrite Ha, Hb, (bidx_id Hr').
  reflexivity.
Qed.

End KMaxOne.

(** C6.  With one slot, K-Max reduces and multiplies as Max does: on a
    value with one component, non-empty batch axes and a non-empty last
    axis, [KMaxSemiring(1).sum] over the last axis and [MaxSemiring.sum]
    return equal tensors, and on two values of the same shape so do the
    two [mul]; the unconverted results are equal as well. *)
Theorem KMax1_agrees_with_Max {A} {SA : Scalar A} {SO : ScalarOrder A} :
  (forall (xs : tensor A) s n,
     shape xs = 1 :: s ++ [n] -> 0 < numel s -> 0 < n ->
     exists r r',
       KMaxSemiring.sum 1 xs (-1) = Ok r /\
       MaxSemiring.sum xs (-1) = Ok r' /\
       teq r r' /\
       exists u u',
         Dispatch.unconvert (KMax 1) r = Ok u /\
         Dispatch.unconvert Max r' = Ok u' /\ teq u u') /\
  (forall (a b : tensor A) s,
     shape a = 1 :: s -> shape b = 1 :: s ->
     exists r r',
       Dispatch.mul (KMax 1) a b = Ok r /\
       Dispatch.mul Max a b = Ok r' /\
       teq r r' /\
       exists u u',
         Dispatch.unconvert (KMax 1) r = Ok u /\
         Dispatch.unconvert Max r' = Ok u' /\ teq u u').
Proof.
  split.
  - intros xs s n Hs Hpos Hn.
    destruct (@KMax1_sum_Max _ _ _ xs s n Hs Hpos Hn)
      as (r & r' & Hr & Hr' & Hsh & Heq).
    exists r, r'. repeat (split; [assumption |]).
    apply unconvert_agree with s; assumption.
  - intros a b s Ha Hb.
    destruct (@KMax1_mul_Max _ _ a b s Ha Hb)
      as (r & r' & Hr & Hr' & Hsh & Heq).
    exists r, r'. repeat (split; [assumption |]).
    apply unconvert_agree with s; assumption.
Qed.

Lemma KMax1_agrees_with_Max_witness :
  (exists r r',
     KMaxSemiring.sum 1 (of_flat 0%Z [1; 2; 3] [1; 5; 3; 4; 2; 6]%Z) (-1)
     = Ok r /\
     MaxSemiring.sum (of_flat 0%Z [1; 2; 3] [1; 5; 3; 4; 2; 6]%Z) (-1)
     = Ok r' /\
     teq r r') /\
  (exists r r',
     Dispatch.mul (KMax 1) (of_flat 0%Z [1; 2] [1; 5]%Z)
       (of_flat 0%Z [1; 2] [3; 4]%Z) = Ok r /\
     Dispatch.mul Max (of_flat 0%Z [1; 2] [1; 5]%Z)
       (of_flat 0%Z [1; 2] [3; 4]%Z) = Ok r' /\
     teq r r').
Proof.
  destruct (@KMax1_agrees_with_Max Z _ _) as [Hsum Hmul].
  split.
  - destruct (Hsum (of_flat 0%Z [1; 2; 3] [1; 5; 3; 4; 2; 6]%Z) [2] 3
                eq_refl) as (r & r' & H1 & H2 & H3 & _);
      [simpl; lia | lia |].
    exists r, r'. auto.
  - destruct (Hmul (of_flat 0%Z [1; 2] [1; 5]%Z)
                (of_flat 0%Z [1; 2] [3; 4]%Z) [2] eq_refl eq_refl)
      as (r & r' & H1 & H2 & H3 & _).
    exists r, r'. auto.
Defined.

(** ** Remarks on the edges of the statements *)

(** On a value with at least one structure axis, a positive [dim] beyond
    the last axis is rejected by every expectation semiring. *)
Lemma Expectation_sum_rejects {A} {SA : Scalar A} {TA : Transcendental A}
    (c : semiring A) (xs : tensor A) (s : list nat) (dim : Z) :
  is_expectation c = true ->
  shape xs = Dispatch.size c :: s -> s <> [] ->
  (Z.of_nat (length s) < dim)%Z ->
  Dispatch.sum c xs dim = Raise IndexError.
Proof.
  intros Hc Hs Hne Hdim.
  assert (Hlen : 1 <= length s) by (destruct s; [congruence | simpl; lia]).
  assert (Ha : assert (negb (dim =? 0)%Z) = Ok tt).
  { destruct (Z.eqb_spec dim 0); [lia | reflexivity]. }
  assert (Hg : (dim >? 0)%Z = true).
  { destruct (Z.gtb_spec dim 0); [reflexivity | lia]. }
  assert (Hlse : logsumexp (mkT s (fun idx => tget xs (0 :: idx))) (dim - 1)
                 = Raise IndexError).
  { unfold logsumexp, reduce_dim. rewrite wrap_dim_out; [reflexivity |].
    unfold ndim. cbn [shape]. lia. }
  destruct c; try discriminate Hc; cbn [Dispatch.sum Dispatch.size] in *;
    unfold KLDivergenceSemiring.sum, CrossEntropySemiring.sum,
      EntropySemiring.sum, RiskSemiring.sum,
      KLDivergenceSemiring.size, CrossEntropySemiring.size,
      EntropySemiring.size, RiskSemiring.size in *;
    rewrite Ha, Hg; cbn [bind];
    rewrite (@select_at _ xs _ s 0%Z 0 Hs) by (lia || reflexivity);
    cbn [bind]; rewrite Hlse; reflexivity.
Qed.

(** In exact arithmetic the sentinel is not an exact zero of the Log
    semiring: [plus (zero_ x) y] exceeds [y] by
    [ln (1 + exp (NEGINF - y))], which lies strictly between 0 and
    [exp (NEGINF - y)]. *)
Lemma Log_plus_zero_bound (x y : tensor R) :
  shape x = shape y ->
  exists z r,
    Dispatch.zero_ Log x = Ok z /\
    Dispatch.plus Log z y = Ok (PyTensor r) /\
    shape r = shape y /\
    forall idx, in_range (shape y) idx ->
      (tget r idx = tget y idx + ln (1 + exp (NEGINF - tget y idx)) /\
       tget y idx < tget r idx < tget y idx + exp (NEGINF - tget y idx))%R.
Proof.
  intros Hx. cbn [Dispatch.zero_]. unfold _BaseLog.zero_.
  destruct (@reduce_stack2 _ lse (fill_ x NEGINF) y)
    as (st & r & Hst & Hred & _ & Hsh & Hget);
    [cbn [shape fill_]; congruence |].
  exists (fill_ x NEGINF), r. split; [reflexivity |].
  unfold Dispatch.plus, Semiring.plus. rewrite Hst. cbn [bind Dispatch.sum].
  unfold _BaseLog.sum, logsumexp. rewrite Hred. split; [reflexivity |].
  split; [rewrite Hsh; exact Hx |].
  intros idx Hr. cbn [shape fill_] in Hget. rewrite <- Hx in Hr.
  rewrite (Hget idx Hr). cbn [fill_ tget].
  set (v := tget y idx). set (N := NEGINF).
  change (lse [N; v]) with (ln (exp N + (exp v + 0)))%R.
  set (e := exp (N - v)).
  assert (He : (0 < e)%R) by apply exp_pos.
  assert (Hsplit : (exp N + (exp v + 0) = exp v * (1 + e))%R).
  { unfold e, Rminus. rewrite exp_plus, exp_Ropp.
    pose proof (exp_pos v). field. lra. }
  rewrite Hsplit, ln_mult, ln_exp by (try apply exp_pos; lra).
  split; [reflexivity |].
  assert (Hlo : (0 < ln (1 + e))%R).
  { rewrite <- ln_1. apply ln_increasing; lra. }
  assert (Hhi : (ln (1 + e) < e)%R).
  { rewrite <- (ln_exp e) at 2. apply ln_increasing; [lra |].
    apply exp_ineq1. lra. }
  lra.
Qed.

(** [convert] accepts every tensor (every pair of tensors of one shape, for
    the semirings with two input streams); K-Max needs at least one slot. *)
Lemma convert_accepts {A} {SA : Scalar A}
    (c : semiring A) (p q : tensor A) :
  shape q = shape p ->
  match c with KMax k => 1 <= k | _ => True end ->
  exists v, Dispatch.convert c (convert_input c p q) = Ok v.
Proof.
  intros Hq Hc.
  assert (Hthree :
            exists v,
              (xs0 <- getitem (PList [p; q]) 0 ;;
               let values := zeros (3 :: shape xs0) in
               values <- set_index values 0 xs0 ;;
               xs1 <- getitem (PList [p; q]) 1 ;;
               values <- set_index values 1 xs1 ;;
               values <- set_index values 2 (scalar_t s_zero) ;;
               Ok values) = Ok v).
  { change (getitem (PList [p; q]) 0) with (Ok p).
    change (getitem (PList [p; q]) 1) with (Ok q).
    cbn [bind]. cbv zeta.
    rewrite (@set_index_at _ (zeros (3 :: shape p)) p 3 (shape p) 0%Z 0)
      by (lia || reflexivity || apply expandable_refl).
    cbn [bind].
    match goal with
    | |- context [set_index ?t 1 q] =>
        rewrite (@set_index_at _ t q 3 (shape p) 1%Z 1)
          by (lia || reflexivity || (rewrite Hq; apply expandable_refl))
    end.
    cbn [bind].
    match goal with
    | |- context [set_index ?t 2 ?w] =>
        rewrite (@set_index_at _ t w 3 (shape p) 2%Z 2)
          by (lia || reflexivity || apply expandable_nil)
    end.
    cbn [bind]. eauto. }
  destruct c; cbn [Dispatch.convert convert_input]; try exact Hthree.
  1-3, 6: unfold Semiring.convert; rewrite unsqueeze_0; eauto.
  - unfold KMaxSemiring.convert, _BaseLog.zero_. cbn [bind].
    rewrite (@set_index_at _ (fill_ (zeros (k :: shape p)) NEGINF) p k
               (shape p) 0%Z 0)
      by (lia || reflexivity || apply expandable_refl).
    eauto.
  - unfold EntropySemiring.convert.
    rewrite (@set_index_at _ (zeros (2 :: shape p)) p 2 (shape p) 0%Z 0)
      by (lia || reflexivity || apply expandable_refl).
    cbn [bind].
    match goal with
    | |- context [set_index ?t 1 ?w] =>
        rewrite (@set_index_at _ t w 2 (shape p) 1%Z 1)
          by (lia || reflexivity || apply expandable_nil)
    end.
    cbn [bind]. eauto.
Qed.

(** * Further properties *)

#[export] Instance Z_ScalarRing : ScalarRing Z.
Proof.
  split; cbn [s_add s_mul s_one s_leb Z_Scalar]; intros.
  - apply Z.add_assoc.
  - apply Z.add_comm.
  - apply Z.mul_assoc.
  - apply Z.mul_1_r.
  - apply Z.mul_add_distr_l.
  - apply Z.leb_le. apply Z.leb_le in H. lia.
Qed.

#[export] Instance R_ScalarRing : ScalarRing R.
Proof.
  split; cbn [s_add s_mul s_one s_leb R_Scalar]; intros.
  - symmetry. apply Rplus_assoc.
  - apply Rplus_comm.
  - symmetry. apply Rmult_assoc.
  - apply Rmult_1_r.
  - apply Rmult_plus_distr_l.
  - apply Rleb_le. apply Rleb_le in H. lra.
Qed.

(** ** Cross-Entropy and Entropy: the reduction rules over the reals *)

Section RealSpecMore.
Open Scope R_scope.

Lemma ce_stat_spec n (p q st : nat -> R) :
  ce_stat n p q st
  = Rsum n (fun j => softmax n p j * (st j - log_softmax n q j)).
Proof.
  unfold ce_stat, Rsum. rewrite !lse_spec. cbv zeta.
  f_equal. apply map_ext_in. intros j Hj. apply in_seq in Hj.
  simpl. rewrite exp_log_softmax by lia.
  unfold log_softmax, logsumexp_spec. ring.
Qed.

Lemma entropy_stat_spec n (p st : nat -> R) :
  entropy_stat n p st
  = Rsum n (fun j => softmax n p j * (st j - log_softmax n p j)).
Proof.
  unfold entropy_stat, Rsum. rewrite !lse_spec. cbv zeta.
  f_equal. apply map_ext_in. intros j Hj. apply in_seq in Hj.
  simpl. rewrite exp_log_softmax by lia.
  unfold log_softmax, logsumexp_spec. ring.
Qed.

Lemma Rsum_ext n (f g : nat -> R) :
  (forall j, (j < n)%nat -> f j = g j) -> Rsum n f = Rsum n g.
Proof.
  intros Hfg. unfold Rsum. f_equal. apply map_ext_in.
  intros j Hj. apply in_seq in Hj. apply Hfg. lia.
Qed.

Lemma Rsum_S n (f : nat -> R) : Rsum (S n) f = Rsum n f + f n.
Proof.
  unfold Rsum. rewrite seq_S, map_app. cbn [plus map].
  generalize (map f (seq 0 n)). intros l.
  induction l as [| x l IH]; simpl in *; [lra |]. rewrite IH. lra.
Qed.

Lemma Rsum_const n (a : R) : Rsum n (fun _ => a) = INR n * a.
Proof.
  induction n as [| n IH]; [unfold Rsum; simpl; lra |].
  rewrite Rsum_S, IH, S_INR. lra.
Qed.

Lemma Rsum_scal n (a : R) (f : nat -> R) :
  Rsum n (fun j => a * f j) = a * Rsum n f.
Proof.
  induction n as [| n IH]; [unfold Rsum; simpl; lra |].
  rewrite !Rsum_S, IH. lra.
Qed.

Lemma Rsum_plus n (f g : nat -> R) :
  Rsum n (fun j => f j + g j) = Rsum n f + Rsum n g.
Proof.
  induction n as [| n IH]; [unfold Rsum; simpl; lra |].
  rewrite !Rsum_S, IH. lra.
Qed.

(** The softmax weights of a non-empty lane add up to one. *)
Lemma softmax_sum_one n (p : nat -> R) :
  (0 < n)%nat -> Rsum n (softmax n p) = 1.
Proof.
  intros Hn. pose proof (Rsum_exp_pos p Hn) as Hpos.
  unfold softmax.
  rewrite (@Rsum_ext n _ (fun j => / Rsum n (fun i => exp (p i))
                                   * exp (p j)))
    by (intros j _; unfold Rdiv; ring).
  rewrite Rsum_scal. field. lra.
Qed.

Lemma softmax_pos n (p : nat -> R) j : (j < n)%nat -> 0 < softmax n p j.
Proof.
  intros Hj. unfold softmax.
  apply Rdiv_lt_0_compat; [apply exp_pos |].
  apply Rsum_exp_pos. lia.
Qed.

End RealSpecMore.

(** X1.  On a Cross-Entropy value and any reduction axis of the
    components, in either spelling, [sum] returns the two log-partitions
    and [sum_j softmax(p)_j * (stat_j - log_softmax(q)_j)]. *)
Theorem CrossEntropy_sum_softmax (xs : tensor R) (n : nat) (s : list nat)
    (dim : Z) :
  shape xs = n :: s -> 3 <= n -> valid_axis dim (length s) ->
  let d := comp_axis dim (length s) in
  exists r,
    CrossEntropySemiring.sum xs dim = Ok r /\
    shape r = 3 :: remove_at d s /\
    forall idx, in_range (remove_at d s) idx ->
      let m := nth d s 0 in
      let p := fun j => tget xs (0 :: insert_at d j idx) in
      let q := fun j => tget xs (1 :: insert_at d j idx) in
      let st := fun j => tget xs (2 :: insert_at d j idx) in
      tget r (0 :: idx) = logsumexp_spec m p /\
      tget r (1 :: idx) = logsumexp_spec m q /\
      tget r (2 :: idx)
      = Rsum m (fun j => softmax m p j * (st j - log_softmax m q j))%R.
Proof.
  intros Hs Hn Hv d.
  destruct (@CrossEntropy_sum_at _ _ _ xs n s dim Hs Hn Hv)
    as (r & Hsum & Hsh & Hel).
  exists r. split; [exact Hsum |]. split; [exact Hsh |].
  intros idx Hr m p q st. destruct (Hel idx Hr) as (H0 & H1 & H2).
  fold d in H0, H1, H2. fold m p q st in H0, H1, H2.
  rewrite H0, H1, H2, !lse_spec, ce_stat_spec. auto.
Qed.

Lemma CrossEntropy_sum_softmax_witness :
  exists r,
    CrossEntropySemiring.sum (mkT [3; 2] (fun _ => 0%R)) (-1) = Ok r /\
    shape r = [3].
Proof.
  destruct (@CrossEntropy_sum_softmax (mkT [3; 2] (fun _ => 0%R)) 3 [2] (-1)
              eq_refl (le_n 3))
    as (r & Hsum & Hsh & _).
  - unfold valid_axis. simpl. lia.
  - exists r. split; assumption.
Defined.

(** X2.  On an Entropy value and any reduction axis of the components, in
    either spelling, [sum] returns the log-partition and
    [sum_j softmax(p)_j * (stat_j - log_softmax(p)_j)]. *)
Theorem Entropy_sum_softmax (xs : tensor R) (n : nat) (s : list nat)
    (dim : Z) :
  shape xs = n :: s -> 2 <= n -> valid_axis dim (length s) ->
  let d := comp_axis dim (length s) in
  exists r,
    EntropySemiring.sum xs dim = Ok r /\
    shape r = 2 :: remove_at d s /\
    forall idx, in_range (remove_at d s) idx ->
      let m := nth d s 0 in
      let p := fun j => tget xs (0 :: insert_at d j idx) in
      let st := fun j => tget xs (1 :: insert_at d j idx) in
      tget r (0 :: idx) = logsumexp_spec m p /\
      tget r (1 :: idx)
      = Rsum m (fun j => softmax m p j * (st j - log_softmax m p j))%R.
Proof.
  intros Hs Hn Hv d.
  destruct (@Entropy_sum_at _ _ _ xs n s dim Hs Hn Hv)
    as (r & Hsum & Hsh & Hel).
  exists r. split; [exact Hsum |]. split; [exact Hsh |].
  intros idx Hr m p st. destruct (Hel idx Hr) as (H0 & H1).
  fold d in H0, H1. fold m p st in H0, H1.
  rewrite H0, H1, !lse_spec, entropy_stat_spec. auto.
Qed.

Lemma Entropy_sum_softmax_witness :
  exists r,
    EntropySemiring.sum (mkT [2; 2] (fun _ => 0%R)) 1 = Ok r /\
    shape r = [2].
Proof.
  destruct (@Entropy_sum_softmax (mkT [2; 2] (fun _ => 0%R)) 2 [2] 1
              eq_refl (le_n 2))
    as (r & Hsum & Hsh & _).
  - unfold valid_axis. simpl. lia.
  - exists r. split; assumption.
Defined.

(** ** From potentials to the statistic: [convert], [sum], [unconvert] *)

Lemma last_axis_valid (s : list nat) (n : nat) :
  valid_axis (-1) (length (s ++ [n])) /\
  comp_axis (-1) (length (s ++ [n])) = length s.
Proof.
  rewrite length_app. cbn [length]. unfold valid_axis, comp_axis.
  split; [lia |].
  destruct (Z.gtb_spec (-1) 0); lia.
Qed.

Section ConvertLayout.
Context {A : Type} {SA : Scalar A}.

(** The value [convert] builds from two input streams. *)
Lemma two_stream_convert_at (p q : tensor A) :
  shape q = shape p ->
  exists v,
    (xs0 <- getitem (PList [p; q]) 0 ;;
     let values := zeros (3 :: shape xs0) in
     values <- set_index values 0 xs0 ;;
     xs1 <- getitem (PList [p; q]) 1 ;;
     values <- set_index values 1 xs1 ;;
     values <- set_index values 2 (scalar_t s_zero) ;;
     Ok values) = Ok v /\
    shape v = 3 :: shape p /\
    forall idx, in_range (shape p) idx ->
      tget v (0 :: idx) = tget p idx /\
      tget v (1 :: idx) = tget q idx /\
      tget v (2 :: idx) = s_zero.
Proof.
  intros Hq.
  change (getitem (PList [p; q]) 0) with (Ok p).
  change (getitem (PList [p; q]) 1) with (Ok q).
  cbn [bind]. cbv zeta.
  rewrite (@set_index_at _ (zeros (3 :: shape p)) p 3 (shape p) 0%Z 0)
    by (lia || reflexivity || apply expandable_refl).
  cbn [bind].
  match goal with
  | |- context [set_index ?t 1 q] =>
      rewrite (@set_index_at _ t q 3 (shape p) 1%Z 1)
        by (lia || reflexivity || (rewrite Hq; apply expandable_refl))
  end.
  cbn [bind].
  match goal with
  | |- context [set_index ?t 2 ?w] =>
      rewrite (@set_index_at _ t w 3 (shape p) 2%Z 2)
        by (lia || reflexivity || apply expandable_nil)
  end.
  cbn [bind]. eexists. split; [reflexivity |]. split; [reflexivity |].
  intros idx Hr. cbn. rewrite Hq, (bidx_id Hr). auto.
Qed.

Lemma Entropy_convert_at (p : tensor A) :
  exists v,
    EntropySemiring.convert (PTensor p) = Ok v /\
    shape v = 2 :: shape p /\
    forall idx, in_range (shape p) idx ->
      tget v (0 :: idx) = tget p idx /\ tget v (1 :: idx) = s_zero.
Proof.
  unfold EntropySemiring.convert.
  rewrite (@set_index_at _ (zeros (2 :: shape p)) p 2 (shape p) 0%Z 0)
    by (lia || reflexivity || apply expandable_refl).
  cbn [bind].
  match goal with
  | |- context [set_index ?t 1 ?w] =>
      rewrite (@set_index_at _ t w 2 (shape p) 1%Z 1)
        by (lia || reflexivity || apply expandable_nil)
  end.
  cbn [bind]. eexists. split; [reflexivity |]. split; [reflexivity |].
  intros idx Hr. cbn. rewrite (bidx_id Hr). auto.
Qed.

Context {TA : Transcendental A}.

Lemma entropy_stat_ext n (p p' st st' : nat -> A) :
  (forall j, j < n -> p j = p' j) -> (forall j, j < n -> st j = st' j) ->
  entropy_stat n p st = entropy_stat n p' st'.
Proof.
  intros Hp Hst. unfold entropy_stat.
  assert (Hl : map p (seq 0 n) = map p' (seq 0 n))
    by (apply map_ext_in; intros j Hj; apply in_seq in Hj; apply Hp; lia).
  rewrite Hl. cbv zeta. f_equal. apply map_ext_in. intros j Hj.
  apply in_seq in Hj. rewrite Hp, Hst by lia. reflexivity.
Qed.

Lemma kl_stat_ext n (p p' q q' st st' : nat -> A) :
  (forall j, j < n -> p j = p' j) -> (forall j, j < n -> q j = q' j) ->
  (forall j, j < n -> st j = st' j) ->
  kl_stat n p q st = kl_stat n p' q' st'.
Proof.
  intros Hp Hq Hst. unfold kl_stat.
  assert (Hl : map p (seq 0 n) = map p' (seq 0 n))
    by (apply map_ext_in; intros j Hj; apply in_seq in Hj; apply Hp; lia).
  assert (Hl' : map q (seq 0 n) = map q' (seq 0 n))
    by (apply map_ext_in; intros j Hj; apply in_seq in Hj; apply Hq; lia).
  rewrite Hl, Hl'. cbv zeta. f_equal. apply map_ext_in. intros j Hj.
  apply in_seq in Hj. rewrite Hp, Hq, Hst by lia. reflexivity.
Qed.

Lemma ce_stat_ext n (p p' q q' st st' : nat -> A) :
  (forall j, j < n -> p j = p' j) -> (forall j, j < n -> q j = q' j) ->
  (forall j, j < n -> st j = st' j) ->
  ce_stat n p q st = ce_stat n p' q' st'.
Proof.
  intros Hp Hq Hst. unfold ce_stat.
  assert (Hl : map p (seq 0 n) = map p' (seq 0 n))
    by (apply map_ext_in; intros j Hj; apply in_seq in Hj; apply Hp; lia).
  assert (Hl' : map q (seq 0 n) = map q' (seq 0 n))
    by (apply map_ext_in; intros j Hj; apply in_seq in Hj; apply Hq; lia).
  rewrite Hl, Hl'. cbv zeta. f_equal. apply map_ext_in. intros j Hj.
  apply in_seq in Hj. rewrite Hp, Hq, Hst by lia. reflexivity.
Qed.

Lemma risk_stat_ext n (p p' c c' st st' : nat -> A) :
  (forall j, j < n -> p j = p' j) -> (forall j, j < n -> c j = c' j) ->
  (forall j, j < n -> st j = st' j) ->
  risk_stat n p c st = risk_stat n p' c' st'.
Proof.
  intros Hp Hc Hst. unfold risk_stat.
  assert (Hl : map p (seq 0 n) = map p' (seq 0 n))
    by (apply map_ext_in; intros j Hj; apply in_seq in Hj; apply Hp; lia).
  rewrite Hl. cbv zeta. f_equal. apply map_ext_in. intros j Hj.
  apply in_seq in Hj. rewrite Hp, Hc, Hst by lia. reflexivity.
Qed.

(** The statistic after [convert], a reduction of the last axis and
    [unconvert], for a semiring [c] with component count [size c]. *)
Lemma expectation_pipeline (c : semiring A) (v : tensor A) s n :
  is_expectation c = true ->
  shape v = Dispatch.size c :: s ++ [n] ->
  exists r u,
    Dispatch.sum c v (-1) = Ok (PyTensor r) /\
    Dispatch.unconvert c r = Ok u /\
    shape u = s /\
    forall i, in_range s i ->
      tget u i
      = sum_elem c n
          (fun comp j => tget v (comp :: insert_at (length s) j i))
          (Dispatch.size c - 1).
Proof.
  intros Hc Hv.
  destruct (last_axis_valid s n) as [Hval Hax].
  destruct (@Expectation_sum_at _ _ _ c v (s ++ [n]) (-1) Hc Hv Hval)
    as (r & Hsum & Hsh & Hel).
  rewrite Hax in Hsh, Hel. rewrite remove_at_end in Hsh, Hel.
  rewrite nth_middle in Hel.
  assert (Hu : exists u, Dispatch.unconvert c r = Ok u /\
                 shape u = s /\
                 forall i, tget u i = tget r (Dispatch.size c - 1 :: i)).
  { destruct c; try discriminate Hc;
      cbn [Dispatch.unconvert Dispatch.size] in *;
      unfold KLDivergenceSemiring.unconvert, CrossEntropySemiring.unconvert,
        EntropySemiring.unconvert, RiskSemiring.unconvert,
        KLDivergenceSemiring.size, CrossEntropySemiring.size,
        EntropySemiring.size, RiskSemiring.size in *;
      try rewrite (select_last r Hsh);
      try rewrite (@select_at _ r 2 s 1%Z 1 Hsh) by (lia || reflexivity);
      eexists; split; try reflexivity; split; reflexivity. }
  destruct Hu as (u & Hu & Hshu & Hget).
  exists r, u. split; [exact Hsum |]. split; [exact Hu |].
  split; [exact Hshu |].
  intros i Hi. rewrite Hget, Hel.
  - reflexivity.
  - destruct c; try discriminate Hc;
      unfold Dispatch.size, KLDivergenceSemiring.size,
        CrossEntropySemiring.size, EntropySemiring.size,
        RiskSemiring.size; lia.
  - exact Hi.
Qed.

End ConvertLayout.

Section EndToEnd.
Open Scope R_scope.

Lemma entropy_uniform_value n (c : R) :
  (0 < n)%nat -> entropy_stat n (fun _ => c) (fun _ => 0) = ln (INR n).
Proof.
  intros Hn. rewrite entropy_stat_spec. unfold softmax, log_softmax.
  rewrite !Rsum_const.
  assert (Hpos : 0 < INR n) by (apply lt_0_INR; exact Hn).
  pose proof (exp_pos c) as Hexp.
  rewrite ln_mult, ln_exp by assumption. field. lra.
Qed.

Lemma lsum_map_zero {T} (f : T -> R) (l : list T) :
  (forall x, f x = 0) -> lsum (map f l) = 0.
Proof.
  intros Hf. induction l as [| x l IH]; simpl in *; [reflexivity |].
  rewrite Hf, IH. lra.
Qed.

Lemma lane_in_range (s : list nat) (n : nat) i j :
  in_range s i -> (j < n)%nat ->
  insert_at (length s) j i = i ++ [j] /\ in_range (s ++ [n]) (i ++ [j]).
Proof.
  intros Hi Hj. split.
  - rewrite <- (in_range_length Hi). apply insert_at_end.
  - apply in_range_app; [exact Hi |].
    apply in_range_cons. split; [exact Hj | reflexivity].
Qed.

End EndToEnd.

(** X3.  Entropy of a uniform distribution: when the potentials are equal
    along the last axis, of length [n >= 1], [convert], [sum] over that
    axis and [unconvert] yield [ln n] at every position. *)
Theorem Entropy_uniform (p : tensor R) (s : list nat) (n : nat)
    (c : list nat -> R) :
  shape p = s ++ [n] -> 0 < n ->
  (forall i j, in_range s i -> j < n -> tget p (i ++ [j]) = c i) ->
  exists v r u,
    Dispatch.convert Entropy (PTensor p) = Ok v /\
    Dispatch.sum Entropy v (-1) = Ok (PyTensor r) /\
    Dispatch.unconvert Entropy r = Ok u /\
    shape u = s /\
    forall i, in_range s i -> tget u i = ln (INR n).
Proof.
  intros Hp Hn Hc.
  destruct (Entropy_convert_at p) as (v & Hcv & Hshv & Hv).
  rewrite Hp in Hshv, Hv.
  destruct (@expectation_pipeline _ _ _ Entropy v s n eq_refl Hshv)
    as (r & u & Hsum & Hu & Hshu & Hget).
  exists v, r, u. repeat (split; [assumption |]).
  intros i Hi. rewrite (Hget i Hi). cbn [sum_elem Dispatch.size].
  rewrite (@entropy_stat_ext _ _ _ n _ (fun _ => c i) _ (fun _ => 0%R)).
  - now apply entropy_uniform_value.
  - intros j Hj. destruct (@lane_in_range s n i j Hi Hj) as [-> Hr].
    destruct (Hv _ Hr) as [-> _]. now apply Hc.
  - intros j Hj. destruct (@lane_in_range s n i j Hi Hj) as [-> Hr].
    destruct (Hv _ Hr) as [_ ->]. reflexivity.
Qed.

Lemma Entropy_uniform_witness :
  exists v r u,
    Dispatch.convert Entropy (PTensor (mkT [4] (fun _ => 2%R))) = Ok v /\
    Dispatch.sum Entropy v (-1) = Ok (PyTensor r) /\
    Dispatch.unconvert Entropy r = Ok u /\
    tget u [] = ln 4.
Proof.
  destruct (@Entropy_uniform (mkT [4] (fun _ => 2%R)) [] 4 (fun _ => 2%R)
              eq_refl)
    as (v & r & u & H1 & H2 & H3 & _ & H4).
  - lia.
  - reflexivity.
  - exists v, r, u. repeat (split; [assumption |]).
    rewrite (H4 [] eq_refl). f_equal. simpl. lra.
Defined.

(** X4.  KL divergence of a distribution from itself: with the same
    potentials in both streams, [convert], [sum] over the last axis and
    [unconvert] yield 0 at every position. *)
Theorem KLDivergence_identical_streams (p : tensor R) (s : list nat)
    (n : nat) :
  shape p = s ++ [n] ->
  exists v r u,
    Dispatch.convert KLDivergence (PList [p; p]) = Ok v /\
    Dispatch.sum KLDivergence v (-1) = Ok (PyTensor r) /\
    Dispatch.unconvert KLDivergence r = Ok u /\
    shape u = s /\
    forall i, in_range s i -> tget u i = 0%R.
Proof.
  intros Hp.
  destruct (two_stream_convert_at p p eq_refl) as (v & Hcv & Hshv & Hv).
  rewrite Hp in Hshv, Hv.
  destruct (@expectation_pipeline _ _ _ KLDivergence v s n eq_refl Hshv)
    as (r & u & Hsum & Hu & Hshu & Hget).
  exists v, r, u. repeat (split; [assumption |]).
  intros i Hi. rewrite (Hget i Hi). cbn [sum_elem Dispatch.size].
  set (q := fun j => tget p (i ++ [j])).
  rewrite (@kl_stat_ext _ _ _ n _ q _ q _ (fun _ => 0%R)).
  - unfold kl_stat. cbv zeta.
    apply lsum_map_zero. intros j.
    cbn [s_add s_sub s_mul R_Scalar]. ring.
  - intros j Hj. destruct (@lane_in_range s n i j Hi Hj) as [-> Hr].
    now destruct (Hv _ Hr) as [-> _].
  - intros j Hj. destruct (@lane_in_range s n i j Hi Hj) as [-> Hr].
    now destruct (Hv _ Hr) as (_ & -> & _).
  - intros j Hj. destruct (@lane_in_range s n i j Hi Hj) as [-> Hr].
    now destruct (Hv _ Hr) as (_ & _ & ->).
Qed.

Lemma KLDivergence_identical_streams_witness :
  exists v r u,
    Dispatch.convert KLDivergence
      (PList [of_list 0%R [1; 2; 3]%R; of_list 0%R [1; 2; 3]%R]) = Ok v /\
    Dispatch.sum KLDivergence v (-1) = Ok (PyTensor r) /\
    Dispatch.unconvert KLDivergence r = Ok u /\
    tget u [] = 0%R.
Proof.
  destruct (@KLDivergence_identical_streams (of_list 0%R [1; 2; 3]%R) [] 3
              eq_refl)
    as (v & r & u & H1 & H2 & H3 & _ & H4).
  exists v, r, u. repeat (split; [assumption |]). apply H4. reflexivity.
Defined.

(** X5.  Cross entropy of a distribution with itself is its entropy: with
    the same potentials in both streams, Cross-Entropy's [convert], [sum]
    over the last axis and [unconvert] return what Entropy's return on
    those potentials. *)
Theorem CrossEntropy_identical_is_Entropy (p : tensor R) (s : list nat)
    (n : nat) :
  shape p = s ++ [n] ->
  exists v r u v' r' u',
    Dispatch.convert CrossEntropy (PList [p; p]) = Ok v /\
    Dispatch.sum CrossEntropy v (-1) = Ok (PyTensor r) /\
    Dispatch.unconvert CrossEntropy r = Ok u /\
    Dispatch.convert Entropy (PTensor p) = Ok v' /\
    Dispatch.sum Entropy v' (-1) = Ok (PyTensor r') /\
    Dispatch.unconvert Entropy r' = Ok u' /\
    teq u u'.
Proof.
  intros Hp.
  destruct (two_stream_convert_at p p eq_refl) as (v & Hcv & Hshv & Hv).
  destruct (Entropy_convert_at p) as (v' & Hcv' & Hshv' & Hv').
  rewrite Hp in Hshv, Hv, Hshv', Hv'.
  destruct (@expectation_pipeline _ _ _ CrossEntropy v s n eq_refl Hshv)
    as (r & u & Hsum & Hu & Hshu & Hget).
  destruct (@expectation_pipeline _ _ _ Entropy v' s n eq_refl Hshv')
    as (r' & u' & Hsum' & Hu' & Hshu' & Hget').
  exists v, r, u, v', r', u'. repeat (split; [assumption |]).
  split; [congruence |].
  intros i Hi. rewrite Hshu in Hi.
  rewrite (Hget i Hi), (Hget' i Hi). cbn [sum_elem Dispatch.size].
  set (q := fun j => tget p (i ++ [j])).
  rewrite (@ce_stat_ext _ _ _ n _ q _ q _ (fun _ => 0%R)).
  rewrite (@entropy_stat_ext _ _ _ n _ q _ (fun _ => 0%R)).
  - reflexivity.
  - intros j Hj. destruct (@lane_in_range s n i j Hi Hj) as [-> Hr].
    now destruct (Hv' _ Hr) as [-> _].
  - intros j Hj. destruct (@lane_in_range s n i j Hi Hj) as [-> Hr].
    now destruct (Hv' _ Hr) as [_ ->].
  - intros j Hj. destruct (@lane_in_range s n i j Hi Hj) as [-> Hr].
    now destruct (Hv _ Hr) as [-> _].
  - intros j Hj. destruct (@lane_in_range s n i j Hi Hj) as [-> Hr].
    now destruct (Hv _ Hr) as (_ & -> & _).
  - intros j Hj. destruct (@lane_in_range s n i j Hi Hj) as [-> Hr].
    now destruct (Hv _ Hr) as (_ & _ & ->).
Qed.

Lemma CrossEntropy_identical_is_Entropy_witness :
  exists u u',
    (v <- Dispatch.convert CrossEntropy
            (PList [of_list 0%R [1; 2]%R; of_list 0%R [1; 2]%R]) ;;
     r <- CrossEntropySemiring.sum v (-1) ;;
     Dispatch.unconvert CrossEntropy r) = Ok u /\
    (v <- Dispatch.convert Entropy (PTensor (of_list 0%R [1; 2]%R)) ;;
     r <- EntropySemiring.sum v (-1) ;;
     Dispatch.unconvert Entropy r) = Ok u' /\
    teq u u'.
Proof.
  destruct (@CrossEntropy_identical_is_Entropy (of_list 0%R [1; 2]%R) [] 2
              eq_refl)
    as (v & r & u & v' & r' & u' & H1 & H2 & H3 & H4 & H5 & H6 & H7).
  exists u, u'. rewrite H1, H4. cbn [bind].
  cbn [Dispatch.sum] in H2, H5. unfold Dispatch.ret_tensor in H2, H5.
  destruct (CrossEntropySemiring.sum v (-1)) as [r0 | e]; [| discriminate].
  destruct (EntropySemiring.sum v' (-1)) as [r0' | e]; [| discriminate].
  cbn [bind] in *. inversion H2; inversion H5; subst.
  auto.
Defined.

(** X6.  Expected cost: from potentials [p] and costs [cost] of one shape,
    Risk's [convert], [sum] over the last axis and [unconvert] yield
    [sum_j softmax(p)_j * cost_j] at every position. *)
Theorem Risk_expected_cost (p cost : tensor R) (s : list nat) (n : nat) :
  shape p = s ++ [n] -> shape cost = shape p ->
  exists v r u,
    Dispatch.convert Risk (PList [p; cost]) = Ok v /\
    Dispatch.sum Risk v (-1) = Ok (PyTensor r) /\
    Dispatch.unconvert Risk r = Ok u /\
    shape u = s /\
    forall i, in_range s i ->
      tget u i
      = Rsum n (fun j => softmax n (fun j => tget p (i ++ [j])) j
                         * tget cost (i ++ [j]))%R.
Proof.
  intros Hp Hc.
  destruct (two_stream_convert_at p cost Hc) as (v & Hcv & Hshv & Hv).
  rewrite Hp in Hshv, Hv.
  destruct (@expectation_pipeline _ _ _ Risk v s n eq_refl Hshv)
    as (r & u & Hsum & Hu & Hshu & Hget).
  exists v, r, u. repeat (split; [assumption |]).
  intros i Hi. rewrite (Hget i Hi). cbn [sum_elem Dispatch.size].
  rewrite (@risk_stat_ext _ _ _ n _ (fun j => tget p (i ++ [j]))
             _ (fun j => tget cost (i ++ [j])) _ (fun _ => 0%R)).
  - rewrite risk_stat_spec. apply Rsum_ext. intros j _. ring.
  - intros j Hj. destruct (@lane_in_range s n i j Hi Hj) as [-> Hr].
    now destruct (Hv _ Hr) as [-> _].
  - intros j Hj. destruct (@lane_in_range s n i j Hi Hj) as [-> Hr].
    now destruct (Hv _ Hr) as (_ & -> & _).
  - intros j Hj. destruct (@lane_in_range s n i j Hi Hj) as [-> Hr].
    now destruct (Hv _ Hr) as (_ & _ & ->).
Qed.

Lemma Risk_expected_cost_witness :
  exists v r u,
    Dispatch.convert Risk
      (PList [of_list 0%R [1; 2]%R; of_list 0%R [5; 7]%R]) = Ok v /\
    Dispatch.sum Risk v (-1) = Ok (PyTensor r) /\
    Dispatch.unconvert Risk r = Ok u /\
    shape u = [].
Proof.
  destruct (@Risk_expected_cost (of_list 0%R [1; 2]%R)
              (of_list 0%R [5; 7]%R) [] 2 eq_refl eq_refl)
    as (v & r & u & H1 & H2 & H3 & H4 & _).
  exists v, r, u. auto.
Defined.

(** ** Max: the reduction and its back-pointers *)

Lemma wrap_dim_lt dim n d : wrap_dim dim n = Ok d -> d < Nat.max n 1.
Proof.
  unfold wrap_dim.
  destruct (Z.leb_spec (- Z.of_nat (Nat.max n 1)) dim);
    destruct (Z.ltb_spec dim (Z.of_nat (Nat.max n 1)));
    simpl; intros Hw; try discriminate.
  inversion Hw; subst; clear Hw.
  destruct (Z.ltb_spec dim 0); lia.
Qed.

Section MaxSpec.
Context {A : Type} {SA : Scalar A} {SO : ScalarOrder A}.

Lemma lmax_spec (l : list A) :
  l <> [] -> In (lmax l) l /\ forall y, In y l -> ge (lmax l) y.
Proof.
  destruct l as [| x r]; [congruence |]. intros _.
  unfold lmax. apply fold_max_spec.
Qed.

Lemma find_index_spec (f : A -> bool) (d : A) : forall l,
  (exists x, In x l /\ f x = true) ->
  find_index f l < length l /\
  f (nth (find_index f l) l d) = true /\
  forall j, j < find_index f l -> f (nth j l d) = false.
Proof.
  induction l as [| x l IH]; intros (y & Hy & Hfy); [contradiction |].
  cbn [find_index]. destruct (f x) eqn:Hfx.
  - cbn. repeat split; [lia | exact Hfx | intros j Hj; lia].
  - destruct Hy as [-> | Hy]; [congruence |].
    destruct IH as (Hlt & Hf & Hfirst); [eauto |].
    cbn [length nth]. repeat split; [lia | exact Hf |].
    intros [| j] Hj; [exact Hfx | apply Hfirst; lia].
Qed.

(** The position [largmax] returns holds the maximum, and is the first to
    do so. *)
Lemma largmax_spec (l : list A) (d : A) :
  l <> [] ->
  largmax l < length l /\
  nth (largmax l) l d = lmax l /\
  forall j, j < largmax l -> nth j l d <> lmax l.
Proof.
  intros Hne. destruct (lmax_spec Hne) as [Hin Hge].
  destruct (@find_index_spec (fun x => s_leb (lmax l) x) d l)
    as (Hlt & Hf & Hfirst).
  { exists (lmax l). split; [exact Hin | apply ge_refl]. }
  fold (largmax l) in Hlt, Hf, Hfirst.
  repeat split; [exact Hlt | |].
  - apply s_leb_antisym; [| exact Hf].
    apply Hge. now apply nth_In.
  - intros j Hj Heq. specialize (Hfirst j Hj). cbn beta in Hfirst.
    rewrite Heq in Hfirst. pose proof (ge_refl (lmax l)) as Hrefl.
    unfold ge in Hrefl. congruence.
Qed.

Lemma lane_nth (t : tensor A) d idx j (dflt : A) :
  j < nth d (shape t) 0 ->
  nth j (lane t d idx) dflt = tget t (insert_at d j idx).
Proof.
  intros Hj. unfold lane.
  rewrite (nth_indep _ dflt (tget t (insert_at d 0 idx)))
    by (rewrite length_map, length_seq; exact Hj).
  rewrite (map_nth (fun j => tget t (insert_at d j idx))
             (seq 0 (nth d (shape t) 0)) 0 j).
  now rewrite seq_nth.
Qed.

Lemma lane_length (t : tensor A) d idx :
  length (lane t d idx) = nth d (shape t) 0.
Proof. unfold lane. now rewrite length_map, length_seq. Qed.

Lemma lane_In (t : tensor A) d idx x :
  In x (lane t d idx) <->
  exists j, j < nth d (shape t) 0 /\ x = tget t (insert_at d j idx).
Proof.
  unfold lane. rewrite in_map_iff. split.
  - intros (j & <- & Hj). apply in_seq in Hj. exists j. split; [lia | auto].
  - intros (j & Hj & ->). exists j. split; [reflexivity |].
    apply in_seq. lia.
Qed.

Lemma lane_nonempty (t : tensor A) d idx :
  0 < nth d (shape t) 0 -> lane t d idx <> [].
Proof.
  intros Hn Hl. pose proof (lane_length t d idx) as Hlen.
  rewrite Hl in Hlen. simpl in Hlen. lia.
Qed.

End MaxSpec.

(** X7.  Max's [sum] along an axis of positive length returns, at every
    position, an element of the reduced lane that no element of the lane
    exceeds; along an axis of length 0 it raises. *)
Theorem Max_sum_is_max {A} {SA : Scalar A} {SO : ScalarOrder A}
    (xs : tensor A) (dim : Z) (d : nat) :
  shape xs <> [] -> wrap_dim dim (ndim xs) = Ok d ->
  (nth d (shape xs) 0 = 0 -> MaxSemiring.sum xs dim = Raise IndexError) /\
  (0 < nth d (shape xs) 0 ->
   exists r,
     MaxSemiring.sum xs dim = Ok r /\
     shape r = remove_at d (shape xs) /\
     forall idx,
       (exists j, j < nth d (shape xs) 0 /\
                  tget r idx = tget xs (insert_at d j idx)) /\
       (forall j, j < nth d (shape xs) 0 ->
                  ge (tget r idx) (tget xs (insert_at d j idx)))).
Proof.
  intros Hne Hw. unfold MaxSemiring.sum, tmax. rewrite Hw. cbn [bind].
  assert (Hnth : nth d (shape xs) 1 = nth d (shape xs) 0).
  { apply nth_indep. apply wrap_dim_lt in Hw.
    unfold ndim in Hw. destruct (shape xs); [congruence | simpl in *; lia]. }
  rewrite Hnth. split.
  - intros ->. reflexivity.
  - intros Hpos. destruct (Nat.eqb_spec (nth d (shape xs) 0) 0); [lia |].
    rewrite (@reduce_dim_at _ lmax xs dim d Hne Hw).
    eexists. split; [reflexivity |]. split; [reflexivity |].
    intros idx. cbn [tget].
    destruct (lmax_spec (lane_nonempty xs d idx Hpos)) as [Hin Hge].
    split.
    + apply lane_In in Hin. exact Hin.
    + intros j Hj. apply Hge. apply lane_In. eauto.
Qed.

Lemma Max_sum_is_max_witness :
  exists r,
    MaxSemiring.sum (of_flat 0%Z [2; 3] [1; 5; 3; 4; 2; 6]%Z) (-1) = Ok r /\
    shape r = [2] /\
    ge (tget r [0]) 5%Z.
Proof.
  destruct (@Max_sum_is_max Z _ _ (of_flat 0%Z [2; 3] [1; 5; 3; 4; 2; 6]%Z)
              (-1) 1) as [_ Hpos]; [discriminate | reflexivity |].
  destruct Hpos as (r & Hr & Hsh & Hget); [cbn; lia |].
  exists r. split; [exact Hr |]. split; [exact Hsh |].
  destruct (Hget [0]) as [_ Hge]. apply (Hge 1). cbn. lia.
Defined.

(** X8.  Max's [sparse_sum] along an axis of positive length returns the
    value [sum] returns, a row-index tensor of zeros, and, at every
    position, the index of the first element of the lane that holds the
    maximum. *)
Theorem Max_sparse_sum_argmax {A} {SA : Scalar A} {SO : ScalarOrder A}
    (xs : tensor A) (dim : Z) (d : nat) :
  shape xs <> [] -> wrap_dim dim (ndim xs) = Ok d ->
  0 < nth d (shape xs) 0 ->
  exists m z a,
    MaxSemiring.sparse_sum xs dim = Ok (m, (z, a)) /\
    MaxSemiring.sum xs dim = Ok m /\
    shape a = shape m /\ shape z = shape m /\
    forall idx,
      tget z idx = 0 /\
      tget a idx < nth d (shape xs) 0 /\
      tget xs (insert_at d (tget a idx) idx) = tget m idx /\
      forall j, j < tget a idx ->
                tget xs (insert_at d j idx) <> tget m idx.
Proof.
  intros Hne Hw Hpos.
  unfold MaxSemiring.sparse_sum, MaxSemiring.sum, tmax_idx, tmax.
  rewrite Hw. cbn [bind].
  assert (Hnth : nth d (shape xs) 1 = nth d (shape xs) 0).
  { apply nth_indep. apply wrap_dim_lt in Hw.
    unfold ndim in Hw. destruct (shape xs); [congruence | simpl in *; lia]. }
  rewrite Hnth. destruct (Nat.eqb_spec (nth d (shape xs) 0) 0); [lia |].
  rewrite (@reduce_dim_at _ lmax xs dim d Hne Hw).
  destruct (shape xs) as [| n0 s0] eqn:Hs; [congruence |].
  cbn [bind]. eexists. eexists. eexists.
  split; [reflexivity |]. split; [reflexivity |].
  split; [reflexivity |]. split; [reflexivity |].
  intros idx. cbn [tget zeros_long].
  assert (Hpos' : 0 < nth d (shape xs) 0) by (rewrite Hs; exact Hpos).
  destruct (largmax_spec s_zero (lane_nonempty xs d idx Hpos'))
    as (Hlt & Hval & Hfirst).
  rewrite lane_length in Hlt. rewrite Hs in Hlt.
  split; [reflexivity |]. split; [exact Hlt |]. split.
  - rewrite <- Hval. symmetry. apply lane_nth. rewrite Hs. exact Hlt.
  - intros j Hj. rewrite <- (lane_nth xs d idx s_zero).
    + now apply Hfirst.
    + rewrite Hs. lia.
Qed.

Lemma Max_sparse_sum_argmax_witness :
  exists m z a,
    MaxSemiring.sparse_sum (of_flat 0%Z [2; 3] [1; 5; 5; 4; 2; 6]%Z) (-1)
    = Ok (m, (z, a)) /\
    tget a [0] < 3 /\
    tget (of_flat 0%Z [2; 3] [1; 5; 5; 4; 2; 6]%Z) [0; tget a [0]]
    = tget m [0].
Proof.
  destruct (@Max_sparse_sum_argmax Z _ _
              (of_flat 0%Z [2; 3] [1; 5; 5; 4; 2; 6]%Z) (-1) 1)
    as (m & z & a & H1 & _ & _ & _ & Hget);
    [discriminate | reflexivity | cbn; lia |].
  exists m, z, a. split; [exact H1 |].
  destruct (Hget [0]) as (_ & Hlt & Hval & _).
  split; [exact Hlt | exact Hval].
Defined.

(** X9.  On the Max semiring [plus a b] holds, at every position, the
    larger of the two elements, so that [plus b a] returns the same tensor
    and [plus a a] returns [a]. *)
Theorem Max_plus_is_max {A} {SA : Scalar A} {SO : ScalarOrder A}
    {TA : Transcendental A} (a b : tensor A) :
  shape b = shape a ->
  exists r r' r'',
    Dispatch.plus Max a b = Ok (PyTensor r) /\
    Dispatch.plus Max b a = Ok (PyTensor r') /\
    Dispatch.plus Max a a = Ok (PyTensor r'') /\
    teq r r' /\ teq r'' a /\
    shape r = shape a /\
    forall idx, in_range (shape a) idx ->
      tget r idx
      = if s_leb (tget a idx) (tget b idx) then tget b idx else tget a idx.
Proof.
  intros Hb.
  assert (Hplus : forall x y : tensor A,
             shape y = shape x ->
             exists r,
               Dispatch.plus Max x y = Ok (PyTensor r) /\
               shape r = shape x /\
               forall idx, in_range (shape x) idx ->
                 tget r idx
                 = if s_leb (tget x idx) (tget y idx) then tget y idx
                   else tget x idx).
  { intros x y Hxy.
    destruct (@reduce_stack2 _ lmax x y Hxy)
      as (st & r & Hst & Hred & Hnth & Hsh & Hget).
    exists r. unfold Dispatch.plus, Semiring.plus. rewrite Hst.
    cbn [bind Dispatch.sum]. unfold MaxSemiring.sum, tmax.
    rewrite wrap_dim_last. cbn [bind]. rewrite Hnth. cbn [Nat.eqb].
    rewrite Hred. split; [reflexivity |]. split; [exact Hsh |].
    intros idx Hr. rewrite (Hget idx Hr). reflexivity. }
  destruct (Hplus a b Hb) as (r & Hr & Hsh & Hget).
  destruct (Hplus b a (eq_sym Hb)) as (r' & Hr' & Hsh' & Hget').
  destruct (Hplus a a eq_refl) as (r'' & Hr'' & Hsh'' & Hget'').
  exists r, r', r''. repeat (split; [assumption |]).
  split; [| split; [| split; [exact Hsh | exact Hget]]].
  - split; [congruence |]. intros idx Hi. rewrite Hsh in Hi.
    rewrite (Hget idx Hi), (Hget' idx) by (rewrite Hb; exact Hi).
    destruct (s_leb (tget a idx) (tget b idx)) eqn:Hab;
      destruct (s_leb (tget b idx) (tget a idx)) eqn:Hba;
      try reflexivity.
    + now apply s_leb_antisym.
    + destruct (s_leb_total (tget a idx) (tget b idx)); congruence.
  - split; [exact Hsh'' |]. intros idx Hi. rewrite Hsh'' in Hi.
    rewrite (Hget'' idx Hi). now destruct (s_leb (tget a idx) (tget a idx)).
Qed.

Lemma Max_plus_is_max_witness :
  exists r r',
    Dispatch.plus Max (of_list 0%R [1; 7]%R) (of_list 0%R [4; 2]%R)
    = Ok (PyTensor r) /\
    Dispatch.plus Max (of_list 0%R [4; 2]%R) (of_list 0%R [1; 7]%R)
    = Ok (PyTensor r') /\
    teq r r'.
Proof.
  destruct (@Max_plus_is_max R _ _ _ (of_list 0%R [1; 7]%R)
              (of_list 0%R [4; 2]%R) eq_refl)
    as (r & r' & _ & H1 & H2 & _ & H3 & _).
  exists r, r'. auto.
Defined.

(** ** K-Max: the reduction and its back-pointers *)

Section KMaxSum.
Context {A : Type}.

(** The last two axes merged into one. *)
Lemma view_merge_last (t : tensor A) s a b :
  shape t = s ++ [a; b] -> 0 < numel s ->
  exists r,
    view t (map Z.of_nat (firstn (ndim t - 2) (shape t)) ++ [(-1)%Z])
    = Ok r /\
    shape r = s ++ [a * b] /\
    forall i m, in_range s i -> m < a * b ->
      tget r (i ++ [m]) = tget t (i ++ [m / b; m mod b]).
Proof.
  intros Hs Hpos. unfold view, ndim. rewrite Hs, length_app. cbn [length].
  replace (length s + 2 - 2) with (length s) by lia.
  rewrite firstn_app, firstn_all, Nat.sub_diag. cbn [firstn].
  rewrite app_nil_r, existsb_app, existsb_of_nat_neg. cbn [existsb orb].
  rewrite count_occ_app, count_occ_of_nat_neg. cbn [count_occ].
  destruct (Z.eq_dec (-1) (-1)); [| congruence]. cbn [plus].
  rewrite fold_right_app. cbn [fold_right]. rewrite known_of_nat.
  rewrite numel_app. cbn [numel fold_right].
  replace (numel s * (a * (b * 1))) with (a * b * numel s) by lia.
  destruct (Nat.eqb_spec (numel s) 0); [lia |].
  rewrite Nat.Div0.mod_mul, Nat.div_mul by lia. cbn [orb negb Nat.eqb].
  rewrite map_app, map_map. cbn [map]. rewrite Z.eqb_refl.
  rewrite (map_ext_in _ (fun x => x)), map_id.
  2: { intros x _. destruct (Z.eqb_spec (Z.of_nat x) (-1)); [lia |].
       apply Nat2Z.id. }
  eexists. split; [reflexivity |]. split; [reflexivity |].
  intros i m Hi Hm. unfold reshape. cbn [tget shape]. rewrite Hs. f_equal.
  pose proof (in_range_length Hi) as Hl.
  assert (Hb : b <> 0) by nia.
  pose proof (Nat.div_mod_eq m b) as Hdm.
  pose proof (Nat.mod_upper_bound m b Hb) as Hmod.
  assert (Hdiv : m / b < a)
    by (apply Nat.Div0.div_lt_upper_bound; nia).
  rewrite (ravel_app s [a * b] i [m] Hl).
  replace (ravel s i * numel [a * b] + ravel [a * b] [m])
    with (ravel (s ++ [a; b]) (i ++ [m / b; m mod b]))
    by (rewrite (ravel_app s [a; b] i [m / b; m mod b] Hl); simpl; nia).
  apply unravel_ravel. apply in_range_app; [assumption |].
  apply in_range_cons. split; [assumption |].
  apply in_range_cons. split; [assumption | reflexivity].
Qed.

Context {SA : Scalar A}.

Lemma insert_desc_idx_fst (x : A * nat) (l : list (A * nat)) :
  map fst (insert_desc_idx x l) = insert_desc (fst x) (map fst l).
Proof.
  induction l as [| y l IH]; [reflexivity |].
  simpl. destruct (s_leb (fst y) (fst x)); [reflexivity |].
  simpl. now rewrite IH.
Qed.

Lemma insert_desc_idx_perm (x : A * nat) (l : list (A * nat)) :
  Permutation (insert_desc_idx x l) (x :: l).
Proof.
  induction l as [| y l IH]; [reflexivity |].
  simpl. destruct (s_leb (fst y) (fst x)); [reflexivity |].
  rewrite IH. apply perm_swap.
Qed.

Lemma sort_idx_fst (l : list A) : forall a,
  map fst (fold_right insert_desc_idx [] (combine l (seq a (length l))))
  = sort_desc l.
Proof.
  induction l as [| x l IH]; intros a; [reflexivity |].
  cbn [length seq combine fold_right]. rewrite insert_desc_idx_fst.
  cbn [fst]. now rewrite IH.
Qed.

(** The values of the sort with positions are the sorted values. *)
Lemma sort_desc_idx_fst (l : list A) :
  map fst (sort_desc_idx l) = sort_desc l.
Proof. apply sort_idx_fst. Qed.

Lemma sort_desc_idx_perm (l : list A) :
  Permutation (sort_desc_idx l) (combine l (seq 0 (length l))).
Proof.
  unfold sort_desc_idx.
  induction (combine l (seq 0 (length l))) as [| x c IH]; [reflexivity |].
  simpl. rewrite insert_desc_idx_perm. now constructor.
Qed.

Lemma sort_desc_idx_length (l : list A) :
  length (sort_desc_idx l) = length l.
Proof.
  rewrite (Permutation_length (sort_desc_idx_perm l)).
  rewrite length_combine, length_seq. lia.
Qed.

Lemma In_combine_seq (d : A) : forall (l : list A) a v p,
  In (v, p) (combine l (seq a (length l))) ->
  a <= p < a + length l /\ nth (p - a) l d = v.
Proof.
  induction l as [| x l IH]; intros a v p Hin; [destruct Hin |].
  cbn [length seq combine] in Hin. destruct Hin as [Heq | Hin].
  - inversion Heq; subst. rewrite Nat.sub_diag. simpl. split; [lia | easy].
  - apply IH in Hin. destruct Hin as [Hp Hv]. cbn [length].
    split; [lia |].
    replace (p - a) with (S (p - S a)) by lia. exact Hv.
Qed.

(** Every position of the sort points to its value. *)
Lemma sort_desc_idx_nth (l : list A) (d : A) (c : nat) :
  c < length l ->
  let vp := nth c (sort_desc_idx l) (s_zero, 0) in
  snd vp < length l /\ nth (snd vp) l d = fst vp.
Proof.
  intros Hc vp.
  assert (Hin : In vp (sort_desc_idx l))
    by (apply nth_In; now rewrite sort_desc_idx_length).
  apply (Permutation_in _ (sort_desc_idx_perm l)) in Hin.
  destruct vp as [v p]. apply (In_combine_seq d) in Hin.
  cbn [fst snd]. rewrite Nat.sub_0_r in Hin. split; [lia | tauto].
Qed.

(** The positions of the sort are pairwise distinct. *)
Lemma sort_desc_idx_NoDup (l : list A) :
  NoDup (map snd (sort_desc_idx l)).
Proof.
  apply (Permutation_NoDup
           (l := map snd (combine l (seq 0 (length l))))).
  - symmetry. apply Permutation_map. apply sort_desc_idx_perm.
  - assert (H : forall (l : list A) a,
               map snd (combine l (seq a (length l))) = seq a (length l)).
    { clear. induction l as [| x l IH]; intros a; [reflexivity |].
      cbn [length seq combine map snd]. now rewrite IH. }
    rewrite H. apply seq_NoDup.
Qed.

Lemma topk_idx_last (t : tensor A) s n k :
  shape t = s ++ [n] -> k <= n ->
  exists r r2,
    topk_idx t k (-1) = Ok (r, r2) /\
    shape r = s ++ [k] /\ shape r2 = s ++ [k] /\
    forall i c, length i = length s ->
      tget r (i ++ [c])
      = nth c (sort_desc (map (fun j => tget t (i ++ [j])) (seq 0 n)))
          s_zero /\
      tget r2 (i ++ [c])
      = snd (nth c (sort_desc_idx
                      (map (fun j => tget t (i ++ [j])) (seq 0 n)))
               (s_zero, 0)).
Proof.
  intros Hs Hk.
  assert (Hw : wrap_dim (-1) (ndim t) = Ok (length s)).
  { rewrite wrap_dim_last. unfold ndim. rewrite Hs, length_app.
    cbn [length]. f_equal. lia. }
  assert (Hne : shape t <> []) by (rewrite Hs; destruct s; discriminate).
  assert (Hk' : k <= nth (length s) (shape t) 0)
    by (rewrite Hs, nth_middle; exact Hk).
  unfold topk_idx. rewrite Hw. cbn [bind].
  apply Nat.leb_le in Hk'. rewrite Hk'.
  destruct (shape t) as [| n0 s0] eqn:Hst; [congruence |].
  eexists. eexists. split; [reflexivity |].
  cbn [shape]. rewrite Hs, set_nth_end.
  split; [reflexivity |]. split; [reflexivity |].
  intros i c Hl. cbn [tget]. rewrite <- Hl.
  rewrite nth_middle, remove_at_end. unfold lane.
  rewrite Hst, Hs, Hl, nth_middle.
  assert (Hlane : map (fun j => tget t (insert_at (length s) j i))
                    (seq 0 n)
                  = map (fun j => tget t (i ++ [j])) (seq 0 n)).
  { apply map_ext. intros j. rewrite <- Hl. now rewrite insert_at_end. }
  rewrite Hlane. split; [| reflexivity].
  rewrite <- sort_desc_idx_fst.
  change s_zero with (fst (s_zero, 0)) at 2.
  now rewrite map_nth.
Qed.

(** The candidates of a position: the elements of every slot along the
    last axis, in the order of the merged axis. *)
Lemma KMax_sum_at (k : nat) (xs : tensor A) (k0 n : nat) (s : list nat) :
  shape xs = k0 :: s ++ [n] -> 0 < numel s -> k <= n * k0 ->
  exists r,
    KMaxSemiring.sum k xs (-1) = Ok r /\
    shape r = k :: s /\
    forall c i, in_range s i ->
      tget r (c :: i)
      = nth c (sort_desc
                 (map (fun m => tget xs (m mod k0 :: i ++ [m / k0]))
                    (seq 0 (n * k0)))) s_zero.
Proof.
  intros Hs Hpos Hk.
  destruct (@permute_rotl _ xs k0 (s ++ [n]) Hs) as (p1 & H1 & Hsh1 & Hg1).
  rewrite <- app_assoc in Hsh1. cbn [app] in Hsh1.
  destruct (@view_merge_last p1 s n k0 Hsh1 Hpos)
    as (p2 & H2 & Hsh2 & Hg2).
  destruct (@topk_last _ _ p2 s (n * k0) k Hsh2 Hk)
    as (p3 & H3 & Hsh3 & Hg3).
  destruct (@permute_rotr _ p3 s k Hsh3) as (r & H4 & Hsh4 & Hg4).
  exists r. unfold KMaxSemiring.sum.
  rewrite Z.eqb_refl, H1. cbn [bind]. rewrite H2. cbn [bind].
  rewrite H3. cbn [bind]. rewrite H4. cbn [bind].
  rewrite Hsh4. cbn [hd]. rewrite Nat.eqb_refl. cbn [assert bind].
  split; [reflexivity |]. split; [reflexivity |].
  intros c i Hi. pose proof (in_range_length Hi) as Hl.
  rewrite (Hg4 i c Hl), (Hg3 i c Hl). f_equal. f_equal.
  apply map_ext_in. intros m Hm. apply in_seq in Hm.
  rewrite (Hg2 i m Hi) by lia.
  change (i ++ [m / k0; m mod k0]) with (i ++ [m / k0] ++ [m mod k0]).
  rewrite app_assoc.
  apply Hg1. rewrite !length_app. cbn [length]. lia.
Qed.

End KMaxSum.

(** X10.  K-Max's [sum] over the last axis, on a value with [k0] slots,
    returns [k] slots that are, at every position, the [k] largest of the
    [n * k0] elements of all the slots along that axis, largest first.  It
    raises when [k] exceeds [n * k0], when the other axes are empty, and on
    every other axis. *)
Theorem KMax_sum_top_k {A} {SA : Scalar A} {SO : ScalarOrder A}
    (k : nat) (xs : tensor A) (k0 n : nat) (s : list nat) :
  shape xs = k0 :: s ++ [n] ->
  (0 < numel s -> k <= n * k0 ->
   exists r,
     KMaxSemiring.sum k xs (-1) = Ok r /\
     shape r = k :: s /\
     forall i, in_range s i ->
       is_top_k k
         (flat_map (fun j => map (fun c => tget xs (c :: i ++ [j]))
                               (seq 0 k0)) (seq 0 n))
         (column k r i)) /\
  (0 < numel s -> n * k0 < k ->
   KMaxSemiring.sum k xs (-1) = Raise RuntimeError) /\
  (numel s = 0 -> KMaxSemiring.sum k xs (-1) = Raise RuntimeError) /\
  (forall dim, dim <> (-1)%Z ->
   KMaxSemiring.sum k xs dim = Raise AssertionError).
Proof.
  intros Hs. split; [| split; [| split]].
  - intros Hpos Hk.
    destruct (@KMax_sum_at _ _ k xs k0 n s Hs Hpos Hk)
      as (r & Hr & Hsh & Hget).
    exists r. split; [exact Hr |]. split; [exact Hsh |].
    intros i Hi. unfold column.
    rewrite (map_ext _ _ (fun c => Hget c i Hi)).
    rewrite (flat_map_divmod
               (fun j c => tget xs (c :: i ++ [j])) k0 n).
    rewrite map_nth_firstn
      by (rewrite sort_desc_length, length_map, length_seq; lia).
    apply firstn_sort_top_k. rewrite length_map, length_seq. lia.
  - intros Hpos Hk.
    destruct (@permute_rotl _ xs k0 (s ++ [n]) Hs)
      as (p1 & H1 & Hsh1 & Hg1).
    rewrite <- app_assoc in Hsh1. cbn [app] in Hsh1.
    destruct (@view_merge_last _ p1 s n k0 Hsh1 Hpos)
      as (p2 & H2 & Hsh2 & Hg2).
    unfold KMaxSemiring.sum.
    rewrite Z.eqb_refl, H1. cbn [bind]. rewrite H2. cbn [bind].
    unfold topk. rewrite wrap_dim_last. cbn [bind].
    unfold ndim. rewrite Hsh2, length_app. cbn [length].
    replace (length s + 1 - 1) with (length s) by lia.
    rewrite nth_middle.
    destruct (Nat.leb_spec k (n * k0)); [lia |].
    destruct s; reflexivity.
  - intros Hz.
    destruct (@permute_rotl _ xs k0 (s ++ [n]) Hs)
      as (p1 & H1 & Hsh1 & Hg1).
    rewrite <- app_assoc in Hsh1. cbn [app] in Hsh1.
    unfold KMaxSemiring.sum.
    rewrite Z.eqb_refl, H1. cbn [bind].
    unfold view, ndim. rewrite Hsh1, length_app. cbn [length].
    replace (length s + 2 - 2) with (length s) by lia.
    rewrite firstn_app, firstn_all, Nat.sub_diag. cbn [firstn].
    rewrite app_nil_r, existsb_app, existsb_of_nat_neg.
    cbn [existsb orb].
    rewrite count_occ_app, count_occ_of_nat_neg. cbn [count_occ].
    destruct (Z.eq_dec (-1) (-1)); [| congruence]. cbn [plus].
    rewrite fold_right_app. cbn [fold_right]. rewrite known_of_nat, Hz.
    reflexivity.
  - intros dim Hd. unfold KMaxSemiring.sum.
    destruct (Z.eqb_spec dim (-1)); [congruence | reflexivity].
Qed.

Lemma KMax_sum_top_k_witness :
  exists r,
    KMaxSemiring.sum 2 (of_flat 0%Z [2; 1; 3] [1; 9; 4; 7; 2; 8]%Z) (-1)
    = Ok r /\
    is_top_k 2 [1; 7; 9; 2; 4; 8]%Z (column 2 r [0]).
Proof.
  destruct (@KMax_sum_top_k Z _ _ 2
              (of_flat 0%Z [2; 1; 3] [1; 9; 4; 7; 2; 8]%Z) 2 3 [1]
              eq_refl) as [Hok _].
  destruct Hok as (r & Hr & _ & Htop); [cbn; lia | cbn; lia |].
  exists r. split; [exact Hr |]. apply (Htop [0]). reflexivity.
Defined.

Section KMaxSparse.
Context {A : Type} {SA : Scalar A}.

Lemma nth_map_seq (f : nat -> A) (d : A) n m :
  m < n -> nth m (map f (seq 0 n)) d = f m.
Proof.
  intros Hm. rewrite (nth_indep _ d (f 0)) by (now rewrite length_map, length_seq).
  rewrite (map_nth f (seq 0 n) 0 m). now rewrite seq_nth.
Qed.

(** The values and the merged positions that [sparse_sum] reads off the
    sort of the candidates. *)
Lemma KMax_sparse_sum_at (k : nat) (xs : tensor A) (k0 n : nat)
    (s : list nat) :
  shape xs = k0 :: s ++ [n] -> 0 < numel s -> 0 < k -> k <= n * k0 ->
  exists r r1 r2,
    KMaxSemiring.sparse_sum k xs (-1) = Ok (r, (r1, r2)) /\
    shape r = k :: s /\ shape r1 = k :: s /\ shape r2 = k :: s /\
    forall c i, in_range s i ->
      let L := map (fun m => tget xs (m mod k0 :: i ++ [m / k0]))
                 (seq 0 (n * k0)) in
      tget r (c :: i) = nth c (sort_desc L) s_zero /\
      tget r1 (c :: i) = snd (nth c (sort_desc_idx L) (s_zero, 0)) mod k /\
      tget r2 (c :: i) = snd (nth c (sort_desc_idx L) (s_zero, 0)) / k.
Proof.
  intros Hs Hpos Hk0 Hk.
  destruct (@permute_rotl _ xs k0 (s ++ [n]) Hs) as (p1 & H1 & Hsh1 & Hg1).
  rewrite <- app_assoc in Hsh1. cbn [app] in Hsh1.
  destruct (@view_merge_last _ p1 s n k0 Hsh1 Hpos)
    as (p2 & H2 & Hsh2 & Hg2).
  destruct (@topk_idx_last _ _ p2 s (n * k0) k Hsh2 Hk)
    as (p3 & q3 & H3 & Hsh3 & Hshq3 & Hg3).
  destruct (@permute_rotr _ p3 s k Hsh3) as (r & H4 & Hsh4 & Hg4).
  destruct (@permute_rotr _ q3 s k Hshq3) as (q & H5 & Hsh5 & Hg5).
  assert (Hnd : ndim r = ndim q3)
    by (unfold ndim; rewrite Hsh4, Hshq3, length_app; simpl; lia).
  unfold KMaxSemiring.sparse_sum.
  rewrite Z.eqb_refl, H1. cbn [bind]. rewrite H2. cbn [bind].
  rewrite H3. cbn [bind]. rewrite H4. cbn [bind].
  rewrite Hnd, H5. cbn [bind].
  rewrite Hsh4. cbn [hd]. rewrite Nat.eqb_refl. cbn [assert bind].
  unfold tmod, tfloordiv.
  destruct (Nat.eqb_spec k 0); [lia |]. cbn [andb bind].
  eexists. eexists. eexists. split; [reflexivity |].
  cbn [shape]. rewrite Hsh5.
  split; [exact Hsh4 |]. split; [reflexivity |]. split; [reflexivity |].
  intros c i Hi.
  set (L := map (fun m => tget xs (m mod k0 :: i ++ [m / k0]))
              (seq 0 (n * k0))).
  pose proof (in_range_length Hi) as Hl.
  assert (HL : map (fun j => tget p2 (i ++ [j])) (seq 0 (n * k0)) = L).
  { apply map_ext_in. intros m Hm. apply in_seq in Hm.
    rewrite (Hg2 i m Hi) by lia.
    change (i ++ [m / k0; m mod k0]) with (i ++ [m / k0] ++ [m mod k0]).
    rewrite app_assoc.
    apply Hg1. rewrite !length_app. cbn [length]. lia. }
  cbn [tget]. rewrite (Hg4 i c Hl), (Hg5 i c Hl).
  destruct (Hg3 i c Hl) as [Hv Hp]. rewrite Hv, Hp, HL.
  repeat split.
Qed.

End KMaxSparse.

(** X11.  K-Max's [sparse_sum] over the last axis of a value with [k]
    slots returns the values that [sum] returns and, for every slot of
    every position, a slot index and an index along the reduced axis at
    which the argument holds the returned value; the [k] pairs of indices
    of a position are pairwise distinct. *)
Theorem KMax_sparse_sum_backpointers {A} {SA : Scalar A}
    (k : nat) (xs : tensor A) (n : nat) (s : list nat) :
  shape xs = k :: s ++ [n] -> 0 < numel s -> 0 < k -> 0 < n ->
  exists r r1 r2 r',
    KMaxSemiring.sparse_sum k xs (-1) = Ok (r, (r1, r2)) /\
    KMaxSemiring.sum k xs (-1) = Ok r' /\ teq r r' /\
    shape r1 = k :: s /\ shape r2 = k :: s /\
    forall i, in_range s i ->
      (forall c, c < k ->
         tget r1 (c :: i) < k /\ tget r2 (c :: i) < n /\
         tget xs (tget r1 (c :: i) :: i ++ [tget r2 (c :: i)])
         = tget r (c :: i)) /\
      (forall c c', c < k -> c' < k -> c <> c' ->
         (tget r1 (c :: i), tget r2 (c :: i))
         <> (tget r1 (c' :: i), tget r2 (c' :: i))).
Proof.
  intros Hs Hpos Hk Hn.
  assert (Hkn : k <= n * k) by nia.
  destruct (@KMax_sparse_sum_at _ _ k xs k n s Hs Hpos Hk Hkn)
    as (r & r1 & r2 & Hsp & Hsh & Hsh1 & Hsh2 & Hget).
  destruct (@KMax_sum_at _ _ k xs k n s Hs Hpos Hkn)
    as (r' & Hsum & Hsh' & Hget').
  exists r, r1, r2, r'.
  split; [exact Hsp |]. split; [exact Hsum |]. split; [| split; [exact Hsh1 |
    split; [exact Hsh2 |]]].
  - split; [congruence |]. intros idx Hr. rewrite Hsh in Hr.
    apply in_range_inv_cons in Hr. destruct Hr as (c & i & -> & Hc & Hi).
    destruct (Hget c i Hi) as [Hv _]. now rewrite Hv, (Hget' c i Hi).
  - intros i Hi.
    set (L := map (fun m => tget xs (m mod k :: i ++ [m / k]))
                (seq 0 (n * k))).
    assert (HlenL : length L = n * k)
      by (unfold L; now rewrite length_map, length_seq).
    split.
    + intros c Hc. destruct (Hget c i Hi) as (Hv & Hr1 & Hr2).
      fold L in Hv, Hr1, Hr2.
      assert (HcL : c < length L) by lia.
      destruct (@sort_desc_idx_nth _ _ L s_zero c HcL) as [Hlt Hnth].
      set (m := snd (nth c (sort_desc_idx L) (s_zero, 0))) in *.
      rewrite HlenL in Hlt.
      rewrite Hr1, Hr2, Hv. split; [apply Nat.mod_upper_bound; lia |].
      split; [apply Nat.Div0.div_lt_upper_bound; lia |].
      rewrite <- sort_desc_idx_fst.
      change s_zero with (fst (s_zero, 0)) at 1.
      rewrite map_nth. fold m. rewrite <- Hnth. unfold L.
      now rewrite nth_map_seq by lia.
    + intros c c' Hc Hc' Hne Heq.
      destruct (Hget c i Hi) as (_ & Hr1 & Hr2).
      destruct (Hget c' i Hi) as (_ & Hr1' & Hr2').
      fold L in Hr1, Hr2, Hr1', Hr2'.
      rewrite Hr1, Hr2, Hr1', Hr2' in Heq.
      set (m := snd (nth c (sort_desc_idx L) (s_zero, 0))) in *.
      set (m' := snd (nth c' (sort_desc_idx L) (s_zero, 0))) in *.
      assert (Hmm : m = m').
      { inversion Heq as [[Hmod Hdiv]].
        rewrite (Nat.div_mod_eq m k), (Nat.div_mod_eq m' k). congruence. }
      pose proof (sort_desc_idx_NoDup L) as Hnd.
      apply Hne.
      apply (proj1 (NoDup_nth (map snd (sort_desc_idx L)) 0) Hnd);
        try (rewrite length_map, sort_desc_idx_length; lia).
      change 0 with (snd (@s_zero A SA, 0)).
      rewrite !map_nth. exact Hmm.
Qed.

Lemma KMax_sparse_sum_backpointers_witness :
  exists r r1 r2,
    KMaxSemiring.sparse_sum 2
      (of_flat 0%Z [2; 1; 3] [1; 9; 4; 7; 2; 8]%Z) (-1)
    = Ok (r, (r1, r2)) /\
    tget (of_flat 0%Z [2; 1; 3] [1; 9; 4; 7; 2; 8]%Z)
      [tget r1 [0; 0]; 0; tget r2 [0; 0]]
    = tget r [0; 0].
Proof.
  destruct (@KMax_sparse_sum_backpointers Z _ 2
              (of_flat 0%Z [2; 1; 3] [1; 9; 4; 7; 2; 8]%Z) 3 [1]
              eq_refl) as (r & r1 & r2 & r' & Hsp & _ & _ & _ & _ & Hbp);
    [cbn; lia | lia | lia |].
  exists r, r1, r2. split; [exact Hsp |].
  destruct (Hbp [0] eq_refl) as [Hval _].
  destruct (Hval 0) as (_ & _ & Hv); [lia |]. exact Hv.
Defined.

(** ** Matrix products *)

Lemma insert_at_app {T} (x : T) (l r : list T) :
  insert_at (length l) x (l ++ r) = l ++ x :: r.
Proof.
  unfold insert_at.
  rewrite firstn_app, firstn_all, Nat.sub_diag, skipn_app, skipn_all,
    Nat.sub_diag.
  cbn [firstn skipn app]. now rewrite app_nil_r.
Qed.

Lemma remove_at_app {T} (x : T) (l r : list T) :
  remove_at (length l) (l ++ x :: r) = l ++ r.
Proof.
  rewrite <- insert_at_app. apply remove_insert.
  rewrite length_app. lia.
Qed.

Lemma swap_nth_last2 (l : list nat) (u v : nat) :
  swap_nth (length l) (length l + 1) (l ++ [u; v]) = l ++ [v; u].
Proof.
  unfold swap_nth. rewrite length_app. cbn [length].
  rewrite seq_app, map_app. cbn [seq map plus]. f_equal.
  - transitivity (map (fun i => nth i l 0) (seq 0 (length l)));
      [| apply map_nth_seq].
    apply map_ext_in. intros i Hi. apply in_seq in Hi.
    destruct (Nat.eqb_spec i (length l)); [lia |].
    destruct (Nat.eqb_spec i (length l + 1)); [lia |].
    apply app_nth1. lia.
  - rewrite Nat.eqb_refl.
    destruct (Nat.eqb_spec (S (length l)) (length l)); [lia |].
    replace (S (length l)) with (length l + 1) by lia.
    rewrite Nat.eqb_refl.
    rewrite (app_nth2_plus l [u; v] 0 1). cbn [nth].
    now rewrite nth_middle.
Qed.

Lemma bzip_app (s t1 t2 r : list nat) :
  bzip t1 t2 = Some r -> bzip (s ++ t1) (s ++ t2) = Some (s ++ r).
Proof.
  intros Ht. induction s as [| a s IH]; [exact Ht |].
  cbn [app bzip]. now rewrite bdim_refl, IH.
Qed.

Lemma bmask_app : forall s t i j,
  length i = length s -> bmask (s ++ t) (i ++ j) = bmask s i ++ bmask t j.
Proof.
  induction s as [| a s IH]; intros t [| x i] j Hl; simpl in Hl;
    try discriminate.
  - reflexivity.
  - cbn [app bmask]. rewrite IH by lia. reflexivity.
Qed.

Section MatMul.
Context {A : Type}.

Lemma unsqueeze_split (t : tensor A) (s1 s2 : list nat) (dim : Z) :
  shape t = s1 ++ s2 -> dim = (- Z.of_nat (length s2) - 1)%Z ->
  exists r,
    unsqueeze t dim = Ok r /\
    shape r = s1 ++ 1 :: s2 /\
    forall i1 x i2, length i1 = length s1 ->
      tget r (i1 ++ x :: i2) = tget t (i1 ++ i2).
Proof.
  intros Hs Hd.
  assert (Hw : wrap_dim dim (ndim t + 1) = Ok (length s1)).
  { unfold ndim. rewrite Hs, length_app.
    replace dim with (Z.of_nat (length s1)
                      - Z.of_nat (length s1 + length s2 + 1))%Z by lia.
    apply wrap_dim_neg. lia. }
  rewrite (@unsqueeze_at _ t dim (length s1) Hw).
  eexists. split; [reflexivity |]. split.
  - cbn [shape]. rewrite Hs. apply insert_at_app.
  - intros i1 x i2 Hl. cbn [tget]. rewrite <- Hl.
    now rewrite remove_at_app.
Qed.

Lemma squeeze_last (t : tensor A) (s : list nat) :
  shape t = s ++ [1] ->
  exists r,
    squeeze t (-1) = Ok r /\ shape r = s /\
    forall i, length i = length s -> tget r i = tget t (i ++ [0]).
Proof.
  intros Hs. unfold squeeze. rewrite wrap_dim_last. cbn [bind].
  unfold ndim. rewrite Hs, length_app. cbn [length].
  replace (length s + 1 - 1) with (length s) by lia.
  rewrite nth_middle. cbn [Nat.eqb].
  eexists. split; [reflexivity |]. split.
  - cbn [shape]. apply remove_at_end.
  - intros i Hl. cbn [tget]. rewrite <- Hl. now rewrite insert_at_end.
Qed.

Lemma transpose_last2 (t : tensor A) (s : list nat) (x y : nat) :
  shape t = s ++ [x; y] ->
  exists r,
    transpose t (-2) (-1) = Ok r /\ shape r = s ++ [y; x] /\
    forall i u v, length i = length s ->
      tget r (i ++ [u; v]) = tget t (i ++ [v; u]).
Proof.
  intros Hs. unfold transpose.
  assert (Hn : ndim t = length s + 2)
    by (unfold ndim; rewrite Hs, length_app; reflexivity).
  assert (Hw : wrap_dim (-2) (ndim t) = Ok (length s)).
  { rewrite Hn.
    replace (-2)%Z
      with (Z.of_nat (length s) - Z.of_nat (length s + 2))%Z by lia.
    apply wrap_dim_neg. lia. }
  rewrite Hw, wrap_dim_last, Hn. cbn [bind].
  replace (length s + 2 - 1) with (length s + 1) by lia.
  eexists. split; [reflexivity |]. split.
  - cbn [shape]. rewrite Hs. apply swap_nth_last2.
  - intros i u v Hl. cbn [tget]. rewrite <- Hl.
    now rewrite swap_nth_last2.
Qed.

Lemma reduce_dim_last (f : list A -> A) (t : tensor A) (s : list nat)
    (n : nat) :
  shape t = s ++ [n] ->
  exists r,
    reduce_dim f t (-1) = Ok r /\ shape r = s /\
    forall i, length i = length s ->
      tget r i = f (map (fun j => tget t (i ++ [j])) (seq 0 n)).
Proof.
  intros Hs.
  assert (Hw : wrap_dim (-1) (ndim t) = Ok (length s)).
  { rewrite wrap_dim_last. unfold ndim. rewrite Hs, length_app.
    cbn [length]. f_equal. lia. }
  rewrite (@reduce_dim_at _ f t (-1)%Z (length s));
    [| rewrite Hs; destruct s; discriminate | exact Hw].
  eexists. split; [reflexivity |].
  split; [cbn [shape]; rewrite Hs; apply remove_at_end |].
  intros i Hl. cbn [tget]. unfold lane. rewrite Hs, nth_middle.
  f_equal. apply map_ext. intros j.
  rewrite <- Hl. now rewrite insert_at_end.
Qed.

Lemma bshape_matmul (bs : list nat) (n m p : nat) :
  bshape (bs ++ [n; m; 1]) (bs ++ [1; m; p]) = Some (bs ++ [n; m; p]).
Proof.
  unfold bshape. rewrite !length_app. cbn [length]. rewrite Nat.max_id.
  rewrite !pad_shape_len by (rewrite length_app; reflexivity).
  apply bzip_app. cbn [bzip]. rewrite bdim_refl.
  unfold bdim. cbn [Nat.eqb].
  destruct (Nat.eqb_spec n 1) as [-> | Hn];
    destruct p as [| [| p]]; reflexivity.
Qed.

(** The generic [matmul] up to its reduction: the tensor of the products
    [f a[.., i, j] b[.., j, k]], with [j] on the last axis. *)
Lemma Semiring_matmul_at (f : A -> A -> A)
    (cls_sum : tensor A -> Z -> result (pyobj A))
    (a b : tensor A) (bs : list nat) (n m p : nat) :
  shape a = bs ++ [n; m] -> shape b = bs ++ [m; p] ->
  exists c,
    Semiring.matmul (Semiring.times (binop f)) cls_sum a b
    = cls_sum c (-1)%Z /\
    shape c = (bs ++ [n; p]) ++ [m] /\
    forall bi i k j, in_range bs bi -> i < n -> k < p -> j < m ->
      tget c ((bi ++ [i; k]) ++ [j])
      = f (tget a (bi ++ [i; j])) (tget b (bi ++ [j; k])).
Proof.
  intros Ha Hb.
  destruct (@unsqueeze_split a (bs ++ [n; m]) [] (-1)%Z)
    as (a1 & Ha1 & Hsa1 & Hga1);
    [now rewrite app_nil_r | reflexivity |].
  rewrite <- app_assoc in Hsa1. cbn [app] in Hsa1.
  destruct (@unsqueeze_split b bs [m; p] (-3)%Z Hb eq_refl)
    as (b1 & Hb1 & Hsb1 & Hgb1).
  pose proof (bshape_matmul bs n m p) as Hbs.
  rewrite <- Hsa1, <- Hsb1 in Hbs.
  pose proof (@binop_at _ f a1 b1 _ Hbs) as Hc.
  set (c0 := mkT (bs ++ [n; m; p])
               (fun idx => f (tget a1 (bidx (shape a1) idx))
                             (tget b1 (bidx (shape b1) idx)))) in Hc.
  destruct (@transpose_last2 c0 (bs ++ [n]) m p) as (c & Hct & Hsc & Hgc);
    [cbn [shape c0]; now rewrite <- app_assoc |].
  exists c. unfold Semiring.matmul, Semiring.times.
  rewrite Ha1. cbn [bind]. rewrite Hb1. cbn [bind fold_left].
  rewrite Hc. cbn [bind]. rewrite Hct. cbn [bind].
  split; [reflexivity |]. split.
  - rewrite Hsc, <- !app_assoc. reflexivity.
  - intros bi i k j Hbi Hi Hk Hj.
    pose proof (in_range_length Hbi) as Hl.
    replace ((bi ++ [i; k]) ++ [j]) with ((bi ++ [i]) ++ [k; j])
      by (now rewrite <- !app_assoc).
    rewrite Hgc by (rewrite !length_app; cbn [length]; lia).
    cbn [tget c0]. rewrite Hsa1, Hsb1.
    replace ((bi ++ [i]) ++ [j; k]) with (bi ++ [i; j; k])
      by (now rewrite <- app_assoc).
    unfold bidx. rewrite !length_app. cbn [length].
    rewrite Hl, Nat.sub_diag. cbn [skipn].
    rewrite !bmask_app by exact Hl.
    rewrite (bmask_id Hbi). cbn [bmask Nat.eqb].
    assert (Ei : (if n =? 1 then 0 else i) = i)
      by (destruct (Nat.eqb_spec n 1); lia).
    assert (Ej : (if m =? 1 then 0 else j) = j)
      by (destruct (Nat.eqb_spec m 1); lia).
    assert (Ek : (if p =? 1 then 0 else k) = k)
      by (destruct (Nat.eqb_spec p 1); lia).
    rewrite Ei, Ej, Ek. f_equal.
    + replace (bi ++ [i; j; 0]) with ((bi ++ [i; j]) ++ [0])
        by (now rewrite <- app_assoc).
      rewrite Hga1 by (rewrite !length_app; cbn [length]; lia).
      now rewrite app_nil_r.
    + now rewrite Hgb1.
Qed.

Context {SA : Scalar A}.

(** [torch.matmul] on two tensors with the same batch dimensions. *)
Lemma tmatmul_at (a b : tensor A) (bs : list nat) (n m p : nat) :
  shape a = bs ++ [n; m] -> shape b = bs ++ [m; p] ->
  exists r,
    tmatmul a b = Ok r /\
    shape r = bs ++ [n; p] /\
    forall bi i k, in_range bs bi ->
      tget r (bi ++ [i; k])
      = lsum (map (fun j => s_mul (tget a (bi ++ [i; j]))
                              (tget b (bi ++ [j; k]))) (seq 0 m)).
Proof.
  intros Ha Hb. unfold tmatmul, matmul_core, ndim.
  rewrite Ha, Hb, !length_app. cbn [length].
  replace (length bs + 2) with (S (S (length bs))) by lia.
  cbn [Nat.eqb bind]. rewrite Ha, Hb, !length_app. cbn [length].
  replace (length bs + 2 - 2) with (length bs) by lia.
  replace (length bs + 2 - 1) with (length bs + 1) by lia.
  rewrite !firstn_app, !firstn_all, !Nat.sub_diag. cbn [firstn].
  rewrite !app_nil_r, !nth_middle.
  rewrite (app_nth2_plus bs [n; m] 0 1), (app_nth2_plus bs [m; p] 0 1).
  cbn [nth]. rewrite Nat.eqb_refl, bshape_refl. cbn [bind].
  eexists. split; [reflexivity |]. split; [reflexivity |].
  intros bi i k Hbi. pose proof (in_range_length Hbi) as Hl.
  cbn [tget]. rewrite <- Hl.
  rewrite firstn_app, firstn_all, Nat.sub_diag. cbn [firstn].
  rewrite app_nil_r, nth_middle, (app_nth2_plus bi [i; k] 0 1).
  cbn [nth]. now rewrite (bidx_id Hbi).
Qed.

End MatMul.

Lemma matmul_product_at {A} {SA : Scalar A} {TA : Transcendental A}
    (a b : tensor A) (bs : list nat) (n m p : nat) :
  shape a = bs ++ [n; m] -> shape b = bs ++ [m; p] ->
  let product := fun (oplus : list A -> A) (otimes : A -> A -> A)
                     (r : tensor A) =>
    shape r = bs ++ [n; p] /\
    forall bi i k, in_range bs bi -> i < n -> k < p ->
      tget r (bi ++ [i; k])
      = oplus (map (fun j => otimes (tget a (bi ++ [i; j]))
                               (tget b (bi ++ [j; k]))) (seq 0 m)) in
  (exists r, Dispatch.matmul Std a b = Ok (PyTensor r) /\
             product lsum s_mul r) /\
  (exists r, Dispatch.matmul Log a b = Ok (PyTensor r) /\
             product lse s_add r) /\
  (0 < m -> exists r, Dispatch.matmul Max a b = Ok (PyTensor r) /\
                      product lmax s_add r) /\
  (m = 0 -> Dispatch.matmul Max a b = Raise IndexError).
Proof.
  intros Ha Hb product.
  assert (Hval : forall (g : list A -> A) (c r : tensor A),
             shape c = (bs ++ [n; p]) ++ [m] ->
             (forall bi i k j, in_range bs bi -> i < n -> k < p -> j < m ->
                tget c ((bi ++ [i; k]) ++ [j])
                = s_add (tget a (bi ++ [i; j])) (tget b (bi ++ [j; k]))) ->
             shape r = bs ++ [n; p] ->
             (forall i, length i = length (bs ++ [n; p]) ->
                tget r i = g (map (fun j => tget c (i ++ [j])) (seq 0 m))) ->
             product g s_add r).
  { intros g c r Hsc Hgc Hsr Hgr. split; [exact Hsr |].
    intros bi i k Hbi Hi Hk.
    rewrite Hgr
      by (rewrite !length_app; cbn [length];
          now rewrite (in_range_length Hbi)).
    f_equal. apply map_ext_in. intros j Hj. apply in_seq in Hj.
    apply Hgc; (assumption || lia). }
  split; [| split; [| split]].
  - destruct (@tmatmul_at _ _ a b bs n m p Ha Hb) as (r & Hr & Hsr & Hgr).
    exists r. cbn [Dispatch.matmul]. unfold StdSemiring.matmul.
    rewrite Hr. split; [reflexivity |]. split; [exact Hsr |].
    intros bi i k Hbi _ _. now apply Hgr.
  - destruct (@Semiring_matmul_at _ s_add
                (fun xs dim => t <- _BaseLog.sum xs dim ;; Ok (PyTensor t))
                a b bs n m p Ha Hb) as (c & Hc & Hsc & Hgc).
    destruct (@reduce_dim_last _ lse c (bs ++ [n; p]) m Hsc)
      as (r & Hr & Hsr & Hgr).
    exists r. cbn [Dispatch.matmul]. unfold LogSemiring.matmul.
    change (@_BaseLog.mul A SA) with (binop (@s_add A SA)).
    rewrite Hc. unfold _BaseLog.sum, logsumexp. rewrite Hr.
    split; [reflexivity |]. now apply (Hval lse c r).
  - intros Hm.
    destruct (@Semiring_matmul_at _ s_add
                (fun xs dim => t <- MaxSemiring.sum xs dim ;;
                               Ok (PyTensor t))
                a b bs n m p Ha Hb) as (c & Hc & Hsc & Hgc).
    destruct (@tmax_last _ _ c (bs ++ [n; p]) m Hsc Hm)
      as (r & Hr & Hsr & Hgr).
    exists r. cbn [Dispatch.matmul]. unfold MaxSemiring.matmul.
    change (@_BaseLog.mul A SA) with (binop (@s_add A SA)).
    rewrite Hc. unfold MaxSemiring.sum. rewrite Hr.
    split; [reflexivity |]. now apply (Hval lmax c r).
  - intros Hm.
    destruct (@Semiring_matmul_at _ s_add
                (fun xs dim => t <- MaxSemiring.sum xs dim ;;
                               Ok (PyTensor t))
                a b bs n m p Ha Hb) as (c & Hc & Hsc & Hgc).
    cbn [Dispatch.matmul]. unfold MaxSemiring.matmul.
    change (@_BaseLog.mul A SA) with (binop (@s_add A SA)).
    rewrite Hc. unfold MaxSemiring.sum, tmax.
    rewrite wrap_dim_last. cbn [bind]. unfold ndim.
    rewrite Hsc, length_app. cbn [length].
    replace (length (bs ++ [n; p]) + 1 - 1) with (length (bs ++ [n; p]))
      by lia.
    rewrite nth_middle, Hm. reflexivity.
Qed.

(** X12.  [matmul] is the matrix product of the semiring: for [a] of shape
    [bs ++ [n; m]] and [b] of shape [bs ++ [m; p]] the entry [(i, k)] of
    every matrix of the result is the semiring sum over [j] of the
    semiring products of [a[.., i, j]] and [b[.., j, k]]: sum of products
    on Std, logsumexp of sums on Log, max of sums on Max, where an inner
    dimension of 0 raises. *)
Theorem matmul_semiring_product {A} {SA : Scalar A} {TA : Transcendental A}
    (a b : tensor A) (bs : list nat) (n m p : nat) :
  shape a = bs ++ [n; m] -> shape b = bs ++ [m; p] ->
  let product := fun (oplus : list A -> A) (otimes : A -> A -> A)
                     (r : tensor A) =>
    shape r = bs ++ [n; p] /\
    forall bi i k, in_range bs bi -> i < n -> k < p ->
      tget r (bi ++ [i; k])
      = oplus (map (fun j => otimes (tget a (bi ++ [i; j]))
                               (tget b (bi ++ [j; k]))) (seq 0 m)) in
  (exists r, Dispatch.matmul Std a b = Ok (PyTensor r) /\
             product lsum s_mul r) /\
  (exists r, Dispatch.matmul Log a b = Ok (PyTensor r) /\
             product lse s_add r) /\
  (0 < m -> exists r, Dispatch.matmul Max a b = Ok (PyTensor r) /\
                      product lmax s_add r) /\
  (m = 0 -> Dispatch.matmul Max a b = Raise IndexError).
Proof.
  intros Ha Hb. exact (@matmul_product_at A SA TA a b bs n m p Ha Hb).
Qed.

Lemma matmul_semiring_product_witness :
  exists r,
    Dispatch.matmul Max (of_flat 0%R [2; 2] [1; 2; 3; 4]%R)
      (of_flat 0%R [2; 1] [5; 6]%R) = Ok (PyTensor r) /\
    tget r [0; 0] = lmax [1 + 5; 2 + 6]%R.
Proof.
  destruct (@matmul_semiring_product R _ _
              (of_flat 0%R [2; 2] [1; 2; 3; 4]%R)
              (of_flat 0%R [2; 1] [5; 6]%R) [] 2 2 1 eq_refl eq_refl)
    as (_ & _ & Hmax & _).
  destruct Hmax as (r & Hr & _ & Hget); [lia |].
  exists r. split; [exact Hr |].
  apply (Hget [] 0 0); [reflexivity | lia | lia].
Defined.

Lemma in_range_app_inv : forall s t idx,
  in_range (s ++ t) idx ->
  exists i j, idx = i ++ j /\ in_range s i /\ in_range t j.
Proof.
  induction s as [| n s IH]; intros t idx Hr.
  - exists [], idx. repeat split. exact Hr.
  - cbn [app] in Hr. apply in_range_inv_cons in Hr.
    destruct Hr as (c & idx' & -> & Hc & Hr).
    destruct (IH _ _ Hr) as (i & j & -> & Hi & Hj).
    exists (c :: i), j. split; [reflexivity |]. split; [| exact Hj].
    apply in_range_cons. now split.
Qed.

Lemma in_range_2 (n p : nat) (idx : list nat) :
  in_range [n; p] idx -> exists i k, idx = [i; k] /\ i < n /\ k < p.
Proof.
  intros Hr. apply in_range_inv_cons in Hr.
  destruct Hr as (i & idx' & -> & Hi & Hr).
  apply in_range_inv_cons in Hr.
  destruct Hr as (k & idx'' & -> & Hk & Hr).
  apply in_range_nil_l in Hr. subst. exists i, k. auto.
Qed.

(** X13.  On dense tensors Std's own [matmul], a call of [torch.matmul],
    returns what the generic [matmul] of the base class returns with Std's
    [times] and [sum]. *)
Theorem Std_matmul_agrees_with_generic {A} {SA : Scalar A}
    {TA : Transcendental A}
    (a b : tensor A) (bs : list nat) (n m p : nat) :
  shape a = bs ++ [n; m] -> shape b = bs ++ [m; p] ->
  exists r r',
    Dispatch.matmul Std a b = Ok (PyTensor r) /\
    Semiring.matmul (Dispatch.times Std) (Dispatch.sum Std) a b
    = Ok (PyTensor r') /\
    teq r r'.
Proof.
  intros Ha Hb.
  destruct (@tmatmul_at _ _ a b bs n m p Ha Hb) as (r & Hr & Hsr & Hgr).
  destruct (@Semiring_matmul_at _ s_mul (Dispatch.sum Std)
              a b bs n m p Ha Hb) as (c & Hc & Hsc & Hgc).
  destruct (@reduce_dim_last _ lsum c (bs ++ [n; p]) m Hsc)
    as (r' & Hr' & Hsr' & Hgr').
  exists r, r'. cbn [Dispatch.matmul]. unfold StdSemiring.matmul.
  rewrite Hr. split; [reflexivity |]. split.
  - change (@Dispatch.times A SA Std)
      with (Semiring.times (binop (@s_mul A SA))).
    rewrite Hc. cbn [Dispatch.sum].
    unfold StdSemiring.sum, tsum, Dispatch.ret_tensor.
    now rewrite Hr'.
  - split; [congruence |]. intros idx Hi. rewrite Hsr in Hi.
    apply in_range_app_inv in Hi. destruct Hi as (bi & ik & -> & Hbi & Hik).
    apply in_range_2 in Hik. destruct Hik as (i & k & -> & Hi & Hk).
    rewrite (Hgr bi i k Hbi).
    rewrite Hgr'
      by (rewrite !length_app; cbn [length];
          now rewrite (in_range_length Hbi)).
    f_equal. apply map_ext_in. intros j Hj. apply in_seq in Hj.
    symmetry. apply Hgc; (assumption || lia).
Qed.

Lemma Std_matmul_agrees_with_generic_witness :
  exists r r',
    Dispatch.matmul Std (of_flat 0%R [2; 2] [1; 2; 3; 4]%R)
      (of_flat 0%R [2; 1] [5; 6]%R) = Ok (PyTensor r) /\
    Semiring.matmul (Dispatch.times Std) (Dispatch.sum Std)
      (of_flat 0%R [2; 2] [1; 2; 3; 4]%R) (of_flat 0%R [2; 1] [5; 6]%R)
    = Ok (PyTensor r') /\
    teq r r'.
Proof.
  exact (@Std_matmul_agrees_with_generic R _ _
           (of_flat 0%R [2; 2] [1; 2; 3; 4]%R)
           (of_flat 0%R [2; 1] [5; 6]%R) [] 2 2 1 eq_refl eq_refl).
Defined.

Section Dot.
Context {A : Type} {SA : Scalar A} {TA : Transcendental A}.

(** The operands of [dot], as a row and a column. *)
Lemma dot_operands (a b : tensor A) (bs : list nat) (m : nat) :
  shape a = bs ++ [m] -> shape b = bs ++ [m] ->
  exists a1 b1,
    unsqueeze a (-2) = Ok a1 /\ unsqueeze b (-1) = Ok b1 /\
    shape a1 = bs ++ [1; m] /\ shape b1 = bs ++ [m; 1] /\
    forall bi j, length bi = length bs ->
      tget a1 (bi ++ [0; j]) = tget a (bi ++ [j]) /\
      tget b1 (bi ++ [j; 0]) = tget b (bi ++ [j]).
Proof.
  intros Ha Hb.
  destruct (@unsqueeze_split _ a bs [m] (-2)%Z Ha eq_refl)
    as (a1 & Ha1 & Hsa1 & Hga1).
  destruct (@unsqueeze_split _ b (bs ++ [m]) [] (-1)%Z)
    as (b1 & Hb1 & Hsb1 & Hgb1);
    [now rewrite app_nil_r | reflexivity |].
  rewrite <- app_assoc in Hsb1. cbn [app] in Hsb1.
  exists a1, b1. repeat (split; [assumption |]).
  intros bi j Hl. split; [now apply Hga1 |].
  replace (bi ++ [j; 0]) with ((bi ++ [j]) ++ [0])
    by (now rewrite <- app_assoc).
  rewrite Hgb1 by (rewrite !length_app; cbn [length]; lia).
  now rewrite app_nil_r.
Qed.

(** The two [squeeze(-1)] of [dot] on a result of one row and one
    column. *)
Lemma dot_squeeze (c : tensor A) (bs : list nat) :
  shape c = bs ++ [1; 1] ->
  exists r,
    (c1 <- squeeze c (-1) ;; squeeze c1 (-1)) = Ok r /\
    shape r = bs /\
    forall bi, length bi = length bs -> tget r bi = tget c (bi ++ [0; 0]).
Proof.
  intros Hc.
  destruct (@squeeze_last _ c (bs ++ [1])) as (c1 & Hc1 & Hs1 & Hg1);
    [now rewrite <- app_assoc |].
  destruct (@squeeze_last _ c1 bs Hs1) as (r & Hr & Hsr & Hgr).
  exists r. rewrite Hc1. cbn [bind]. split; [exact Hr |].
  split; [exact Hsr |]. intros bi Hl.
  rewrite (Hgr bi Hl),
    Hg1 by (rewrite !length_app; cbn [length]; lia).
  now rewrite <- app_assoc.
Qed.

Lemma dot_product_at (a b : tensor A) (bs : list nat) (m : nat) :
  shape a = bs ++ [m] -> shape b = bs ++ [m] ->
  let product := fun (oplus : list A -> A) (otimes : A -> A -> A)
                     (r : tensor A) =>
    shape r = bs /\
    forall bi, in_range bs bi ->
      tget r bi
      = oplus (map (fun j => otimes (tget a (bi ++ [j]))
                               (tget b (bi ++ [j]))) (seq 0 m)) in
  (exists r, Dispatch.dot Std a b = Ok r /\ product lsum s_mul r) /\
  (exists r, Dispatch.dot Log a b = Ok r /\ product lse s_add r) /\
  (0 < m -> exists r, Dispatch.dot Max a b = Ok r /\
                      product lmax s_add r) /\
  (m = 0 -> Dispatch.dot Max a b = Raise IndexError).
Proof.
  intros Ha Hb product.
  destruct (@dot_operands a b bs m Ha Hb)
    as (a1 & b1 & Ha1 & Hb1 & Hsa1 & Hsb1 & Hg1).
  destruct (@matmul_product_at _ _ _ a1 b1 bs 1 m 1 Hsa1 Hsb1)
    as (HStd & HLog & HMax & HMax0).
  assert (Hfin : forall (oplus : list A -> A) (otimes : A -> A -> A)
                        (c : tensor A),
             shape c = bs ++ [1; 1] ->
             (forall bi i k, in_range bs bi -> i < 1 -> k < 1 ->
                tget c (bi ++ [i; k])
                = oplus (map (fun j => otimes (tget a1 (bi ++ [i; j]))
                                         (tget b1 (bi ++ [j; k])))
                           (seq 0 m))) ->
             exists r,
               (c1 <- squeeze c (-1) ;; squeeze c1 (-1)) = Ok r /\
               product oplus otimes r).
  { intros oplus otimes c Hsc Hgc.
    destruct (@dot_squeeze c bs Hsc) as (r & Hr & Hsr & Hgr).
    exists r. split; [exact Hr |]. split; [exact Hsr |].
    intros bi Hbi. pose proof (in_range_length Hbi) as Hl.
    rewrite (Hgr bi Hl), (Hgc bi 0 0 Hbi) by lia.
    f_equal. apply map_ext. intros j.
    destruct (Hg1 bi j Hl) as [E1 E2]. now rewrite E1, E2. }
  unfold Dispatch.dot, Semiring.dot. rewrite Ha1, Hb1. cbn [bind].
  split; [| split; [| split]].
  - destruct HStd as (c & Hc & Hsc & Hgc). rewrite Hc. cbn [bind].
    now apply Hfin.
  - destruct HLog as (c & Hc & Hsc & Hgc). rewrite Hc. cbn [bind].
    now apply Hfin.
  - intros Hm. destruct (HMax Hm) as (c & Hc & Hsc & Hgc).
    rewrite Hc. cbn [bind]. now apply Hfin.
  - intros Hm. now rewrite (HMax0 Hm).
Qed.

End Dot.

(** X14.  [dot] is the inner product of the semiring along the last axis:
    for [a] and [b] of shape [bs ++ [m]] the result has shape [bs] and
    holds the semiring sum over [j] of the semiring products of
    [a[.., j]] and [b[.., j]]: sum of products on Std, logsumexp of sums on
    Log, max of sums on Max, where a last axis of length 0 raises. *)
Theorem dot_semiring_product {A} {SA : Scalar A} {TA : Transcendental A}
    (a b : tensor A) (bs : list nat) (m : nat) :
  shape a = bs ++ [m] -> shape b = bs ++ [m] ->
  let product := fun (oplus : list A -> A) (otimes : A -> A -> A)
                     (r : tensor A) =>
    shape r = bs /\
    forall bi, in_range bs bi ->
      tget r bi
      = oplus (map (fun j => otimes (tget a (bi ++ [j]))
                               (tget b (bi ++ [j]))) (seq 0 m)) in
  (exists r, Dispatch.dot Std a b = Ok r /\ product lsum s_mul r) /\
  (exists r, Dispatch.dot Log a b = Ok r /\ product lse s_add r) /\
  (0 < m -> exists r, Dispatch.dot Max a b = Ok r /\
                      product lmax s_add r) /\
  (m = 0 -> Dispatch.dot Max a b = Raise IndexError).
Proof.
  intros Ha Hb. exact (@dot_product_at A SA TA a b bs m Ha Hb).
Qed.

Lemma dot_semiring_product_witness :
  exists r,
    Dispatch.dot Std (of_list 0%R [1; 2; 3]%R) (of_list 0%R [4; 5; 6]%R)
    = Ok r /\
    tget r [] = 32%R.
Proof.
  destruct (@dot_semiring_product R _ _
              (of_list 0%R [1; 2; 3]%R) (of_list 0%R [4; 5; 6]%R) [] 3
              eq_refl eq_refl) as ((r & Hr & _ & Hget) & _).
  exists r. split; [exact Hr |]. rewrite (Hget [] eq_refl).
  cbn. ring.
Defined.

(** X15.  TempMax's [sum] has no body, so on TempMax [matmul] unsqueezes,
    multiplies and transposes its operands and then returns [None], and
    [dot] raises on the [squeeze] of that [None]. *)
Theorem TempMax_matmul_none {A} {SA : Scalar A} {TA : Transcendental A}
    (alpha : A) (a b : tensor A) (bs : list nat) (n m p : nat) :
  shape a = bs ++ [n; m] -> shape b = bs ++ [m; p] ->
  Dispatch.matmul (TempMax alpha) a b = Ok PyNone /\
  forall (u v : tensor A) (s : list nat) (l : nat),
    shape u = s ++ [l] -> shape v = s ++ [l] ->
    Dispatch.dot (TempMax alpha) u v = Raise AttributeError.
Proof.
  intros Ha Hb.
  assert (Hmat : forall (a b : tensor A) bs n m p,
             shape a = bs ++ [n; m] -> shape b = bs ++ [m; p] ->
             Dispatch.matmul (TempMax alpha) a b = Ok PyNone).
  { clear. intros a b bs n m p Ha Hb.
    destruct (@Semiring_matmul_at _ s_add (Dispatch.sum (TempMax alpha))
                a b bs n m p Ha Hb) as (c & Hc & _).
    cbn [Dispatch.matmul].
    change (@Dispatch.times A SA (TempMax alpha))
      with (Semiring.times (binop (@s_add A SA))).
    rewrite Hc. reflexivity. }
  split; [now apply (Hmat a b bs n m p) |].
  intros u v s l Hu Hv.
  destruct (@dot_operands A u v s l Hu Hv)
    as (u1 & v1 & Hu1 & Hv1 & Hsu & Hsv & _).
  unfold Dispatch.dot, Semiring.dot. rewrite Hu1, Hv1. cbn [bind].
  now rewrite (Hmat u1 v1 s 1 l 1 Hsu Hsv).
Qed.

Lemma TempMax_matmul_none_witness :
  Dispatch.matmul (TempMax 2%R) (of_flat 0%R [2; 2] [1; 2; 3; 4]%R)
    (of_flat 0%R [2; 1] [5; 6]%R) = Ok PyNone.
Proof.
  exact (proj1 (@TempMax_matmul_none R _ _ 2%R
                  (of_flat 0%R [2; 2] [1; 2; 3; 4]%R)
                  (of_flat 0%R [2; 1] [5; 6]%R) [] 2 2 1
                  eq_refl eq_refl)).
Defined.

(** ** Products over an axis *)

Section Prod.
Context {A : Type} {SA : Scalar A}.

Lemma binop_same (f : A -> A -> A) (a b : tensor A) :
  shape b = shape a ->
  exists r,
    binop f a b = Ok r /\ shape r = shape a /\
    forall idx, in_range (shape a) idx ->
      tget r idx = f (tget a idx) (tget b idx).
Proof.
  intros Hb. unfold binop. rewrite Hb, bshape_refl.
  eexists. split; [reflexivity |]. split; [reflexivity |].
  intros idx Hr. cbn [tget]. now rewrite (bidx_id Hr).
Qed.

Lemma stack_0 (t : tensor A) (r : list (tensor A)) (s : list nat) :
  (forall x, In x (t :: r) -> shape x = s) ->
  exists st,
    stack (t :: r) 0 = Ok st /\
    shape st = S (length r) :: s /\
    forall j idx, tget st (j :: idx) = tget (nth j (t :: r) t) idx.
Proof.
  intros Hall. unfold stack.
  assert (Hf : forallb (fun x => shape_eqb (shape x) (shape t)) (t :: r)
               = true).
  { apply forallb_forall. intros x Hx.
    rewrite (Hall x Hx), (Hall t (or_introl eq_refl)).
    apply shape_eqb_refl. }
  rewrite Hf, wrap_dim_0. cbn [bind].
  eexists. split; [reflexivity |]. split.
  - cbn [shape]. unfold insert_at. cbn [firstn skipn app length].
    now rewrite (Hall t (or_introl eq_refl)).
  - intros j idx. reflexivity.
Qed.

(** [times] folds the element-wise operation from the left. *)
Lemma times_at (f : A -> A -> A) : forall (r : list (tensor A))
    (t : tensor A) (s : list nat),
  (forall x, In x (t :: r) -> shape x = s) ->
  exists q,
    Semiring.times (binop f) (t :: r) = Ok q /\
    shape q = s /\
    forall idx, in_range s idx ->
      tget q idx = fold_left f (map (fun x => tget x idx) r) (tget t idx).
Proof.
  induction r as [| x r IH]; intros t s Hall.
  - exists t. split; [reflexivity |].
    split; [apply Hall; now left | reflexivity].
  - assert (Ht : shape t = s) by (apply Hall; now left).
    assert (Hx : shape x = s) by (apply Hall; right; now left).
    destruct (@binop_same f t x) as (t' & Hb & Hs' & Hg'); [congruence |].
    destruct (IH t' s) as (q & Hq & Hsq & Hgq).
    { intros y [<- | Hy]; [congruence | apply Hall; right; now right]. }
    exists q. unfold Semiring.times in *. cbn [fold_left bind].
    rewrite Hb. split; [exact Hq |]. split; [exact Hsq |].
    intros idx Hr. rewrite (Hgq idx Hr). cbn [map fold_left].
    rewrite Hg' by (now rewrite Ht). reflexivity.
Qed.

Lemma fold_left_assoc (f : A -> A -> A) :
  (forall a b c, f a (f b c) = f (f a b) c) ->
  forall l x y, f x (fold_left f l y) = fold_left f l (f x y).
Proof.
  intros Hassoc. induction l as [| z l IH]; intros x y; [reflexivity |].
  cbn [fold_left]. now rewrite IH, Hassoc.
Qed.

Lemma fold_right_left (f : A -> A -> A) (e : A) :
  (forall a b c, f a (f b c) = f (f a b) c) -> (forall a, f a e = a) ->
  forall l x, fold_right f e (x :: l) = fold_left f l x.
Proof.
  intros Hassoc Hunit. induction l as [| y l IH]; intros x.
  - apply Hunit.
  - cbn [fold_right fold_left] in *. rewrite IH.
    now apply fold_left_assoc.
Qed.

Lemma lane_stack_0 (st t : tensor A) (r : list (tensor A)) (s idx : list nat) :
  shape st = S (length r) :: s ->
  (forall j idx, tget st (j :: idx) = tget (nth j (t :: r) t) idx) ->
  lane st 0 idx = map (fun x => tget x idx) (t :: r).
Proof.
  intros Hs Hg. unfold lane. rewrite Hs. cbn [nth].
  transitivity (map (fun x => tget x idx)
                  (map (fun j => nth j (t :: r) t)
                     (seq 0 (length (t :: r)))));
    [| now rewrite map_nth_seq].
  rewrite map_map. apply map_ext. intros j. apply Hg.
Qed.

(** [prod] over the axis of a stack: the fold of the element-wise
    operation over the stacked tensors. *)
Lemma reduce_stack_0 (g : list A -> A) (t : tensor A)
    (r : list (tensor A)) (s : list nat) :
  (forall x, In x (t :: r) -> shape x = s) ->
  exists st p,
    stack (t :: r) 0 = Ok st /\
    reduce_dim g st 0 = Ok p /\
    shape p = s /\
    forall idx, tget p idx = g (map (fun x => tget x idx) (t :: r)).
Proof.
  intros Hall. destruct (stack_0 Hall) as (st & Hst & Hsst & Hgst).
  exists st. rewrite (@reduce_dim_at _ g st 0%Z 0);
    [| rewrite Hsst; discriminate | apply wrap_dim_0].
  eexists. split; [exact Hst |]. split; [reflexivity |]. split.
  - cbn [shape]. now rewrite Hsst.
  - intros idx. cbn [tget]. f_equal. now apply lane_stack_0 with (s := s).
Qed.

End Prod.

(** X16.  On every semiring but K-Max, [prod] over the leading axis of
    a stack of tensors of one shape returns what [times] returns on those
    tensors. *)
Theorem prod_stack_is_times {A} {SA : Scalar A} {SL : ScalarLaws A}
    {SR : ScalarRing A} (c : semiring A) (t : tensor A)
    (r : list (tensor A)) (s : list nat) :
  (forall x, In x (t :: r) -> shape x = s) ->
  (forall k, c <> KMax k) ->
  exists st p q,
    stack (t :: r) 0 = Ok st /\
    Dispatch.prod c st 0 = Ok p /\
    Dispatch.times c (t :: r) = Ok q /\
    teq p q.
Proof.
  intros Hall HK.
  assert (Hgen : forall (f : A -> A -> A) (e : A),
             (forall a b c, f a (f b c) = f (f a b) c) ->
             (forall a, f a e = a) ->
             exists st p q,
               stack (t :: r) 0 = Ok st /\
               reduce_dim (fold_right f e) st 0 = Ok p /\
               Semiring.times (binop f) (t :: r) = Ok q /\
               teq p q).
  { intros f e Hassoc Hunit.
    destruct (@reduce_stack_0 _ (fold_right f e) t r s Hall)
      as (st & p & Hst & Hp & Hsp & Hgp).
    destruct (@times_at _ f r t s Hall) as (q & Hq & Hsq & Hgq).
    exists st, p, q. repeat (split; [assumption |]).
    split; [congruence |]. intros idx Hr. rewrite Hsp in Hr.
    rewrite Hgp, (Hgq idx Hr). cbn [map].
    now apply fold_right_left. }
  pose proof (Hgen s_mul s_one s_mul_assoc s_mul_1_r) as Hmul.
  pose proof (Hgen s_add s_zero s_add_assoc s_add_0_r) as Hadd.
  destruct c; try exact Hadd; try exact Hmul.
  exfalso. now apply (HK k).
Qed.

Lemma prod_stack_is_times_witness :
  exists st p q,
    stack [of_list 0%Z [2; 3]%Z; of_list 0%Z [4; 5]%Z;
           of_list 0%Z [6; 7]%Z] 0 = Ok st /\
    Dispatch.prod Std st 0 = Ok p /\
    Dispatch.times Std [of_list 0%Z [2; 3]%Z; of_list 0%Z [4; 5]%Z;
                        of_list 0%Z [6; 7]%Z] = Ok q /\
    teq p q.
Proof.
  apply (@prod_stack_is_times Z _ _ _ Std (of_list 0%Z [2; 3]%Z)
           [of_list 0%Z [4; 5]%Z; of_list 0%Z [6; 7]%Z] [2]).
  - intros x [<- | [<- | [<- | []]]]; reflexivity.
  - intros k. discriminate.
Defined.

(** ** Distributivity *)

Section Distributivity.
Context {A : Type} {SA : Scalar A} {TA : Transcendental A}.

(** [plus] on Std, Log and Max reduces the pair of elements of every
    position. *)
Lemma plus_at (c : semiring A) (g : list A -> A) (x y : tensor A) :
  (c = Std /\ g = lsum) \/ (c = Log /\ g = lse) \/ (c = Max /\ g = lmax) ->
  shape y = shape x ->
  exists r,
    Dispatch.plus c x y = Ok (PyTensor r) /\
    shape r = shape x /\
    forall idx, in_range (shape x) idx ->
      tget r idx = g [tget x idx; tget y idx].
Proof.
  intros Hc Hy.
  destruct (@reduce_stack2 _ g x y Hy)
    as (st & r & Hst & Hred & Hnth & Hsh & Hget).
  exists r. unfold Dispatch.plus, Semiring.plus. rewrite Hst.
  cbn [bind]. split; [| split; [exact Hsh | exact Hget]].
  destruct Hc as [[-> ->] | [[-> ->] | [-> ->]]]; cbn [Dispatch.sum].
  - unfold StdSemiring.sum, tsum. now rewrite Hred.
  - unfold _BaseLog.sum, logsumexp. now rewrite Hred.
  - unfold MaxSemiring.sum, tmax.
    rewrite wrap_dim_last. cbn [bind]. rewrite Hnth. cbn [Nat.eqb].
    now rewrite Hred.
Qed.

Lemma times2_at (c : semiring A) (f : A -> A -> A) (x y : tensor A) :
  (c = Std /\ f = s_mul) \/ ((c = Log \/ c = Max) /\ f = s_add) ->
  shape y = shape x ->
  exists r,
    Dispatch.times c [x; y] = Ok r /\
    shape r = shape x /\
    forall idx, in_range (shape x) idx ->
      tget r idx = f (tget x idx) (tget y idx).
Proof.
  intros Hc Hy. destruct (@binop_same _ f x y Hy) as (r & Hr & Hs & Hg).
  exists r. split; [| split; [exact Hs | exact Hg]].
  destruct Hc as [[-> ->] | [[-> | ->] ->]]; exact Hr.
Qed.

(** Distributivity on tensors, from distributivity on scalars. *)
Lemma distributive_at (c : semiring A) (g : list A -> A)
    (f : A -> A -> A) (a b d : tensor A) :
  (c = Std /\ g = lsum /\ f = s_mul) \/
  (c = Log /\ g = lse /\ f = s_add) \/
  (c = Max /\ g = lmax /\ f = s_add) ->
  (forall x y z, f x (g [y; z]) = g [f x y; f x z]) ->
  shape b = shape a -> shape d = shape a ->
  exists bd l ab ad r,
    Dispatch.plus c b d = Ok (PyTensor bd) /\
    Dispatch.times c [a; bd] = Ok l /\
    Dispatch.times c [a; b] = Ok ab /\
    Dispatch.times c [a; d] = Ok ad /\
    Dispatch.plus c ab ad = Ok (PyTensor r) /\
    teq l r.
Proof.
  intros Hc Hdist Hb Hd.
  assert (Hcg : (c = Std /\ g = lsum) \/ (c = Log /\ g = lse)
                \/ (c = Max /\ g = lmax)) by tauto.
  assert (Hcf : (c = Std /\ f = s_mul)
                \/ ((c = Log \/ c = Max) /\ f = s_add)) by tauto.
  destruct (@plus_at c g b d Hcg) as (bd & Hbd & Hsbd & Hgbd);
    [congruence |].
  destruct (@times2_at c f a bd Hcf) as (l & Hl & Hsl & Hgl);
    [congruence |].
  destruct (@times2_at c f a b Hcf Hb) as (ab & Hab & Hsab & Hgab).
  destruct (@times2_at c f a d Hcf Hd) as (ad & Had & Hsad & Hgad).
  destruct (@plus_at c g ab ad Hcg) as (r & Hr & Hsr & Hgr);
    [congruence |].
  exists bd, l, ab, ad, r. repeat (split; [assumption |]).
  split; [congruence |]. intros idx Hi. rewrite Hsl in Hi.
  rewrite (Hgl idx Hi), Hgbd by (now rewrite Hb).
  rewrite Hgr by (now rewrite Hsab).
  rewrite (Hgab idx Hi), (Hgad idx Hi). apply Hdist.
Qed.

End Distributivity.

(** X17.  On Std, Log and Max, over the reals, [times] distributes over
    [plus]: for tensors of one shape [times(a, plus(b, d))] and
    [plus(times(a, b), times(a, d))] are the same tensor. *)
Theorem times_distributes_over_plus (c : semiring R) (a b d : tensor R) :
  c = Std \/ c = Log \/ c = Max ->
  shape b = shape a -> shape d = shape a ->
  exists bd l ab ad r,
    Dispatch.plus c b d = Ok (PyTensor bd) /\
    Dispatch.times c [a; bd] = Ok l /\
    Dispatch.times c [a; b] = Ok ab /\
    Dispatch.times c [a; d] = Ok ad /\
    Dispatch.plus c ab ad = Ok (PyTensor r) /\
    teq l r.
Proof.
  intros [-> | [-> | ->]] Hb Hd.
  - apply (@distributive_at R _ _ Std lsum s_mul a b d); auto.
    intros x y z. cbn. ring.
  - apply (@distributive_at R _ _ Log lse s_add a b d); auto.
    intros x y z. unfold lse. cbn.
    rewrite !exp_plus, !Rplus_0_r.
    rewrite <- Rmult_plus_distr_l.
    rewrite ln_mult, ln_exp;
      [reflexivity | apply exp_pos |].
    apply Rplus_lt_0_compat; apply exp_pos.
  - apply (@distributive_at R _ _ Max lmax s_add a b d); auto.
    intros x y z. cbn. unfold Rleb.
    destruct (Rle_dec y z); destruct (Rle_dec (x + y) (x + z));
      (reflexivity || (exfalso; lra)).
Qed.

Lemma times_distributes_over_plus_witness :
  exists bd l ab ad r,
    Dispatch.plus Log (of_list 0%R [2]%R) (of_list 0%R [3]%R)
    = Ok (PyTensor bd) /\
    Dispatch.times Log [of_list 0%R [1]%R; bd] = Ok l /\
    Dispatch.times Log [of_list 0%R [1]%R; of_list 0%R [2]%R] = Ok ab /\
    Dispatch.times Log [of_list 0%R [1]%R; of_list 0%R [3]%R] = Ok ad /\
    Dispatch.plus Log ab ad = Ok (PyTensor r) /\
    teq l r.
Proof.
  apply (@times_distributes_over_plus Log (of_list 0%R [1]%R)
           (of_list 0%R [2]%R) (of_list 0%R [3]%R)).
  - right. now left.
  - reflexivity.
  - reflexivity.
Defined.

(** ** TempMax: [sparse_sum] *)

(** X18.  TempMax's [sparse_sum] over a last axis of positive length
    returns the maximum that Max's [sum] returns, an index tensor of zeros
    without the last axis, and the softmax of [alpha * xs] along the last
    axis: weights that are positive and add up to one on every lane.  On a
    last axis of length 0 it raises. *)
Theorem TempMax_sparse_sum_softmax (alpha : R) (xs : tensor R)
    (s : list nat) (n : nat) :
  shape xs = s ++ [n] ->
  (0 < n ->
   exists m z a,
     _TempMax.sparse_sum alpha xs (-1) = Ok (m, (z, a)) /\
     MaxSemiring.sum xs (-1) = Ok m /\
     shape z = s /\ (forall i, tget z i = 0) /\
     shape a = s ++ [n] /\
     forall i, in_range s i ->
       (forall j, j < n ->
          tget a (i ++ [j])
          = softmax n (fun j => alpha * tget xs (i ++ [j]))%R j /\
          (0 < tget a (i ++ [j]))%R) /\
       Rsum n (fun j => tget a (i ++ [j])) = 1%R) /\
  (n = 0 -> _TempMax.sparse_sum alpha xs (-1) = Raise IndexError).
Proof.
  intros Hs.
  assert (Hw : wrap_dim (-1) (ndim xs) = Ok (length s)).
  { rewrite wrap_dim_last. unfold ndim. rewrite Hs, length_app.
    cbn [length]. f_equal. lia. }
  split.
  - intros Hn.
    destruct (@tmax_last _ _ xs s n Hs Hn) as (m & Hm & Hsm & Hgm).
    unfold _TempMax.sparse_sum, MaxSemiring.sum. rewrite Hm. cbn [bind].
    unfold softmax_t.
    change (ndim (tmap (s_mul alpha) xs)) with (ndim xs).
    rewrite Hw. cbn [bind].
    change (shape (tmap (s_mul alpha) xs)) with (shape xs).
    destruct (shape xs) as [| n0 s0] eqn:Hsx;
      [destruct s; discriminate |].
    eexists. eexists. eexists.
    split; [reflexivity |]. split; [reflexivity |].
    cbn [shape zeros_long tget]. rewrite Hs, removelast_last.
    split; [reflexivity |]. split; [reflexivity |].
    split; [reflexivity |].
    intros i Hi. pose proof (in_range_length Hi) as Hl.
    assert (Hval : forall j,
               s_div (s_exp (tget (tmap (s_mul alpha) xs) (i ++ [j])))
                 (lsum (map s_exp
                          (lane (tmap (s_mul alpha) xs) (length s)
                             (remove_at (length s) (i ++ [j])))))
               = softmax n (fun j => alpha * tget xs (i ++ [j]))%R j).
    { intros j. rewrite <- Hl, remove_at_end. unfold lane, softmax, Rsum.
      change (shape (tmap (s_mul alpha) xs)) with (shape xs).
      rewrite Hsx, Hs, Hl, nth_middle, map_map.
      cbn [tget tmap s_div s_exp s_mul R_Scalar R_Division
             R_Transcendental].
      f_equal. f_equal. apply map_ext. intros j'.
      rewrite <- Hl. now rewrite insert_at_end. }
    split.
    + intros j Hj. rewrite Hval. split; [reflexivity |].
      now apply softmax_pos.
    + rewrite (@Rsum_ext n _
                 (softmax n (fun j => alpha * tget xs (i ++ [j]))%R))
        by (intros j _; apply Hval).
      now apply softmax_sum_one.
  - intros ->. unfold _TempMax.sparse_sum, tmax. rewrite Hw. cbn [bind].
    rewrite Hs, nth_middle. reflexivity.
Qed.

Lemma TempMax_sparse_sum_softmax_witness :
  exists m z a,
    _TempMax.sparse_sum 2%R (of_flat 0%R [1; 2] [1; 3]%R) (-1)
    = Ok (m, (z, a)) /\
    Rsum 2 (fun j => tget a [0; j]) = 1%R.
Proof.
  destruct (@TempMax_sparse_sum_softmax 2%R (of_flat 0%R [1; 2] [1; 3]%R)
              [1] 2 eq_refl) as [Hpos _].
  destruct Hpos as (m & z & a & Hsp & _ & _ & _ & _ & Hw); [lia |].
  exists m, z, a. split; [exact Hsp |].
  exact (proj2 (Hw [0] eq_refl)).
Defined.

(** ** K-Max: commutativity of [mul] *)

Section KMaxComm.
Context {A : Type} {SA : Scalar A} {SO : ScalarOrder A}.

Lemma sort_desc_permutation (l1 l2 : list A) :
  Permutation l1 l2 -> sort_desc l1 = sort_desc l2.
Proof.
  intros Hp. apply sorted_desc_unique; try apply sort_desc_sorted.
  rewrite !sort_desc_perm. exact Hp.
Qed.

Lemma flat_map_swap {T U : Type} (g : T -> T -> U) :
  forall l1 l2 : list T,
  Permutation (flat_map (fun i => map (fun j => g i j) l2) l1)
              (flat_map (fun j => map (fun i => g i j) l1) l2).
Proof.
  induction l1 as [| x l1 IH]; intros l2.
  - cbn [flat_map map]. induction l2 as [| y l2 IH2]; [constructor |].
    exact IH2.
  - cbn [flat_map]. rewrite IH. clear IH.
    induction l2 as [| y l2 IH2]; [constructor |].
    cbn [map flat_map app]. constructor.
    rewrite <- IH2. rewrite !app_assoc.
    apply Permutation_app_tail. apply Permutation_app_comm.
Qed.

End KMaxComm.

(** X19.  K-Max's [mul] is commutative: on two values of one shape with
    [k] slots, [mul a b] and [mul b a] return the same tensor. *)
Theorem KMax_mul_comm {A} {SA : Scalar A} {SO : ScalarOrder A}
    {SR : ScalarRing A} (k : nat) (a b : tensor A) (s : list nat) :
  shape a = k :: s -> shape b = k :: s ->
  exists r r',
    KMaxSemiring.mul k a b = Ok r /\
    KMaxSemiring.mul k b a = Ok r' /\
    teq r r'.
Proof.
  intros Ha Hb.
  destruct (@KMax_mul_at _ _ k a b s Ha Hb) as (r & Hr & Hsr & Hgr).
  destruct (@KMax_mul_at _ _ k b a s Hb Ha) as (r' & Hr' & Hsr' & Hgr').
  exists r, r'. split; [exact Hr |]. split; [exact Hr' |].
  split; [congruence |]. intros idx Hi. rewrite Hsr in Hi.
  apply in_range_inv_cons in Hi. destruct Hi as (i & idx' & -> & _ & Hi).
  rewrite (Hgr i idx' Hi), (Hgr' i idx' Hi). f_equal.
  apply sort_desc_permutation. unfold pairwise_sums.
  rewrite (flat_map_swap
             (fun i j => s_add (tget a (i :: idx')) (tget b (j :: idx')))).
  apply Permutation_refl'.
  apply flat_map_ext. intros j. apply map_ext. intros i'.
  apply s_add_comm.
Qed.

Lemma KMax_mul_comm_witness :
  exists r r',
    KMaxSemiring.mul 2 (of_flat 0%Z [2; 1] [5; 3]%Z)
      (of_flat 0%Z [2; 1] [4; 1]%Z) = Ok r /\
    KMaxSemiring.mul 2 (of_flat 0%Z [2; 1] [4; 1]%Z)
      (of_flat 0%Z [2; 1] [5; 3]%Z) = Ok r' /\
    teq r r'.
Proof.
  exact (@KMax_mul_comm Z _ _ _ 2 (of_flat 0%Z [2; 1] [5; 3]%Z)
           (of_flat 0%Z [2; 1] [4; 1]%Z) [1] eq_refl eq_refl).
Defined.

(** ** K-Max: the best slot *)

Section KMaxBest.
Context {A : Type} {SA : Scalar A} {SO : ScalarOrder A}.

(** Two lists that dominate each other have the same maximum. *)
Lemma lmax_unique (l1 l2 : list A) :
  l1 <> [] -> l2 <> [] ->
  (forall x, In x l1 -> exists y, In y l2 /\ ge y x) ->
  (forall y, In y l2 -> exists x, In x l1 /\ ge x y) ->
  lmax l1 = lmax l2.
Proof.
  intros H1 H2 H12 H21.
  destruct (lmax_spec H1) as [Hin1 Hmax1].
  destruct (lmax_spec H2) as [Hin2 Hmax2].
  destruct (H12 _ Hin1) as (y & Hy & Hge1).
  destruct (H21 _ Hin2) as (x & Hx & Hge2).
  apply s_leb_antisym.
  - apply (ge_trans (Hmax2 y Hy) Hge1).
  - apply (ge_trans (Hmax1 x Hx) Hge2).
Qed.

(** K-Max's [convert]: the potentials in slot 0, [NEGINF] in the others. *)
Lemma KMax_convert_at (k : nat) (p : tensor A) :
  0 < k ->
  exists v,
    KMaxSemiring.convert k (PTensor p) = Ok v /\
    shape v = k :: shape p /\
    forall c idx, in_range (shape p) idx ->
      tget v (c :: idx) = if c =? 0 then tget p idx else NEGINF.
Proof.
  intros Hk. unfold KMaxSemiring.convert, _BaseLog.zero_. cbn [bind].
  rewrite (@set_index_at _ (fill_ (zeros (k :: shape p)) NEGINF) p k
             (shape p) 0%Z 0)
    by (lia || reflexivity || apply expandable_refl).
  eexists. split; [reflexivity |]. split; [reflexivity |].
  intros c idx Hr. cbn [tget fill_]. now rewrite (bidx_id Hr).
Qed.

(** Max on potentials: [convert], [sum] over the last axis, [unconvert]. *)
Lemma Max_pipeline_at (p : tensor A) (s : list nat) (n : nat) :
  shape p = s ++ [n] -> 0 < n ->
  exists v r u,
    Semiring.convert (PTensor p) = Ok v /\
    MaxSemiring.sum v (-1) = Ok r /\
    Semiring.unconvert r = Ok u /\
    shape u = s /\
    forall i, length i = length s ->
      tget u i = lmax (map (fun j => tget p (i ++ [j])) (seq 0 n)).
Proof.
  intros Hs Hn. unfold Semiring.convert. rewrite unsqueeze_0.
  set (v := mkT (1 :: shape p) (fun idx => tget p (remove_at 0 idx))).
  destruct (@tmax_last _ _ v (1 :: s) n) as (r & Hr & Hsr & Hgr);
    [cbn [shape v]; now rewrite Hs | exact Hn |].
  exists v, r. unfold MaxSemiring.sum, Semiring.unconvert, squeeze.
  rewrite Hr, wrap_dim_0. cbn [bind]. rewrite Hsr. cbn [nth Nat.eqb].
  eexists. split; [reflexivity |]. split; [reflexivity |].
  split; [reflexivity |]. split; [reflexivity |].
  intros i Hl. cbn [tget].
  change (insert_at 0 0 i) with (0 :: i).
  rewrite Hgr by (cbn [length]; now rewrite Hl). reflexivity.
Qed.

End KMaxBest.

(** X20.  The best of the k best is the best: on potentials that reach
    [NEGINF] on every lane of the last axis, K-Max's [convert], [sum] over
    the last axis and [unconvert] return what Max's return. *)
Theorem KMax_best_is_Max {A} {SA : Scalar A} {SO : ScalarOrder A}
    (k : nat) (p : tensor A) (s : list nat) (n : nat) :
  shape p = s ++ [n] -> 0 < numel s -> 0 < n -> 0 < k ->
  (forall i, in_range s i ->
     exists j, j < n /\ ge (tget p (i ++ [j])) NEGINF) ->
  exists v r u v' r' u',
    Dispatch.convert (KMax k) (PTensor p) = Ok v /\
    KMaxSemiring.sum k v (-1) = Ok r /\
    Dispatch.unconvert (KMax k) r = Ok u /\
    Dispatch.convert Max (PTensor p) = Ok v' /\
    MaxSemiring.sum v' (-1) = Ok r' /\
    Dispatch.unconvert Max r' = Ok u' /\
    teq u u'.
Proof.
  intros Hs Hpos Hn Hk Hreach.
  destruct (@KMax_convert_at _ _ k p Hk) as (v & Hv & Hsv & Hgv).
  rewrite Hs in Hsv.
  assert (Hkn : k <= n * k) by nia.
  destruct (@KMax_sum_at _ _ k v k n s Hsv Hpos Hkn)
    as (r & Hr & Hsr & Hgr).
  destruct (@Max_pipeline_at _ _ p s n Hs Hn)
    as (v' & r' & u' & Hv' & Hr' & Hu' & Hsu' & Hgu').
  exists v, r. eexists. exists v', r', u'.
  cbn [Dispatch.convert Dispatch.unconvert].
  unfold KMaxSemiring.unconvert.
  rewrite (@select_at _ r k s 0%Z 0 Hsr) by (lia || reflexivity).
  split; [exact Hv |]. split; [exact Hr |]. split; [reflexivity |].
  split; [exact Hv' |]. split; [exact Hr' |]. split; [exact Hu' |].
  split; [cbn [shape]; congruence |].
  cbn [shape tget]. intros i Hi. pose proof (in_range_length Hi) as Hl.
  rewrite (Hgr 0 i Hi), (Hgu' i Hl).
  assert (Hne : forall (g : nat -> A) m, 0 < m -> map g (seq 0 m) <> []).
  { intros g [| m] Hm; [lia | discriminate]. }
  rewrite hd_sort_desc_lmax by (apply Hne; nia).
  assert (Hslot : forall m, m < n * k ->
             tget v (m mod k :: i ++ [m / k])
             = if m mod k =? 0 then tget p (i ++ [m / k]) else NEGINF).
  { intros m Hm. apply Hgv. rewrite Hs.
    apply in_range_app; [exact Hi |].
    apply in_range_cons. split; [| reflexivity].
    apply Nat.Div0.div_lt_upper_bound. lia. }
  apply lmax_unique; try (apply Hne; nia).
  - intros x Hx. apply in_map_iff in Hx. destruct Hx as (m & <- & Hm).
    apply in_seq in Hm. rewrite Hslot by lia.
    destruct (m mod k =? 0).
    + exists (tget p (i ++ [m / k])). split; [| apply ge_refl].
      apply in_map_iff. exists (m / k). split; [reflexivity |].
      apply in_seq. split; [lia |].
      apply Nat.Div0.div_lt_upper_bound. lia.
    + destruct (Hreach i Hi) as (j & Hj & Hge).
      exists (tget p (i ++ [j])). split; [| exact Hge].
      apply in_map_iff. exists j. split; [reflexivity |].
      apply in_seq. lia.
  - intros y Hy. apply in_map_iff in Hy. destruct Hy as (j & <- & Hj).
    apply in_seq in Hj.
    exists (tget p (i ++ [j])). split; [| apply ge_refl].
    apply in_map_iff. exists (j * k). split.
    + rewrite Hslot by nia.
      rewrite Nat.Div0.mod_mul, Nat.div_mul by lia. reflexivity.
    + apply in_seq. nia.
Qed.

Lemma KMax_best_is_Max_witness :
  exists v r u v' r' u',
    Dispatch.convert (KMax 2) (PTensor (of_flat 0%Z [1; 3] [4; 9; 2]%Z))
    = Ok v /\
    KMaxSemiring.sum 2 v (-1) = Ok r /\
    Dispatch.unconvert (KMax 2) r = Ok u /\
    Dispatch.convert Max (PTensor (of_flat 0%Z [1; 3] [4; 9; 2]%Z))
    = Ok v' /\
    MaxSemiring.sum v' (-1) = Ok r' /\
    Dispatch.unconvert Max r' = Ok u' /\
    teq u u'.
Proof.
  apply (@KMax_best_is_Max Z _ _ 2 (of_flat 0%Z [1; 3] [4; 9; 2]%Z) [1] 3).
  - reflexivity.
  - cbn. lia.
  - lia.
  - lia.
  - intros i Hi. exists 0. split; [lia |].
    apply in_range_inv_cons in Hi.
    destruct Hi as (c & idx & -> & Hc & Hnil).
    apply in_range_nil_l in Hnil. subst idx.
    assert (c = 0) by lia. subst c. reflexivity.
Defined.

(** ** Log against Max *)

Section LogMax.
Open Scope R_scope.

Lemma ln_le (x y : R) : 0 < x -> x <= y -> ln x <= ln y.
Proof.
  intros Hx [Hlt | ->]; [| lra].
  left. now apply ln_increasing.
Qed.

Lemma lsum_exp_ge (l : list R) (x : R) :
  In x l -> exp x <= lsum (map exp l).
Proof.
  assert (Hnn : forall l : list R, 0 <= lsum (map exp l)).
  { clear. induction l as [| y l IH]; [cbn; lra |].
    change (lsum (map exp (y :: l))) with (exp y + lsum (map exp l)).
    pose proof (exp_pos y). lra. }
  induction l as [| y l IH]; intros Hin; [destruct Hin |].
  change (lsum (map exp (y :: l))) with (exp y + lsum (map exp l)).
  destruct Hin as [-> | Hin].
  - pose proof (Hnn l). lra.
  - specialize (IH Hin). pose proof (exp_pos y). lra.
Qed.

Lemma lsum_exp_le (l : list R) (M : R) :
  (forall y, In y l -> y <= M) ->
  lsum (map exp l) <= INR (length l) * exp M.
Proof.
  induction l as [| y l IH]; intros Hle.
  - cbn. lra.
  - change (lsum (map exp (y :: l))) with (exp y + lsum (map exp l)).
    cbn [length]. rewrite S_INR.
    assert (Hy : exp y <= exp M).
    { destruct (Hle y (or_introl eq_refl)) as [Hlt | ->]; [| lra].
      left. now apply exp_increasing. }
    assert (Hl : lsum (map exp l) <= INR (length l) * exp M)
      by (apply IH; intros z Hz; apply Hle; now right).
    lra.
Qed.

(** The logsumexp of a non-empty list lies between its maximum and its
    maximum plus the logarithm of its length. *)
Lemma lse_bounds (l : list R) :
  l <> [] -> lmax l <= lse l <= lmax l + ln (INR (length l)).
Proof.
  intros Hne. destruct (lmax_spec Hne) as [Hin Hmax].
  pose proof (lsum_exp_pos Hne) as Hpos.
  assert (Hlen : 0 < INR (length l)).
  { apply lt_0_INR. destruct l; [congruence | cbn; lia]. }
  unfold lse. cbn [s_log s_exp R_Transcendental].
  change (map (fun x => exp x) l) with (map exp l).
  split.
  - rewrite <- (ln_exp (lmax l)) at 1.
    apply ln_le; [apply exp_pos | now apply lsum_exp_ge].
  - rewrite <- (ln_exp (lmax l)) at 1.
    rewrite Rplus_comm, <- ln_mult by (assumption || apply exp_pos).
    apply ln_le; [exact Hpos |].
    apply lsum_exp_le. intros y Hy. apply Rleb_le. exact (Hmax y Hy).
Qed.

End LogMax.

(** X21.  Log against Max: over the reals, on a last axis of length
    [n >= 1], Log's [sum] lies at every position between Max's [sum] and
    Max's [sum] plus [ln n]. *)
Theorem Log_sum_bounds_Max (xs : tensor R) (s : list nat) (n : nat) :
  shape xs = s ++ [n] -> 0 < n ->
  exists l m,
    Dispatch.sum Log xs (-1) = Ok (PyTensor l) /\
    Dispatch.sum Max xs (-1) = Ok (PyTensor m) /\
    shape l = s /\ shape m = s /\
    forall i, in_range s i ->
      (tget m i <= tget l i <= tget m i + ln (INR n))%R.
Proof.
  intros Hs Hn.
  destruct (@reduce_dim_last _ lse xs s n Hs) as (l & Hl & Hsl & Hgl).
  destruct (@tmax_last _ _ xs s n Hs Hn) as (m & Hm & Hsm & Hgm).
  exists l, m. cbn [Dispatch.sum].
  unfold _BaseLog.sum, logsumexp, MaxSemiring.sum, Dispatch.ret_tensor.
  rewrite Hl, Hm. cbn [bind].
  split; [reflexivity |]. split; [reflexivity |].
  split; [exact Hsl |]. split; [exact Hsm |].
  intros i Hi. pose proof (in_range_length Hi) as Hlen.
  rewrite (Hgl i Hlen), (Hgm i Hlen).
  set (P := map (fun j => tget xs (i ++ [j])) (seq 0 n)).
  assert (HP : length P = n)
    by (unfold P; now rewrite length_map, length_seq).
  rewrite <- HP. apply lse_bounds.
  destruct P; [cbn in HP; lia | discriminate].
Qed.

Lemma Log_sum_bounds_Max_witness :
  exists l m,
    Dispatch.sum Log (of_list 0%R [1; 3]%R) (-1) = Ok (PyTensor l) /\
    Dispatch.sum Max (of_list 0%R [1; 3]%R) (-1) = Ok (PyTensor m) /\
    (tget m [] <= tget l [] <= tget m [] + ln (INR 2))%R.
Proof.
  destruct (@Log_sum_bounds_Max (of_list 0%R [1; 3]%R) [] 2 eq_refl)
    as (l & m & Hl & Hm & _ & _ & Hb); [lia |].
  exists l, m. split; [exact Hl |]. split; [exact Hm |].
  apply (Hb []). reflexivity.
Defined.

(** ** Identities of [plus] and [mul] *)

#[export] Instance R_ScalarExp : ScalarExp R.
Proof.
  split; intros; cbn; try ring. apply exp_0.
Qed.

(** The laws hold as well with the [exp] that underflows. *)
Lemma R_Underflow_ScalarExp : @ScalarExp R R_Scalar R_Underflow.
Proof.
  split; intros; cbn; try ring.
  unfold exp_underflow. destruct (Rle_dec 0 (-745)); [lra | apply exp_0].
Qed.

Section PlusZero.
Context {A : Type} {SA : Scalar A} {TA : Transcendental A}.

Lemma stack2_last_at (a b : tensor A) :
  shape b = shape a ->
  exists st,
    stack [a; b] (-1) = Ok st /\
    shape st = shape a ++ [2] /\
    forall idx j, length idx = ndim a ->
      tget st (idx ++ [j]) = tget (nth j [a; b] a) idx.
Proof.
  intros Hb. rewrite (@stack2_last _ a b Hb).
  eexists. split; [reflexivity |]. split.
  - cbn [shape]. unfold ndim. apply insert_at_end.
  - intros idx j Hl. cbn [tget]. rewrite <- Hl.
    now rewrite nth_middle, remove_at_end.
Qed.

(** Log: the logsumexp of the sentinel and an element that absorbs it. *)
Lemma Log_plus_zero (x y : tensor A) :
  shape x = shape y ->
  (forall idx, in_range (shape y) idx -> absorbs (tget y idx)) ->
  exists z r,
    Dispatch.zero_ Log x = Ok z /\
    Dispatch.plus Log z y = Ok (PyTensor r) /\ teq r y.
Proof.
  intros Hx Habs. cbn [Dispatch.zero_]. unfold _BaseLog.zero_.
  destruct (@reduce_stack2 _ lse (fill_ x NEGINF) y)
    as (st & r & Hst & Hred & _ & Hsh & Hget);
    [cbn [shape fill_]; congruence |].
  exists (fill_ x NEGINF), r. split; [reflexivity |].
  unfold Dispatch.plus, Semiring.plus. rewrite Hst. cbn [bind Dispatch.sum].
  unfold _BaseLog.sum, logsumexp. rewrite Hred. split; [reflexivity |].
  split; [rewrite Hsh; exact Hx |].
  intros idx Hr. rewrite Hsh in Hr. rewrite (Hget idx Hr).
  cbn [shape fill_] in Hr. rewrite Hx in Hr.
  cbn [fill_ tget]. exact (Habs idx Hr).
Qed.

(** TempMax: [sum] has no body, so [plus] returns [None]. *)
Lemma TempMax_plus_none (alpha : A) (x y : tensor A) :
  shape x = shape y ->
  exists z,
    Dispatch.zero_ (TempMax alpha) x = Ok z /\
    Dispatch.plus (TempMax alpha) z y = Ok PyNone.
Proof.
  intros Hx. cbn [Dispatch.zero_]. unfold _BaseLog.zero_.
  exists (fill_ x NEGINF). split; [reflexivity |].
  unfold Dispatch.plus, Semiring.plus.
  rewrite (@stack2_last _ (fill_ x NEGINF) y)
    by (cbn [shape fill_]; congruence).
  reflexivity.
Qed.

Context {SO : ScalarOrder A}.

(** K-Max: the [k] largest of the slots of [y] and [k] sentinels. *)
Lemma KMax_plus_zero (k : nat) (x y : tensor A) (s : list nat) :
  shape y = k :: s -> shape x = shape y -> 0 < numel s ->
  (forall idx, in_range s idx ->
     sorted_desc (column k y idx) /\
     forall i, i < k -> ge (tget y (i :: idx)) NEGINF) ->
  exists z r,
    Dispatch.zero_ (KMax k) x = Ok z /\
    Dispatch.plus (KMax k) z y = Ok (PyTensor r) /\ teq r y.
Proof.
  intros Hy Hx Hpos Hdom. cbn [Dispatch.zero_]. unfold _BaseLog.zero_.
  set (z := fill_ x NEGINF).
  assert (Hz : shape z = k :: s) by (cbn [shape z fill_]; congruence).
  destruct (@stack2_last_at z y) as (st & Hst & Hsst & Hgst);
    [congruence |].
  rewrite Hz in Hsst. cbn [app] in Hsst.
  assert (Hk2 : k <= 2 * k) by lia.
  destruct (@KMax_sum_at _ _ k st k 2 s Hsst Hpos Hk2)
    as (r & Hr & Hsr & Hgr).
  exists z, r. split; [reflexivity |].
  unfold Dispatch.plus, Semiring.plus. rewrite Hst.
  cbn [bind Dispatch.sum]. rewrite Hr. split; [reflexivity |].
  split; [congruence |].
  intros idx Hi. rewrite Hsr in Hi. apply in_range_inv_cons in Hi.
  destruct Hi as (c & i & -> & Hc & Hi).
  destruct (Hdom i Hi) as [Hsorted Hge].
  rewrite (Hgr c i Hi).
  set (L := map (fun m => tget st (m mod k :: i ++ [m / k]))
              (seq 0 (2 * k))).
  assert (HL : L = map (fun _ => NEGINF) (seq 0 k) ++ column k y i).
  { unfold L.
    rewrite <- (flat_map_divmod (fun j c0 => tget st (c0 :: i ++ [j])) k 2).
    cbn [seq flat_map]. rewrite app_nil_r. unfold column.
    f_equal; apply map_ext; intros c0;
      change (c0 :: i ++ ?l) with ((c0 :: i) ++ l);
      rewrite Hgst
        by (unfold ndim; rewrite Hz; cbn [length];
            now rewrite (in_range_length Hi));
      reflexivity. }
  assert (HlenL : length L = 2 * k)
    by (unfold L; now rewrite length_map, length_seq).
  assert (Htop : is_top_k k L (column k y i)).
  { split; [unfold column; now rewrite length_map, length_seq |].
    split; [exact Hsorted |].
    exists (map (fun _ => NEGINF) (seq 0 k)). split.
    - rewrite HL. apply Permutation_app_comm.
    - intros u v Hu Hv. unfold column in Hu.
      apply in_map_iff in Hu. destruct Hu as (i0 & <- & Hi0).
      apply in_seq in Hi0.
      apply in_map_iff in Hv. destruct Hv as (_ & <- & _).
      apply Hge. lia. }
  assert (Hsort : is_top_k k L (firstn k (sort_desc L)))
    by (apply firstn_sort_top_k; lia).
  pose proof (top_k_unique Hsort Htop) as Heq.
  rewrite <- (column_nth y i Hc), <- Heq.
  rewrite nth_firstn.
  destruct (Nat.ltb_spec c k); [reflexivity | lia].
Qed.

Context {SL : ScalarLaws A} {SE : ScalarExp A}.

(** What [zero_] writes into a value of an expectation semiring. *)
Lemma Expectation_zero_at (c : semiring A) (x : tensor A) (s : list nat) :
  is_expectation c = true -> shape x = Dispatch.size c :: s ->
  exists z,
    Dispatch.zero_ c x = Ok z /\
    shape z = Dispatch.size c :: s /\
    forall comp idx, comp < Dispatch.size c -> in_range s idx ->
      tget z (comp :: idx)
      = match c with
        | KLDivergence | CrossEntropy =>
            if comp <? 2 then NEGINF else s_zero
        | _ => if comp =? 0 then NEGINF else s_zero
        end.
Proof.
  intros Hc Hx.
  destruct c; try discriminate Hc;
    cbn [Dispatch.size Dispatch.zero_] in *;
    unfold KLDivergenceSemiring.size, CrossEntropySemiring.size,
      EntropySemiring.size, RiskSemiring.size in *.
  - unfold KLDivergenceSemiring.zero_.
    step_on_select 3 s 0%Z 0. step_on_select 3 s 1%Z 1.
    step_on_select 3 s 2%Z 2.
    eexists. split; [reflexivity |]. split; [reflexivity |].
    intros comp idx Hcomp Hr.
    destruct comp as [| [| [| comp]]]; try lia; reflexivity.
  - unfold CrossEntropySemiring.zero_.
    step_on_select 3 s 0%Z 0. step_on_select 3 s 1%Z 1.
    step_on_select 3 s 2%Z 2.
    eexists. split; [reflexivity |]. split; [reflexivity |].
    intros comp idx Hcomp Hr.
    destruct comp as [| [| [| comp]]]; try lia; reflexivity.
  - unfold EntropySemiring.zero_.
    step_on_select 2 s 0%Z 0. step_on_select 2 s 1%Z 1.
    eexists. split; [reflexivity |]. split; [reflexivity |].
    intros comp idx Hcomp Hr.
    destruct comp as [| [| comp]]; try lia; reflexivity.
  - unfold RiskSemiring.zero_.
    step_on_select 3 s 0%Z 0. step_on_select 3 s 1%Z 1.
    step_on_select 3 s 2%Z 2.
    eexists. split; [reflexivity |]. split; [reflexivity |].
    intros comp idx Hcomp Hr.
    destruct comp as [| [| [| comp]]]; try lia; reflexivity.
Qed.

Ltac sentinel_calc :=
  repeat (rewrite ?s_sub_diag, ?s_exp_0, ?s_mul_0_r, ?s_mul_unit_r,
            ?s_sub_0_r, ?s_add_0_r, ?s_add_0_l);
  try reflexivity.

(** The components [sum] yields from a [zero_] element and an element [v]
    of the domain are those of [v]. *)
Lemma sum_elem_zero (c : semiring A) (L : nat -> nat -> A)
    (v : nat -> A) (k : nat) :
  is_expectation c = true -> k < Dispatch.size c ->
  (forall comp, L comp 1 = v comp) ->
  (forall comp, comp < Dispatch.size c ->
     L comp 0 = match c with
                | KLDivergence | CrossEntropy =>
                    if comp <? 2 then NEGINF else s_zero
                | _ => if comp =? 0 then NEGINF else s_zero
                end) ->
  absorbs (v 0) -> underflows (v 0) ->
  match c with
  | KLDivergence | CrossEntropy => absorbs (v 1)
  | Risk => v 1 = s_zero
  | _ => True
  end ->
  sum_elem c 2 L k = v k.
Proof.
  intros Hc Hk Hv Hz Habs Hund Hrest.
  unfold absorbs in *. unfold underflows in Hund.
  destruct c; try discriminate Hc;
    cbn [Dispatch.size] in *;
    unfold KLDivergenceSemiring.size, CrossEntropySemiring.size,
      EntropySemiring.size, RiskSemiring.size in *.
  - pose proof (Hz 0 ltac:(lia)) as H0. pose proof (Hz 1 ltac:(lia)) as H1.
    pose proof (Hz 2 ltac:(lia)) as H2. cbn [Nat.ltb Nat.leb] in H0, H1, H2.
    destruct k as [| [| [| k]]]; try lia;
      unfold sum_elem, kl_stat, lsum; cbn [seq map fold_right];
      rewrite ?H0, ?H1, ?H2, ?Hv, ?Habs, ?Hrest, ?Hund; sentinel_calc.
  - pose proof (Hz 0 ltac:(lia)) as H0. pose proof (Hz 1 ltac:(lia)) as H1.
    pose proof (Hz 2 ltac:(lia)) as H2. cbn [Nat.ltb Nat.leb] in H0, H1, H2.
    destruct k as [| [| [| k]]]; try lia;
      unfold sum_elem, ce_stat, lsum; cbn [seq map fold_right];
      rewrite ?H0, ?H1, ?H2, ?Hv, ?Habs, ?Hrest, ?Hund; sentinel_calc.
  - pose proof (Hz 0 ltac:(lia)) as H0. pose proof (Hz 1 ltac:(lia)) as H1.
    cbn [Nat.eqb] in H0, H1.
    destruct k as [| [| k]]; try lia;
      unfold sum_elem, entropy_stat, lsum; cbn [seq map fold_right];
      rewrite ?H0, ?H1, ?Hv, ?Habs, ?Hund; sentinel_calc.
  - pose proof (Hz 0 ltac:(lia)) as H0. pose proof (Hz 1 ltac:(lia)) as H1.
    pose proof (Hz 2 ltac:(lia)) as H2. cbn [Nat.eqb] in H0, H1, H2.
    destruct k as [| [| [| k]]]; try lia;
      unfold sum_elem, risk_stat, lsum; cbn [seq map fold_right];
      rewrite ?H0, ?H1, ?H2, ?Hv, ?Habs, ?Hrest, ?Hund; sentinel_calc.
Qed.

(** The expectation semirings: every component of [plus (zero_ x) y] is
    that of [y]. *)
Lemma Expectation_plus_zero (c : semiring A) (x y : tensor A)
    (s : list nat) :
  is_expectation c = true ->
  shape y = Dispatch.size c :: s -> shape x = shape y ->
  additive_identity_domain c s y ->
  exists z r,
    Dispatch.zero_ c x = Ok z /\
    Dispatch.plus c z y = Ok (PyTensor r) /\ teq r y.
Proof.
  intros Hc Hy Hx Hdom. rewrite Hy in Hx.
  destruct (@Expectation_zero_at c x s Hc Hx) as (z & Hz & Hsz & Hgz).
  destruct (@stack2_last_at z y) as (st & Hst & Hsst & Hgst);
    [congruence |].
  rewrite Hsz in Hsst. cbn [app] in Hsst.
  destruct (last_axis_valid s 2) as [Hval Hax].
  destruct (@Expectation_sum_at _ _ _ c st (s ++ [2]) (-1) Hc Hsst Hval)
    as (r & Hsum & Hsh & Hel).
  rewrite Hax in Hsh, Hel. rewrite remove_at_end in Hsh, Hel.
  rewrite nth_middle in Hel.
  exists z, r. split; [exact Hz |].
  unfold Dispatch.plus, Semiring.plus. rewrite Hst. cbn [bind].
  split; [exact Hsum |]. split; [congruence |].
  intros idx Hi. rewrite Hsh in Hi. apply in_range_inv_cons in Hi.
  destruct Hi as (k & i & -> & Hk & Hi).
  pose proof (in_range_length Hi) as Hl.
  rewrite (Hel k i Hk Hi).
  assert (Hst_at : forall comp j,
             tget st (comp :: insert_at (length s) j i)
             = tget (nth j [z; y] z) (comp :: i)).
  { intros comp j. rewrite <- Hl, insert_at_end.
    change (comp :: i ++ [j]) with ((comp :: i) ++ [j]).
    apply Hgst. unfold ndim. rewrite Hsz. cbn [length]. now rewrite Hl. }
  apply (@sum_elem_zero c _ (fun comp => tget y (comp :: i)) k Hc Hk).
  - intros comp. now rewrite Hst_at.
  - intros comp Hcomp. rewrite Hst_at. cbn [nth].
    now apply Hgz.
  - destruct c; try discriminate Hc; cbn [additive_identity_domain] in Hdom;
      now destruct (Hdom i Hi).
  - destruct c; try discriminate Hc; cbn [additive_identity_domain] in Hdom;
      destruct (Hdom i Hi) as [_ H]; try exact H; now destruct H.
  - destruct c; try discriminate Hc; cbn [additive_identity_domain] in Hdom;
      try exact I; destruct (Hdom i Hi) as (_ & _ & H); exact H.
Qed.

(** Risk's [sum] returns a cost stream of zeros, so [plus (zero_ x) y]
    is not [y] when the cost stream of [y] is not zero. *)
Lemma Risk_plus_zero_cost (x y : tensor A) (s : list nat) :
  shape y = 3 :: s -> shape x = shape y ->
  exists z r,
    Dispatch.zero_ Risk x = Ok z /\
    Dispatch.plus Risk z y = Ok (PyTensor r) /\
    shape r = shape y /\
    forall idx, in_range s idx -> tget r (1 :: idx) = s_zero.
Proof.
  intros Hy Hx. rewrite Hy in Hx.
  destruct (@Expectation_zero_at Risk x s eq_refl Hx)
    as (z & Hz & Hsz & _).
  destruct (@stack2_last_at z y) as (st & Hst & Hsst & _);
    [rewrite Hsz, Hy; reflexivity |].
  rewrite Hsz in Hsst. cbn [app] in Hsst.
  destruct (last_axis_valid s 2) as [Hval Hax].
  destruct (@Expectation_sum_at _ _ _ Risk st (s ++ [2]) (-1)
              eq_refl Hsst Hval) as (r & Hsum & Hsh & Hel).
  rewrite Hax in Hsh, Hel. rewrite remove_at_end in Hsh, Hel.
  exists z, r. split; [exact Hz |].
  unfold Dispatch.plus, Semiring.plus. rewrite Hst. cbn [bind].
  split; [exact Hsum |]. split; [rewrite Hsh, Hy; reflexivity |].
  intros idx Hi.
  assert (H1 : 1 < Dispatch.size (@Risk A))
    by (unfold Dispatch.size, RiskSemiring.size; lia).
  rewrite (Hel 1 idx H1 Hi). reflexivity.
Qed.

End PlusZero.

(** C4, amended.  For a value [y] of the semiring's shape and a buffer [x]
    of that shape: [mul (one_ x) y] is [y] on every semiring but K-Max, and
    on K-Max (with [k >= 1]) when, at every position, the slots of [y] are
    in descending order and no slot lies below another slot plus the
    sentinel.  [plus (zero_ x) y], the sum of the stacked pair, is [y] on
    every semiring with a [sum], for the [y] of the semiring's domain: any
    on the Counting semiring; elements not below the sentinel on Max;
    slots in descending order and not below the sentinel on K-Max;
    log-scores that absorb the sentinel on Log and the expectation
    semirings, with a cost stream of zeros on Risk.  On TempMax, whose
    [sum] has no body, it is [None]. *)
Theorem identities {A} {SA : Scalar A} {SO : ScalarOrder A}
    {SL : ScalarLaws A} {TA : Transcendental A} {SE : ScalarExp A}
    (c : semiring A) (x y : tensor A) (s : list nat) :
  shape y = Dispatch.size c :: s -> shape x = shape y ->
  (match c with
   | KMax k =>
       1 <= k /\
       forall idx, in_range s idx ->
         sorted_desc (column k y idx) /\
         forall i j, i < k -> j < k ->
           ge (tget y (i :: idx)) (s_add NEGINF (tget y (j :: idx)))
   | _ => True
   end ->
   exists o r,
     Dispatch.one_ c x = Ok o /\ Dispatch.mul c o y = Ok r /\ teq r y) /\
  (additive_identity_domain c s y ->
   exists z,
     Dispatch.zero_ c x = Ok z /\
     match c with
     | TempMax _ => Dispatch.plus c z y = Ok PyNone
     | _ => exists r, Dispatch.plus c z y = Ok (PyTensor r) /\ teq r y
     end).
Proof.
  intros Hy Hx. split.
  - intros Hc.
    assert (Hsimple : (forall k, c <> KMax k) ->
              exists o r, Dispatch.one_ c x = Ok o /\
                          Dispatch.mul c o y = Ok r /\ teq r y)
      by (intros Hn; exact (@one_mul_simple _ _ _ c x y s Hn Hy Hx)).
    destruct c; try (apply Hsimple; discriminate).
    destruct Hc as [Hk Hsorted]. cbn [Dispatch.one_ Dispatch.mul].
    exact (@KMax_one_mul _ _ _ _ k x y s Hk Hy Hx Hsorted).
  - intros Hdom.
    assert (Hpack : (exists z r, Dispatch.zero_ c x = Ok z /\
                       Dispatch.plus c z y = Ok (PyTensor r) /\ teq r y) ->
                    (forall alpha, c <> TempMax alpha) ->
                    exists z,
                      Dispatch.zero_ c x = Ok z /\
                      match c with
                      | TempMax _ => Dispatch.plus c z y = Ok PyNone
                      | _ => exists r, Dispatch.plus c z y
                                       = Ok (PyTensor r) /\ teq r y
                      end).
    { intros (z & r & Hz & Hp & Heq) Hn. exists z. split; [exact Hz |].
      destruct c; try (exists r; split; assumption).
      exfalso. now apply (Hn alpha). }
    destruct c; cbn [additive_identity_domain] in Hdom.
    + apply Hpack; [now apply Std_plus_zero | discriminate].
    + apply Hpack; [now apply Log_plus_zero | discriminate].
    + apply Hpack; [now apply Max_plus_zero | discriminate].
    + apply Hpack; [| discriminate]. destruct Hdom as [Hpos Hdom].
      exact (@KMax_plus_zero _ _ _ _ k x y s Hy Hx Hpos Hdom).
    + apply Hpack; [| discriminate].
      exact (@Expectation_plus_zero _ _ _ _ _ KLDivergence x y s
               eq_refl Hy Hx Hdom).
    + apply Hpack; [| discriminate].
      exact (@Expectation_plus_zero _ _ _ _ _ CrossEntropy x y s
               eq_refl Hy Hx Hdom).
    + apply Hpack; [| discriminate].
      exact (@Expectation_plus_zero _ _ _ _ _ Entropy x y s
               eq_refl Hy Hx Hdom).
    + now apply TempMax_plus_none.
    + apply Hpack; [| discriminate].
      exact (@Expectation_plus_zero _ _ _ _ _ Risk x y s
               eq_refl Hy Hx Hdom).
Qed.

Lemma absorbs_underflow (v : R) :
  (-745 < v)%R -> @absorbs R R_Scalar R_Underflow v.
Proof.
  intros Hv. unfold absorbs, lse, lsum.
  cbn [map fold_right s_log s_exp s_add s_zero R_Underflow R_Scalar].
  unfold exp_underflow.
  destruct (Rle_dec NEGINF (-745)) as [_ | Hn];
    [| exfalso; apply Hn; cbn; lra].
  destruct (Rle_dec v (-745)); [lra |].
  rewrite Rplus_0_l, Rplus_0_r. apply ln_exp.
Qed.

Lemma underflows_underflow (v : R) :
  (0 <= v)%R -> @underflows R R_Scalar R_Underflow v.
Proof.
  intros Hv. unfold underflows.
  cbn [s_exp s_sub s_zero R_Underflow R_Scalar]. unfold exp_underflow.
  destruct (Rle_dec (NEGINF - v) (-745)) as [_ | Hn]; [reflexivity |].
  exfalso. apply Hn. cbn. lra.
Qed.

Lemma identities_witness :
  (exists o r,
     Dispatch.one_ (KMax 2) (of_flat 0%R [2; 1] [2; 1]%R) = Ok o /\
     Dispatch.mul (KMax 2) o (of_flat 0%R [2; 1] [2; 1]%R) = Ok r /\
     teq r (of_flat 0%R [2; 1] [2; 1]%R)) /\
  (exists z,
     Dispatch.zero_ Max (of_flat 0%R [1; 2] [2; 1]%R) = Ok z /\
     exists r,
       Dispatch.plus Max z (of_flat 0%R [1; 2] [2; 1]%R)
       = Ok (PyTensor r) /\
       teq r (of_flat 0%R [1; 2] [2; 1]%R)) /\
  (exists z,
     Dispatch.zero_ (KMax 2) (of_flat 0%R [2; 1] [2; 1]%R) = Ok z /\
     exists r,
       Dispatch.plus (KMax 2) z (of_flat 0%R [2; 1] [2; 1]%R)
       = Ok (PyTensor r) /\
       teq r (of_flat 0%R [2; 1] [2; 1]%R)) /\
  (exists z,
     Dispatch.zero_ Log (of_flat 0%R [1; 2] [2; 1]%R) = Ok z /\
     exists r,
       @Dispatch.plus R R_Scalar R_Underflow Log z
         (of_flat 0%R [1; 2] [2; 1]%R) = Ok (PyTensor r) /\
       teq r (of_flat 0%R [1; 2] [2; 1]%R)) /\
  (exists z,
     Dispatch.zero_ Entropy (of_flat 0%R [2; 1] [1; 5]%R) = Ok z /\
     exists r,
       @Dispatch.plus R R_Scalar R_Underflow Entropy z
         (of_flat 0%R [2; 1] [1; 5]%R) = Ok (PyTensor r) /\
       teq r (of_flat 0%R [2; 1] [1; 5]%R)).
Proof.
  split; [| split; [| split; [| split]]].
  - apply (@identities R _ _ _ _ _ (KMax 2) (of_flat 0%R [2; 1] [2; 1]%R)
             (of_flat 0%R [2; 1] [2; 1]%R) [1] eq_refl eq_refl).
    split; [lia |]. intros idx Hr.
    destruct idx as [| [| i] [| j idx]]; try discriminate Hr.
    split.
    + unfold column, sorted_desc. cbn.
      repeat constructor. unfold ge. cbn. apply Rleb_le. lra.
    + intros i j Hi Hj. unfold ge.
      destruct i as [| [| i]], j as [| [| j]]; try lia; cbn;
        apply Rleb_le; lra.
  - apply (@identities R _ _ _ _ _ Max (of_flat 0%R [1; 2] [2; 1]%R)
             (of_flat 0%R [1; 2] [2; 1]%R) [2] eq_refl eq_refl).
    intros idx Hr. unfold ge.
    destruct idx as [| [| i] [| [| [| j]] [| l idx]]]; try discriminate Hr;
      cbn; apply Rleb_le; lra.
  - apply (@identities R _ _ _ _ _ (KMax 2) (of_flat 0%R [2; 1] [2; 1]%R)
             (of_flat 0%R [2; 1] [2; 1]%R) [1] eq_refl eq_refl).
    split; [cbn; lia |]. intros idx Hr.
    destruct idx as [| [| i] [| j idx]]; try discriminate Hr.
    split.
    + unfold column, sorted_desc. cbn.
      repeat constructor. unfold ge. cbn. apply Rleb_le. lra.
    + intros i Hi. unfold ge.
      destruct i as [| [| i]]; try lia; cbn; apply Rleb_le; lra.
  - apply (@identities R R_Scalar R_ScalarOrder R_ScalarLaws R_Underflow
             R_Underflow_ScalarExp Log (of_flat 0%R [1; 2] [2; 1]%R)
             (of_flat 0%R [1; 2] [2; 1]%R) [2] eq_refl eq_refl).
    intros idx Hr.
    destruct idx as [| [| i] [| [| [| j]] [| l idx]]]; try discriminate Hr;
      apply absorbs_underflow; cbn; lra.
  - apply (@identities R R_Scalar R_ScalarOrder R_ScalarLaws R_Underflow
             R_Underflow_ScalarExp Entropy (of_flat 0%R [2; 1] [1; 5]%R)
             (of_flat 0%R [2; 1] [1; 5]%R) [1] eq_refl eq_refl).
    intros idx Hr.
    destruct idx as [| [| i] [| j idx]]; try discriminate Hr.
    split; [apply absorbs_underflow | apply underflows_underflow];
      cbn; lra.
Defined.
